(** * Portfolio Evolution Engine: a shallow embedding of the simulation and
      evolution core, and the properties of its specification.

    The embedding follows the TypeScript sources function by function:

    - [src/infra/rng.ts]        : [SeededRNG] (Mulberry32), [next], [nextGaussian]
    - [src/infra/stats.ts]      : [mean], [stddev], [percentile]
    - [src/domain/scenarios.ts] : [generateScenarios]
    - [src/domain/simulation.ts]: [runMonteCarlo]
    - [src/domain/evolution.ts] : [normalize], [computeFitness], [mutate],
                                  [crossover], [randomPortfolio],
                                  [tournamentSelect], [measureDiversity],
                                  [detectAdversarial], [evolvePortfolio]

    JavaScript numbers are kept behind the interface [Number], which has two
    instances.  [B64.binary64] is IEEE 754 double precision, the arithmetic
    the program really runs on: the failing inputs and the counterexamples
    below are evaluated there.  [Exact.exact] is the same arithmetic
    without rounding and without overflow (rationals extended with the
    infinities and NaN): the statements that quantify over all inputs and
    depend on the order and field laws of the numbers are proved there, and
    say so; where doubles behave differently, a lemma on doubles shows it.

    [Math.sqrt], [Math.log] and [Math.cos] are implementation-approximated in
    ECMAScript; they are the fields of a [Platform], and so is the decimal
    rendering [toFixed].  The reference tables of
    [data/assumptions.json] are an input too ([Assumptions]). *)

From Stdlib Require Import ZArith QArith Qround Qabs Floats List Bool Lia Lqa
  String DecimalString Permutation Sorted.
Import ListNotations.

Set Implicit Arguments.
Local Open Scope Z_scope.

(* ================================================================== *)
(** * Outcomes of a call and the state monad that threads the generator *)
(* ================================================================== *)

(** A call either returns, or throws a [TypeError] (a property read on
    [undefined]), or leaves the modelled fragment ([OutOfModel]: the program
    goes on with an [undefined] value that the embedding does not follow). *)
Inductive Error : Type :=
| TypeError
| OutOfModel.

Inductive Result (A : Type) : Type :=
| Ok (a : A)
| Throw (e : Error).

Arguments Ok {A} a.
Arguments Throw {A} e.

Definition is_Ok {A} (r : Result A) : bool :=
  match r with
  | Ok _ => true
  | Throw _ => false
  end.

Definition Result_map {A B} (f : A -> B) (r : Result A) : Result B :=
  match r with
  | Ok a => Ok (f a)
  | Throw e => Throw e
  end.

(** Stateful, fallible computations over a state [St]. *)
Definition M (St A : Type) : Type := St -> Result (A * St).

Definition ret {St A} (a : A) : M St A := fun s => Ok (a, s).

Definition bind {St A B} (m : M St A) (k : A -> M St B) : M St B :=
  fun s =>
    match m s with
    | Ok (a, s') => k a s'
    | Throw e => Throw e
    end.

Definition throw {St A} (e : Error) : M St A := fun _ => Throw e.

Definition of_option {St A} (e : Error) (o : option A) : M St A :=
  match o with
  | Some a => ret a
  | None => throw e
  end.

Declare Scope monad_scope.
Delimit Scope monad_scope with monad.
Notation "x <- m ;; k" := (bind m (fun x => k))
  (at level 61, m at next level, right associativity) : monad_scope.
Notation "' pat <- m ;; k" := (bind m (fun x => match x with pat => k end))
  (at level 61, pat pattern, m at next level, right associativity) : monad_scope.

(** [for (const x of xs) acc = body(acc, x)] with effects. *)
Fixpoint foldM {St A B} (body : A -> B -> M St A) (xs : list B) (acc : A) : M St A :=
  match xs with
  | [] => ret acc
  | x :: xs' => bind (body acc x) (fun acc' => foldM body xs' acc')
  end.

(** [for (let i = 0; i < n; i++) out.push(body(i))]. *)
Fixpoint forM {St A} (body : nat -> M St A) (from n : nat) : M St (list A) :=
  match n with
  | O => ret []
  | S n' =>
      bind (body from) (fun a =>
      bind (forM body (S from) n') (fun rest => ret (a :: rest)))
  end.

(* ================================================================== *)
(** * JavaScript numbers *)
(* ================================================================== *)

(** The operations of the Number type that the sources use.  [lit q] is the
    Number denoted by the decimal literal [q]. *)
Class Number (num : Type) : Type := {
  lit : Q -> num;
  plus : num -> num -> num;
  minus : num -> num -> num;
  times : num -> num -> num;
  divide : num -> num -> num;
  less : num -> num -> bool;          (* x < y *)
  strict_eq : num -> num -> bool;     (* x === y *)
  Math_floor : num -> num;
  Math_round : num -> num;
  Math_abs : num -> num;
  to_integer : num -> option Z;       (* the integer a Number is, if it is one *)
  ToInt32 : num -> Z                  (* x | 0 *)
}.

Declare Scope js_scope.
Delimit Scope js_scope with js.
Infix "+" := plus : js_scope.
Infix "-" := minus : js_scope.
Infix "*" := times : js_scope.
Infix "/" := divide : js_scope.
Infix "<?" := less : js_scope.
Infix "===" := strict_eq (at level 70, no associativity) : js_scope.
Notation "x >? y" := (less y x) : js_scope.
Notation "x <=? y" := (orb (less x y) (strict_eq x y)) : js_scope.
Notation "x >=? y" := (orb (less y x) (strict_eq y x)) : js_scope.

Section NumberOps.
Context {num : Type} {N : Number num}.
Local Open Scope js_scope.

Definition of_Z (z : Z) : num := lit (inject_Z z).
Definition of_nat (n : nat) : num := of_Z (Z.of_nat n).

Definition NaN : num := lit 0 / lit 0.
Definition Infinity : num := lit 1 / lit 0.
Definition neg (x : num) : num := lit (-1) * x.

Definition isNaN (x : num) : bool := negb (x === x).
Definition isFinite (x : num) : bool := negb (isNaN (x - x)).

(** [x || d] on Numbers: [0] and [NaN] are falsy. *)
Definition truthy (x : num) : bool := negb (orb (x === lit 0) (isNaN x)).
Definition or_else (x d : num) : num := if truthy x then x else d.

(** [x ?? 0] on an optional Number. *)
Definition nullish (o : option num) : num :=
  match o with
  | Some x => x
  | None => lit 0
  end.

Definition Math_max2 (a b : num) : num :=
  if orb (isNaN a) (isNaN b) then NaN else if a <? b then b else a.
Definition Math_min2 (a b : num) : num :=
  if orb (isNaN a) (isNaN b) then NaN else if b <? a then b else a.

(** [Math.max(...xs)]: minus infinity on no argument. *)
Definition Math_max (xs : list num) : num := fold_left Math_max2 xs (neg Infinity).

Definition Math_ceil (x : num) : num := neg (Math_floor (neg x)).

(** [xs.reduce((s, v) => s + v, 0)]. *)
Definition sum (xs : list num) : num := fold_left plus xs (lit 0).

(** [xs[i]] for a Number [i]; [undefined] is [None]. *)
Definition at_index {A} (xs : list A) (i : num) : option A :=
  match to_integer i with
  | Some z => if z <? 0 then None else nth_error xs (Z.to_nat z)
  | None => None
  end%Z.

(** [xs[i]] read as a Number in arithmetic: [undefined] becomes [NaN]. *)
Definition index_num (xs : list num) (i : num) : num :=
  match at_index xs i with
  | Some x => x
  | None => NaN
  end.

(** A relative index of [slice], as [Array.prototype.slice] resolves it. *)
Definition slice_bound (len : nat) (k : Z) : nat :=
  if (k <? 0)%Z then Z.to_nat (Z.max 0 (Z.of_nat len + k))
  else Nat.min len (Z.to_nat k).

(** [xs.slice(start, end)]. *)
Definition slice {A} (xs : list A) (start end_ : Z) : list A :=
  let from := slice_bound (List.length xs) start in
  let to := slice_bound (List.length xs) end_ in
  firstn (to - from) (skipn from xs).

(** [xs.slice(start)]. *)
Definition slice_from {A} (xs : list A) (start : Z) : list A :=
  skipn (slice_bound (List.length xs) start) xs.

(** [Array.prototype.sort(cmp)]: a stable sort; [x] moves behind [y] when
    [cmp(x, y) > 0].  For a comparator that is not consistent (it returns
    NaN on some pair) ECMAScript leaves the order to the implementation;
    the embedding then keeps what stable insertion gives. *)
Fixpoint sort_insert {A} (cmp : A -> A -> num) (x : A) (l : list A) : list A :=
  match l with
  | [] => [x]
  | y :: l' => if cmp x y >? lit 0 then y :: sort_insert cmp x l' else x :: l
  end.

Definition sort {A} (cmp : A -> A -> num) (l : list A) : list A :=
  fold_right (sort_insert cmp) [] l.

End NumberOps.

(* ================================================================== *)
(** * The two arithmetics *)
(* ================================================================== *)

Definition two32 : Z := 4294967296.

(** [ToInt32] and [ToUint32] of an integer. *)
Definition int32 (z : Z) : Z := (z + 2147483648) mod two32 - 2147483648.
Definition uint32 (z : Z) : Z := z mod two32.

(** ** IEEE 754 binary64, the Number type of ECMAScript *)
Module B64.

Definition of_int (z : Z) : float :=
  match z with
  | Z0 => PrimFloat.zero
  | Zpos _ => PrimFloat.of_uint63 (Uint63.of_Z z)
  | Zneg p => PrimFloat.opp (PrimFloat.of_uint63 (Uint63.of_Z (Zpos p)))
  end.

(** A decimal literal denotes the double nearest to it: the division of
    two integers below 2^53 is that double, division being correctly
    rounded. *)
Definition literal (q : Q) : float :=
  PrimFloat.div (of_int (Qnum q)) (of_int (Zpos (Qden q))).

(** The rational a finite double is. *)
Definition to_Q (x : float) : option Q :=
  match Prim2SF x with
  | S754_zero _ => Some 0%Q
  | S754_finite s m e =>
      let v := (inject_Z (Zpos m) * Qpower 2 e)%Q in
      Some (if s then Qopp v else v)
  | _ => None
  end.

Definition is_negative (x : float) : bool :=
  match Prim2SF x with
  | S754_zero s => s
  | S754_finite s _ _ => s
  | S754_infinity s => s
  | S754_nan => false
  end.

(** An integer result, keeping the sign of a zero. *)
Definition signed_int (negative : bool) (z : Z) : float :=
  if (z =? 0)%Z then (if negative then PrimFloat.neg_zero else PrimFloat.zero)
  else of_int z.

Definition floor (x : float) : float :=
  match Prim2SF x with
  | S754_finite s m e =>
      if (0 <=? e)%Z then x
      else match to_Q x with
           | Some q => signed_int s (Qfloor q)
           | None => x
           end
  | _ => x
  end.

(** [Math.round]: the nearest integer, a tie going up. *)
Definition round (x : float) : float :=
  match Prim2SF x with
  | S754_finite s m e =>
      if (0 <=? e)%Z then x
      else match to_Q x with
           | Some q => signed_int s (Qfloor (q + (1 # 2)))
           | None => x
           end
  | _ => x
  end.

Definition integer_of (x : float) : option Z :=
  match to_Q x with
  | Some q => if Qeq_bool (inject_Z (Qfloor q)) q then Some (Qfloor q) else None
  | None => None
  end.

Definition to_int32 (x : float) : Z :=
  match to_Q x with
  | Some q => int32 (Z.quot (Qnum q) (Zpos (Qden q)))
  | None => 0
  end.

#[global] Instance binary64 : Number float := {|
  lit := literal;
  plus := PrimFloat.add;
  minus := PrimFloat.sub;
  times := PrimFloat.mul;
  divide := PrimFloat.div;
  less := PrimFloat.ltb;
  strict_eq := PrimFloat.eqb;
  Math_floor := floor;
  Math_round := round;
  Math_abs := PrimFloat.abs;
  to_integer := integer_of;
  ToInt32 := to_int32
|}.

End B64.

(** ** The same arithmetic without rounding *)
Module Exact.

(** A rational (kept in lowest terms), an infinity with its sign, or NaN.
    There is no negative zero. *)
Inductive xnum : Type :=
| XFin (q : Q)
| XInf (negative : bool)
| XNaN.

Definition fin (q : Q) : xnum := XFin (Qred q).

Definition Qneg (q : Q) : bool := negb (Qle_bool 0 q).
Definition Qzero (q : Q) : bool := Qeq_bool q 0.

Definition xopp (x : xnum) : xnum :=
  match x with
  | XFin q => fin (- q)
  | XInf s => XInf (negb s)
  | XNaN => XNaN
  end.

Definition xplus (x y : xnum) : xnum :=
  match x, y with
  | XFin a, XFin b => fin (a + b)
  | XFin _, XInf s => XInf s
  | XInf s, XFin _ => XInf s
  | XInf s, XInf t => if Bool.eqb s t then XInf s else XNaN
  | _, _ => XNaN
  end.

Definition xminus (x y : xnum) : xnum := xplus x (xopp y).

Definition xtimes (x y : xnum) : xnum :=
  match x, y with
  | XFin a, XFin b => fin (a * b)
  | XFin a, XInf s => if Qzero a then XNaN else XInf (xorb (Qneg a) s)
  | XInf s, XFin b => if Qzero b then XNaN else XInf (xorb s (Qneg b))
  | XInf s, XInf t => XInf (xorb s t)
  | _, _ => XNaN
  end.

Definition xdivide (x y : xnum) : xnum :=
  match x, y with
  | XFin a, XFin b =>
      if Qzero b then (if Qzero a then XNaN else XInf (Qneg a))
      else fin (a / b)
  | XFin _, XInf _ => fin 0
  | XInf s, XFin b => XInf (xorb s (Qneg b))
  | _, _ => XNaN
  end.

Definition xless (x y : xnum) : bool :=
  match x, y with
  | XFin a, XFin b => negb (Qle_bool b a)
  | XFin _, XInf t => negb t
  | XInf s, XFin _ => s
  | XInf s, XInf t => andb s (negb t)
  | _, _ => false
  end.

Definition xeq (x y : xnum) : bool :=
  match x, y with
  | XFin a, XFin b => Qeq_bool a b
  | XInf s, XInf t => Bool.eqb s t
  | _, _ => false
  end.

Definition xfloor (x : xnum) : xnum :=
  match x with
  | XFin q => fin (inject_Z (Qfloor q))
  | _ => x
  end.

Definition xround (x : xnum) : xnum :=
  match x with
  | XFin q => fin (inject_Z (Qfloor (q + (1 # 2))))
  | _ => x
  end.

Definition xabs (x : xnum) : xnum :=
  match x with
  | XFin q => fin (Qabs q)
  | XInf _ => XInf false
  | XNaN => XNaN
  end.

Definition xinteger (x : xnum) : option Z :=
  match x with
  | XFin q => if Qeq_bool (inject_Z (Qfloor q)) q then Some (Qfloor q) else None
  | _ => None
  end.

Definition xint32 (x : xnum) : Z :=
  match x with
  | XFin q => int32 (Z.quot (Qnum q) (Zpos (Qden q)))
  | _ => 0
  end.

(** The rational a finite exact number is. *)
Definition val (x : xnum) : Q :=
  match x with
  | XFin q => q
  | _ => 0
  end.

Definition Qsum (qs : list Q) : Q := fold_right Qplus 0%Q qs.

#[global] Instance exact : Number xnum := {|
  lit := fin;
  plus := xplus;
  minus := xminus;
  times := xtimes;
  divide := xdivide;
  less := xless;
  strict_eq := xeq;
  Math_floor := xfloor;
  Math_round := xround;
  Math_abs := xabs;
  to_integer := xinteger;
  ToInt32 := xint32
|}.

End Exact.

(* ================================================================== *)
(** * The data model ([src/domain/types.ts]) *)
(* ================================================================== *)

Inductive AssetClass : Type :=
| usEquities | intlEquities | emergingEquities
| longTermBonds | shortTermBonds | tips
| reits | commodities | gold | cash.

Definition AssetClass_eqb (a b : AssetClass) : bool :=
  match a, b with
  | usEquities, usEquities | intlEquities, intlEquities
  | emergingEquities, emergingEquities | longTermBonds, longTermBonds
  | shortTermBonds, shortTermBonds | tips, tips | reits, reits
  | commodities, commodities | gold, gold | cash, cash => true
  | _, _ => false
  end.

Inductive Regime : Type :=
| normal | stress_2022 | stagflation | deflation.

Definition Regime_eqb (a b : Regime) : bool :=
  match a, b with
  | normal, normal | stress_2022, stress_2022
  | stagflation, stagflation | deflation, deflation => true
  | _, _ => false
  end.

(** A JavaScript object whose keys are of [K], in insertion order: what
    [Object.keys], [Object.values] and [Object.entries] enumerate. *)
Definition Obj (K V : Type) : Type := list (K * V).

Section Objects.
Context {K V : Type} (K_eqb : K -> K -> bool).

(** [o[k]]. *)
Fixpoint get (o : Obj K V) (k : K) : option V :=
  match o with
  | [] => None
  | (k', v) :: o' => if K_eqb k k' then Some v else get o' k
  end.

(** [o[k] = v]: in place for a key that is there, at the end otherwise. *)
Fixpoint set (o : Obj K V) (k : K) (v : V) : Obj K V :=
  match o with
  | [] => [(k, v)]
  | (k', v') :: o' => if K_eqb k k' then (k', v) :: o' else (k', v') :: set o' k v
  end.

Definition keys (o : Obj K V) : list K := map fst o.
Definition values (o : Obj K V) : list V := map snd o.
End Objects.

Section Types.
Variable num : Type.

(** [Record<AssetClass, number>]. *)
Definition Allocations : Type := Obj AssetClass num.

Record Portfolio : Type := { allocations : Allocations }.

Record AssetAssumptions : Type := {
  expectedReturn : num;
  volatility : num;
  betaRate : num;
  betaInflation : num;
  betaGrowth : num;
  betaRiskOff : num
}.

(** The two fields of a regime that the engine reads. *)
Record RegimeConfig : Type := {
  probability : num;
  volMultiplier : num
}.

(** [data/assumptions.json], which is not part of the sources at hand: the
    asset table in the order of its keys, and the regime table. *)
Record Assumptions : Type := {
  assets : Obj AssetClass AssetAssumptions;
  regimes : Regime -> option RegimeConfig
}.

Record SimulationConfig : Type := {
  numScenarios : nat;
  horizonMonths : nat;
  seed : option num;
  regimesEnabled : list Regime
}.

Record MacroShock : Type := {
  rateChange : num;
  inflationShock : num;
  growthShock : num;
  riskOffShock : num;
  regime : Regime
}.

Record ScenarioResult : Type := {
  scenarioId : nat;
  macro : MacroShock;
  assetReturns : Obj AssetClass num;
  portfolioReturn : num;
  drawdown : num;
  path : list num
}.

Record Metrics : Type := {
  p5Return : num;
  p25Return : num;
  p50Return : num;
  p75Return : num;
  p95Return : num;
  meanReturn : num;
  stdDev : num;
  sharpeRatio : num;
  maxDrawdown : num;
  cvar95 : num;
  probLoss : num
}.

Record TailFlags : Type := {
  correlationBreakdown : bool;
  rateShockRisk : bool;
  inflationShockRisk : bool;
  concentrationRisk : bool;
  durationRisk : bool
}.

(** What [`sim_${Date.now()}_${Math.random().toString(36).slice(2, 8)}`]
    is built from. *)
Record RunId : Type := { stamp : num; salt : num }.

Record SimulationSummary : Type := {
  runId : RunId;
  portfolio : Portfolio;
  config : SimulationConfig;
  metrics : Metrics;
  tailFlags : TailFlags;
  worstScenarios : list ScenarioResult;
  bestScenarios : list ScenarioResult;
  medianScenario : option ScenarioResult;
  returnDistribution : list nat;
  correlationMatrix : Obj AssetClass (Obj AssetClass num)
}.

(** The functions of [Math] that ECMAScript leaves to the implementation,
    and [x.toFixed(digits)], the decimal rendering of a Number, which the
    embedding takes from the platform as well (it returns a string for
    every Number when [digits] is 0 or 1, the two values the sources
    pass). *)
Record Platform : Type := {
  Math_sqrt : num -> num;
  Math_log : num -> num;
  Math_cos : num -> num;
  toFixed : num -> nat -> string
}.

(** What one call reads from outside: the successive values of
    [Date.now()] and of [Math.random()]. *)
Record Ambient : Type := {
  Date_now : nat -> num;
  Math_random : nat -> num
}.

End Types.

Arguments Build_Portfolio {num}.
Arguments Build_RunId {num}.

(* ================================================================== *)
(** * The generator ([src/infra/rng.ts]) *)
(* ================================================================== *)

Record SeededRNG : Type := { state : Z }.

(** [Math.imul] and [>>>] on 32-bit integers. *)
Definition Math_imul (a b : Z) : Z := int32 (a * b).
Definition ushr (a : Z) (k : Z) : Z := Z.shiftr (uint32 a) k.

Section RNG.
Context {num : Type} {N : Number num} (P : Platform num).
Local Open Scope js_scope.
Local Open Scope monad_scope.

(** [new SeededRNG(seed)]. *)
Definition SeededRNG_new (seed : num) : SeededRNG := {| state := ToInt32 seed |}.

(** Mulberry32: a float in [0, 1). *)
Definition next : M SeededRNG num :=
  fun rng =>
    let state := int32 (state rng + 0x6d2b79f5) in
    let t := Math_imul (Z.lxor state (ushr state 15)) (Z.lor 1 state) in
    let t := int32 (Z.lxor (t + Math_imul (Z.lxor t (ushr t 7)) (Z.lor 61 t)) t) in
    Ok (of_Z (uint32 (Z.lxor t (ushr t 14))) / lit 4294967296, {| state := state |}).

Definition Math_PI : num := lit 3.141592653589793.

(** Box-Muller. *)
Definition nextGaussian : M SeededRNG num :=
  u1 <- next ;;
  u2 <- next ;;
  ret (Math_sqrt P (lit (-2) * Math_log P (or_else u1 (lit 1e-10)))
       * Math_cos P (lit 2 * Math_PI * u2)).

(** [nextGaussianVector(n)]: an array of [n] standard normal variates. *)
Definition nextGaussianVector (n : nat) : M SeededRNG (list num) :=
  forM (fun _ => nextGaussian) 0 n.

End RNG.

(** What one call of [next] does to the generator. *)
Definition advance (rng : SeededRNG) : SeededRNG :=
  {| state := int32 (state rng + 0x6d2b79f5) |}.

(* ================================================================== *)
(** * Statistics ([src/infra/stats.ts]) *)
(* ================================================================== *)

Section Stats.
Context {num : Type} {N : Number num} (P : Platform num).
Local Open Scope js_scope.

Definition percentile (sorted : list num) (p : num) : num :=
  let idx := (p / lit 100) * (of_nat (List.length sorted) - lit 1) in
  let lo := Math_floor idx in
  let hi := Math_ceil idx in
  if lo === hi then index_num sorted lo
  else index_num sorted lo
       + (index_num sorted hi - index_num sorted lo) * (idx - lo).

Definition mean (arr : list num) : num :=
  sum arr / of_nat (List.length arr).

(** [(v - m) ** 2] is taken as the product [(v - m) * (v - m)]. *)
Definition stddev (arr : list num) : num :=
  let m := mean arr in
  let variance :=
    fold_left (fun s v => s + (v - m) * (v - m)) arr (lit 0)
    / of_nat (List.length arr) in
  Math_sqrt P variance.

(** [m[i][j]] read as a Number in arithmetic, for [i] below [m.length]:
    [undefined] (a row shorter than [j + 1]) becomes NaN. *)
Definition entry (m : list (list num)) (i j : nat) : num :=
  match nth_error m i with
  | Some row => match nth_error row j with Some x => x | None => NaN end
  | None => NaN
  end.

(** [xs[i] = x] for an index of the array. *)
Fixpoint set_nth {X} (xs : list X) (i : nat) (x : X) : list X :=
  match xs, i with
  | [], _ => []
  | _ :: rest, O => x :: rest
  | y :: rest, S i' => y :: set_nth rest i' x
  end.

(** [m[i][j] = x] for indices of the matrix. *)
Definition set_entry (m : list (list num)) (i j : nat) (x : num) : list (list num) :=
  match nth_error m i with
  | Some row => set_nth m i (set_nth row j x)
  | None => m
  end.

(** Cholesky decomposition; every [L[i][j]] written or read lies in the
    [n] by [n] array that the function creates. *)
Definition cholesky (matrix : list (list num)) : list (list num) :=
  let n := List.length matrix in
  fold_left
    (fun L i =>
       fold_left
         (fun L j =>
            let sum :=
              fold_left (fun sum k => sum + entry L i k * entry L j k) (seq 0 j) (lit 0) in
            if (i =? j)%nat then
              let val := entry matrix i i - sum in
              set_entry L i j (Math_sqrt P (Math_max2 val (lit 1e-10)))
            else set_entry L i j ((entry matrix i j - sum) / entry L j j))
         (seq 0 (S i)) L)
    (seq 0 n) (repeat (repeat (lit 0) n) n).

(** Multiply the lower-triangular matrix [L] by the vector [z]. *)
Definition mvnSample (L : list (list num)) (z : list num) : list num :=
  map (fun i =>
         fold_left
           (fun acc j => acc + entry L i j * match nth_error z j with Some x => x | None => NaN end)
           (seq 0 (S i)) (lit 0))
      (seq 0 (List.length L)).

End Stats.

(* ================================================================== *)
(** * Scenario generation ([src/domain/scenarios.ts]) *)
(* ================================================================== *)

Section Scenarios.
Context {num : Type} {N : Number num} (P : Platform num).
Local Open Scope js_scope.
Local Open Scope monad_scope.

(** [regimeEntries]: reading [e.config.probability] throws when the table
    has no entry for an enabled regime. *)
Fixpoint regimeEntries (table : Regime -> option (RegimeConfig num))
    (enabled : list Regime) : option (list (Regime * RegimeConfig num)) :=
  match enabled with
  | [] => Some []
  | r :: rest =>
      match table r, regimeEntries table rest with
      | Some c, Some es => Some ((r, c) :: es)
      | _, _ => None
      end
  end.

(** The cumulative distribution [{regime, cumProb}[]]. *)
Fixpoint build_cdf (totalProb cum : num)
    (entries : list (Regime * RegimeConfig num)) : list (Regime * num) :=
  match entries with
  | [] => []
  | (r, c) :: rest =>
      let cum := cum + probability c / totalProb in
      (r, cum) :: build_cdf totalProb cum rest
  end.

(** The first entry with [u <= cumProb], the last regime when there is none. *)
Fixpoint sample_regime (u : num) (cdf : list (Regime * num)) (fallback : Regime) : Regime :=
  match cdf with
  | [] => fallback
  | (r, cumProb) :: rest => if u <=? cumProb then r else sample_regime u rest fallback
  end.

Definition one_scenario (table : Regime -> option (RegimeConfig num))
    (cdf : list (Regime * num)) : M SeededRNG (MacroShock num) :=
  u <- next ;;
  last_entry <- of_option TypeError (List.last (map Some cdf) None) ;;
  let regime := sample_regime u cdf (fst last_entry) in
  regimeConf <- of_option TypeError (table regime) ;;
  let volMult := volMultiplier regimeConf in
  g1 <- nextGaussian P ;;
  let rateChange := g1 * lit 100 * volMult in
  g2 <- nextGaussian P ;;
  let inflationShock := g2 * lit 2.0 * volMult in
  g3 <- nextGaussian P ;;
  let growthShock := g3 * lit 2.5 * volMult in
  g4 <- nextGaussian P ;;
  let riskOffShock := g4 * lit 1.0 * volMult in
  let '(adjInflation, adjRiskOff) :=
    match regime with
    | stress_2022 =>
        (inflationShock * lit 0.4 + (rateChange / lit 100) * lit 0.6,
         riskOffShock * lit 0.5 + Math_abs (rateChange / lit 100) * lit 0.5)
    | stagflation =>
        let adjInflation := Math_abs inflationShock * volMult in
        (adjInflation, riskOffShock * lit 0.3 + Math_abs adjInflation * lit 0.3)
    | deflation =>
        (neg (Math_abs inflationShock), Math_abs riskOffShock * volMult)
    | normal => (inflationShock, riskOffShock)
    end in
  jump <- next ;;
  mutatedRate <-
    (if jump <? lit 0.05
     then (s <- next ;;
           a <- next ;;
           ret (rateChange
                + (if s >? lit 0.5 then lit 1 else lit (-1))
                  * (lit 200 + a * lit 200)))
     else ret rateChange) ;;
  ret {| rateChange := mutatedRate;
         inflationShock := adjInflation;
         growthShock := growthShock;
         riskOffShock := adjRiskOff;
         regime := regime |}.

Definition generateScenarios (config : SimulationConfig num)
    (table : Regime -> option (RegimeConfig num)) : M SeededRNG (list (MacroShock num)) :=
  regimeEntries <- of_option TypeError (regimeEntries table (regimesEnabled config)) ;;
  let totalProb := fold_left (fun s e => s + probability (snd e)) regimeEntries (lit 0) in
  let cdf := build_cdf totalProb (lit 0) regimeEntries in
  forM (fun _ => one_scenario table cdf) 0 (numScenarios config).

End Scenarios.

(* ================================================================== *)
(** * The Monte Carlo engine ([src/domain/simulation.ts]) *)
(* ================================================================== *)

Section Simulation.
Context {num : Type} {N : Number num} (P : Platform num) (A : Assumptions num).
Local Open Scope js_scope.
Local Open Scope monad_scope.

Definition ASSETS : list AssetClass := keys (assets A).

Definition weight (p : Portfolio num) (a : AssetClass) : num :=
  nullish (get AssetClass_eqb (allocations p) a).

Section Scenario.
Variables (portfolio : Portfolio num) (monthlySteps : nat).

Definition dt : num := lit 1 / lit 12.

(** The factor model: one pass of the loop over [ASSETS]. *)
Definition asset_return (macro : MacroShock num)
    (assetReturns : Obj AssetClass num) (entry : AssetClass * AssetAssumptions num)
  : M SeededRNG (Obj AssetClass num) :=
  let '(asset, a) := entry in
  if weight portfolio asset === lit 0 then ret assetReturns
  else
    let factorReturn :=
      betaRate a * (rateChange macro / lit 100)
      + betaInflation a * (inflationShock macro / lit 10)
      + betaGrowth a * (growthShock macro / lit 10)
      + betaRiskOff a * riskOffShock macro in
    let idioVol := volatility a * lit 0.5 in
    g <- nextGaussian P ;;
    let idioNoise := g * idioVol * Math_sqrt P (of_nat monthlySteps * dt) in
    let totalReturn :=
      expectedReturn a * (of_nat monthlySteps * dt) + factorReturn + idioNoise in
    ret (set AssetClass_eqb assetReturns asset totalReturn).

(** The monthly wealth path; the list holds the path backwards. *)
Fixpoint wealth_path (monthlyReturn : num) (months : nat) (rev_path : list num)
  : M SeededRNG (list num) :=
  match months with
  | O => ret (rev rev_path)
  | S months' =>
      g <- nextGaussian P ;;
      let noise := g * lit 0.01 in
      let prev := match rev_path with v :: _ => v | [] => NaN end in
      wealth_path monthlyReturn months' (prev * (lit 1 + monthlyReturn + noise) :: rev_path)
  end.

(** [(peak, maxDD)] after one more value of the path. *)
Definition drawdown_step (acc : num * num) (val : num) : num * num :=
  let '(peak, maxDD) := acc in
  let peak := if val >? peak then val else peak in
  let dd := (peak - val) / peak in
  (peak, if dd >? maxDD then dd else maxDD).

Definition scenario_result (i : nat) (macro : MacroShock num)
  : M SeededRNG (ScenarioResult num) :=
  assetReturns <- foldM (asset_return macro) (assets A) [] ;;
  let monthlyReturn :=
    fold_left
      (fun sum e => sum + snd e * nullish (get AssetClass_eqb assetReturns (fst e)))
      (allocations portfolio) (lit 0)
    / of_nat monthlySteps in
  path <- wealth_path monthlyReturn monthlySteps [lit 1.0] ;;
  let first := index_num path (lit 0) in
  let maxDD := snd (fold_left drawdown_step path (first, lit 0)) in
  let portfolioReturn := List.last path NaN / first - lit 1 in
  ret {| scenarioId := i;
         macro := macro;
         assetReturns := assetReturns;
         portfolioReturn := portfolioReturn;
         drawdown := maxDD;
         path := path |}.

(** The loop over the scenarios, [i] counting from [from]. *)
Fixpoint scenario_results (from : nat) (scenarios : list (MacroShock num))
  : M SeededRNG (list (ScenarioResult num)) :=
  match scenarios with
  | [] => ret []
  | macro :: rest =>
      r <- scenario_result from macro ;;
      rs <- scenario_results (S from) rest ;;
      ret (r :: rs)
  end.
End Scenario.

(** ** The analytics over the batch *)

Definition by_return (a b : ScenarioResult num) : num :=
  portfolioReturn a - portfolioReturn b.

Definition compute_metrics (config : SimulationConfig num)
    (results : list (ScenarioResult num)) : Metrics num :=
  let returns := sort (fun a b => a - b) (map (@portfolioReturn num) results) in
  let cutoff := Math_floor (of_nat (List.length returns) * lit 0.05) in
  let tailReturns :=
    slice returns 0 (match to_integer cutoff with Some z => z | None => 0%Z end) in
  let cvar95 := mean tailReturns in
  let riskFreeRate := lit 0.04 * (of_nat (horizonMonths config) / lit 12) in
  let avgReturn := mean returns in
  let vol := stddev P returns in
  let sharpe := if vol >? lit 0 then (avgReturn - riskFreeRate) / vol else lit 0 in
  {| p5Return := percentile returns (lit 5);
     p25Return := percentile returns (lit 25);
     p50Return := percentile returns (lit 50);
     p75Return := percentile returns (lit 75);
     p95Return := percentile returns (lit 95);
     meanReturn := avgReturn;
     stdDev := vol;
     sharpeRatio := sharpe;
     maxDrawdown := Math_max (map (@drawdown num) results);
     cvar95 := cvar95;
     probLoss :=
       of_nat (List.length (filter (fun r => r <? lit 0) returns))
       / of_nat (List.length returns) |}.

(** The realized correlation matrix over the active assets. *)
Definition correlation (results : list (ScenarioResult num)) (a1 a2 : AssetClass) : num :=
  let series a := map (fun r => nullish (get AssetClass_eqb (assetReturns r) a)) results in
  let r1 := series a1 in
  let m1 := mean r1 in
  let s1 := stddev P r1 in
  let r2 := series a2 in
  let m2 := mean r2 in
  let s2 := stddev P r2 in
  if andb (s1 >? lit 0) (s2 >? lit 0) then
    let cov :=
      fold_left (fun sum vw => sum + (fst vw - m1) * (snd vw - m2))
        (combine r1 r2) (lit 0)
      / of_nat (List.length r1) in
    cov / (s1 * s2)
  else if AssetClass_eqb a1 a2 then lit 1 else lit 0.

Definition correlation_matrix (portfolio : Portfolio num)
    (results : list (ScenarioResult num)) : Obj AssetClass (Obj AssetClass num) :=
  let activeAssets := filter (fun a => weight portfolio a >? lit 0) ASSETS in
  fold_left
    (fun corrMatrix a1 =>
       set AssetClass_eqb corrMatrix a1
         (fold_left
            (fun row a2 => set AssetClass_eqb row a2 (correlation results a1 a2))
            activeAssets []))
    activeAssets [].

Definition tail_flags (portfolio : Portfolio num)
    (corrMatrix : Obj AssetClass (Obj AssetClass num)) : TailFlags :=
  let hasEquities :=
    orb (weight portfolio usEquities >? lit 0) (weight portfolio intlEquities >? lit 0) in
  let hasBonds := weight portfolio longTermBonds >? lit 0 in
  let equityKey :=
    if weight portfolio usEquities >? lit 0 then usEquities else intlEquities in
  let bondKey := longTermBonds in
  let stockBondCorr :=
    if andb hasEquities hasBonds then
      match get AssetClass_eqb corrMatrix equityKey with
      | Some row => nullish (get AssetClass_eqb row bondKey)
      | None => lit 0
      end
    else lit 0 in
  let maxAlloc := Math_max (values (allocations portfolio)) in
  let hasLongDuration := weight portfolio longTermBonds >? lit 0.15 in
  {| correlationBreakdown := stockBondCorr >? lit 0.2;
     rateShockRisk := hasLongDuration;
     inflationShockRisk :=
       andb (weight portfolio longTermBonds >? lit 0.2)
            (weight portfolio tips <? lit 0.1);
     concentrationRisk := maxAlloc >? lit 0.4;
     durationRisk := hasLongDuration |}.

(** [histogram[bucket]++]; a [bucket] that is no index leaves the twenty
    counters as they are. *)
Fixpoint increment (histogram : list nat) (bucket : nat) : list nat :=
  match histogram, bucket with
  | [], _ => []
  | c :: rest, O => S c :: rest
  | c :: rest, S b => c :: increment rest b
  end.

Definition histogram_of (returns : list num) : list nat :=
  let minR := index_num returns (lit 0) in
  let maxR := List.last returns NaN in
  let bucketSize := or_else ((maxR - minR) / lit 20) (lit 0.01) in
  fold_left
    (fun histogram r =>
       let bucket := Math_min2 (lit 19) (Math_floor ((r - minR) / bucketSize)) in
       match to_integer bucket with
       | Some z => if (z <? 0)%Z then histogram else increment histogram (Z.to_nat z)
       | None => histogram
       end)
    returns (repeat O 20).

Definition runMonteCarlo (amb : Ambient num) (portfolio : Portfolio num)
    (config : SimulationConfig num) (seed : option num)
  : Result (SimulationSummary num) :=
  let rng := SeededRNG_new (match seed with Some s => s | None => Date_now amb 0 end) in
  let clock_reads := match seed with Some _ => O | None => 1%nat end in
  match
    (scenarios <- generateScenarios P config (regimes A) ;;
     scenario_results portfolio (horizonMonths config) 0 scenarios) rng
  with
  | Throw e => Throw e
  | Ok (results, _) =>
      let returns := sort (fun a b => a - b) (map (@portfolioReturn num) results) in
      let corrMatrix := correlation_matrix portfolio results in
      let sorted := sort by_return results in
      Ok {| runId := {| stamp := Date_now amb clock_reads; salt := Math_random amb 0 |};
            portfolio := portfolio;
            config := config;
            metrics := compute_metrics config results;
            tailFlags := tail_flags portfolio corrMatrix;
            worstScenarios := slice sorted 0 3;
            bestScenarios := rev (slice_from sorted (-3));
            medianScenario :=
              at_index sorted (Math_floor (of_nat (List.length sorted) / lit 2));
            returnDistribution := histogram_of returns;
            correlationMatrix := corrMatrix |}
  end.

End Simulation.

(* ================================================================== *)
(** * The evolution engine ([src/domain/evolution.ts]) *)
(* ================================================================== *)

Definition ALL_ASSETS : list AssetClass :=
  [ usEquities; intlEquities; emergingEquities;
    longTermBonds; shortTermBonds; tips;
    reits; commodities; gold; cash ].

Section EvolutionTypes.
Variable num : Type.

Record FitnessWeights : Type := {
  w_sharpe : num;
  w_cvar : num;
  w_maxDrawdown : num;
  w_returnMean : num
}.

Record EvolutionConfig : Type := {
  populationSize : nat;
  generations : nat;
  mutationRate : num;
  crossoverRate : num;
  eliteCount : nat;
  fitnessWeights : FitnessWeights;
  adversarialPressure : num;
  simConfig : SimulationConfig num;
  evo_seed : option num
}.

Record EvolvedPortfolio : Type := {
  ep_portfolio : Portfolio num;
  fitness : num;
  summary : SimulationSummary num;
  generation : nat;
  parentage : string
}.

Record GenerationSnapshot : Type := {
  gs_generation : nat;
  best : EvolvedPortfolio;
  worst : EvolvedPortfolio;
  median : EvolvedPortfolio;
  avgFitness : num;
  diversity : num;
  population : list EvolvedPortfolio
}.

Record AdversarialFinding : Type := {
  description : string;
  vulnerability : string;
  af_regime : Regime;
  worstReturn : num;
  affectedAssets : list AssetClass
}.

Record EvolutionResult : Type := {
  er_generations : list GenerationSnapshot;
  champion : EvolvedPortfolio;
  hallOfFame : list EvolvedPortfolio;
  adversarialFindings : list AdversarialFinding
}.

End EvolutionTypes.

Section Evolution.
Context {num : Type} {N : Number num} (P : Platform num) (A : Assumptions num).
Local Open Scope js_scope.
Local Open Scope monad_scope.

Abbreviation lookup := (get AssetClass_eqb).
Abbreviation assign := (set AssetClass_eqb).

(** [for (const k of ALL_ASSETS) result[k] = f(result[k])]. *)
Definition for_all_assets (f : option num -> num) (result : Allocations num)
  : Allocations num :=
  fold_left (fun result k => assign result k (f (lookup result k))) ALL_ASSETS result.

Definition div_by (total : num) (v : option num) : num := nullish v / total.

(** [normalize] up to and including "Round to nearest 0.5%": the record
    before the final normalization. *)
Definition snapped (allocs : Allocations num) : Allocations num :=
  let result := allocs in
  let result := for_all_assets (fun v => Math_max2 (lit 0) (nullish v)) result in
  let total := sum (values result) in
  let result :=
    if total === lit 0
    then for_all_assets (fun _ => lit 1 / of_nat (List.length ALL_ASSETS)) result
    else for_all_assets (div_by total) result in
  let result :=
    for_all_assets (fun v => if nullish v <? lit 0.02 then lit 0 else nullish v) result in
  let total2 := sum (values result) in
  let result := for_all_assets (div_by total2) result in
  for_all_assets (fun v => Math_round (nullish v * lit 200) / lit 200) result.

(** Normalize allocations to sum to 1, clamp negatives. *)
Definition normalize (allocs : Allocations num) : Allocations num :=
  let result := snapped allocs in
  let total3 := sum (values result) in
  if total3 >? lit 0 then for_all_assets (div_by total3) result else result.

Definition computeFitness (summary : SimulationSummary num)
    (weights : FitnessWeights num) : num :=
  w_sharpe weights * sharpeRatio (metrics summary)
  + w_cvar weights * Math_abs (cvar95 (metrics summary)) * lit (-1)
  + w_maxDrawdown weights * maxDrawdown (metrics summary) * lit (-1)
  + w_returnMean weights * meanReturn (metrics summary).

(** [arr[Math.floor(rng.next() * arr.length)]]; the draw is below 1, so the
    index is one of the array unless the array is empty. *)
Definition pick {X} (arr : list X) : M SeededRNG (option X) :=
  u <- next ;;
  ret (at_index arr (Math_floor (u * of_nat (List.length arr)))).

Definition pick_asset (arr : list AssetClass) : M SeededRNG AssetClass :=
  o <- pick arr ;;
  of_option OutOfModel o.

(** Mutate a portfolio allocation.  In the swap, a key that is missing
    reads as [undefined]; what is stored for it is read back only through
    [?? 0], so [0] is stored here. *)
Definition mutate (allocs : Allocations num) (rate : num)
  : M SeededRNG (Allocations num) :=
  let result := allocs in
  mutationType <- next ;;
  result <-
    (if mutationType <? lit 0.3 then
       from <- pick_asset ALL_ASSETS ;;
       to <- pick_asset ALL_ASSETS ;;
       u <- next ;;
       let amount := u * rate * lit 0.3 in
       let result := assign result from (Math_max2 (lit 0) (nullish (lookup result from) - amount)) in
       ret (assign result to (nullish (lookup result to) + amount))
     else if mutationType <? lit 0.55 then
       foldM (fun result k =>
                g <- nextGaussian P ;;
                ret (assign result k (nullish (lookup result k) + g * rate * lit 0.1)))
             ALL_ASSETS result
     else if mutationType <? lit 0.7 then
       a <- pick_asset ALL_ASSETS ;;
       b <- pick_asset ALL_ASSETS ;;
       let tmp := nullish (lookup result a) in
       let result := assign result a (nullish (lookup result b)) in
       ret (assign result b tmp)
     else if mutationType <? lit 0.85 then
       kill <- pick_asset ALL_ASSETS ;;
       let amount := nullish (lookup result kill) in
       let result := assign result kill (lit 0) in
       let remaining :=
         filter (fun a => andb (negb (AssetClass_eqb a kill))
                               (nullish (lookup result a) >? lit 0)) ALL_ASSETS in
       match remaining with
       | [] => ret result
       | _ =>
           target <- pick_asset remaining ;;
           ret (assign result target (nullish (lookup result target) + amount))
       end
     else
       let hedges := [tips; commodities; gold; shortTermBonds] in
       let risky := [usEquities; intlEquities; emergingEquities; longTermBonds] in
       hedge <- pick_asset hedges ;;
       risk <- pick_asset risky ;;
       u <- next ;;
       let shift := u * rate * lit 0.2 in
       let result := assign result risk (Math_max2 (lit 0) (nullish (lookup result risk) - shift)) in
       ret (assign result hedge (nullish (lookup result hedge) + shift))) ;;
  ret (normalize result).

(** Crossover: blend two portfolios. *)
Definition crossover (a b : Allocations num) : M SeededRNG (Allocations num) :=
  crossType <- next ;;
  result <-
    (if crossType <? lit 0.5 then
       foldM (fun result k =>
                u <- next ;;
                ret (assign result k
                       (if u <? lit 0.5 then nullish (lookup a k) else nullish (lookup b k))))
             ALL_ASSETS []
     else
       u <- next ;;
       let alpha := lit 0.2 + u * lit 0.6 in
       ret (fold_left
              (fun result k =>
                 assign result k
                   (alpha * nullish (lookup a k) + (lit 1 - alpha) * nullish (lookup b k)))
              ALL_ASSETS [])) ;;
  ret (normalize result).

(** Generate a completely random portfolio. *)
Definition randomPortfolio : M SeededRNG (Allocations num) :=
  result <- foldM (fun result k => u <- next ;; ret (assign result k u)) ALL_ASSETS [] ;;
  ret (normalize result).

(** The Euclidean distance of two allocation vectors, as both
    [measureDiversity] and the hall of fame compute it. *)
Definition distance (a b : Portfolio num) : num :=
  Math_sqrt P
    (fold_left
       (fun dist k =>
          let diff := weight a k - weight b k in
          dist + diff * diff)
       ALL_ASSETS (lit 0)).

(** Measure population diversity (avg pairwise distance). *)
Fixpoint pairwise_distances (pop : list (EvolvedPortfolio num)) (acc : num * nat)
  : num * nat :=
  match pop with
  | [] => acc
  | p :: rest =>
      pairwise_distances rest
        (fold_left
           (fun acc q => (fst acc + distance (ep_portfolio p) (ep_portfolio q), S (snd acc)))
           rest acc)
  end.

Definition measureDiversity (pop : list (EvolvedPortfolio num)) : num :=
  if (List.length pop <? 2)%nat then lit 0
  else
    let '(totalDist, pairs) := pairwise_distances (firstn 20 pop) (lit 0, O) in
    if of_nat pairs >? lit 0 then totalDist / of_nat pairs else lit 0.

(** The name of a regime, as a template literal prints it. *)
Definition Regime_name (r : Regime) : string :=
  match r with
  | normal => "normal"
  | stress_2022 => "stress_2022"
  | stagflation => "stagflation"
  | deflation => "deflation"
  end.

(** [`${Math.sign(x)}`]: the sign of [x] as a template literal prints it;
    both zeros print as [0]. *)
Definition sign_text (x : num) : string :=
  if isNaN x then "NaN"
  else if x >? lit 0 then "1"
  else if x <? lit 0 then "-1"
  else "0".

(** The key under which [detectAdversarial] remembers a scenario. *)
Definition finding_key (worst : ScenarioResult num) : string :=
  Regime_name (regime (macro worst)) ++ "-"
  ++ sign_text (rateChange (macro worst)) ++ "-"
  ++ sign_text (inflationShock (macro worst)).

Definition vulnerability_of (m : MacroShock num) : string :=
  match regime m with
  | stress_2022 =>
      "Correlation breakdown: traditional diversification fails as stocks and bonds crash together"
  | stagflation =>
      "Stagflation trap: inflation erodes bonds while weak growth crushes equities"
  | deflation =>
      "Deflationary spiral: growth collapse with flight-to-quality crushing risk assets"
  | normal =>
      "Extreme "
      ++ (if rateChange m >? lit 100 then "rate hike"
          else if rateChange m <? lit (-100) then "rate cut"
          else "volatility")
      ++ " scenario"
  end.

(** The finding that a scenario with a return below -15% gives. *)
Definition finding_of (worst : ScenarioResult num) : AdversarialFinding num :=
  let assetLosses :=
    slice
      (sort (fun a b : AssetClass * num => snd a - snd b)
         (filter (fun e : AssetClass * num => snd e <? lit (-0.1)) (assetReturns worst)))
      0 3 in
  let m := macro worst in
  {| description :=
       Regime_name (regime m) ++ " regime: rates "
       ++ (if rateChange m >? lit 0 then "+" else EmptyString)
       ++ toFixed P (rateChange m) 0 ++ "bps, inflation "
       ++ (if inflationShock m >? lit 0 then "+" else EmptyString)
       ++ toFixed P (inflationShock m) 1 ++ "%";
     vulnerability := vulnerability_of m;
     af_regime := regime m;
     worstReturn := portfolioReturn worst;
     affectedAssets := map fst assetLosses |}.

(** Detect adversarial findings from worst scenarios.  The loop carries the
    findings and the set of the keys seen. *)
Definition detectAdversarial (pop : list (EvolvedPortfolio num))
  : list (AdversarialFinding num) :=
  let findings :=
    fst (fold_left
           (fun acc ind =>
              fold_left
                (fun (acc : list (AdversarialFinding num) * list string) worst =>
                   let (findings, seen) := acc in
                   let key := finding_key worst in
                   if existsb (String.eqb key) seen then (findings, seen)
                   else
                     let seen := key :: seen in
                     if portfolioReturn worst <? lit (-0.15)
                     then (findings ++ [finding_of worst], seen)
                     else (findings, seen))
                (worstScenarios (summary ind)) acc)
           pop ([], [])) in
  slice (sort (fun a b => worstReturn a - worstReturn b) findings) 0 5.

(** Tournament selection: pick k = 3 random, return the fittest.  Reading
    [contender.fitness] throws when the population is empty. *)
Definition tournamentSelect (pop : list (EvolvedPortfolio num))
  : M SeededRNG (EvolvedPortfolio num) :=
  first <- pick pop ;;
  best <- foldM (fun best _ =>
                   contender <- pick pop ;;
                   match contender, best with
                   | Some c, Some b => ret (Some (if fitness c >? fitness b then c else b))
                   | _, _ => throw TypeError
                   end)
                [1%nat; 2%nat] first ;;
  of_option TypeError best.

End Evolution.

Section EvolvePortfolio.
Context {num : Type} {N : Number num} (P : Platform num) (A : Assumptions num).
Local Open Scope js_scope.
Local Open Scope monad_scope.

(** The state of a run: the one generator, and how many simulations have
    been called (the [k]-th reads the clock through [ambient k]). *)
Record EvoState : Type := { evo_rng : SeededRNG; sim_calls : nat }.

Variable ambient : nat -> Ambient num.

Definition with_rng {X} (m : M SeededRNG X) : M EvoState X :=
  fun st =>
    match m (evo_rng st) with
    | Ok (x, rng) => Ok (x, {| evo_rng := rng; sim_calls := sim_calls st |})
    | Throw e => Throw e
    end.

Definition simulate (portfolio : Portfolio num) (config : SimulationConfig num)
    (seed : num) : M EvoState (SimulationSummary num) :=
  fun st =>
    match runMonteCarlo P A (ambient (sim_calls st)) portfolio config (Some seed) with
    | Ok s => Ok (s, {| evo_rng := evo_rng st; sim_calls := S (sim_calls st) |})
    | Throw e => Throw e
    end.

Section Run.
Variables (seedPortfolio : Portfolio num) (config : EvolutionConfig num).

(** [normalize], [runMonteCarlo] on [rng.next() * 1e9 | 0], [computeFitness]. *)
Definition evaluate (adversarialSimConfig : SimulationConfig num)
    (allocs : Allocations num) (gen : nat) (parentage : string)
  : M EvoState (EvolvedPortfolio num) :=
  let portfolio := {| allocations := normalize allocs |} in
  u <- with_rng next ;;
  summary <- simulate portfolio adversarialSimConfig (of_Z (ToInt32 (u * lit 1e9))) ;;
  let fitness := computeFitness summary (fitnessWeights config) in
  ret {| ep_portfolio := portfolio;
         fitness := fitness;
         summary := summary;
         generation := gen;
         parentage := parentage |}.

Definition initial_simConfig : SimulationConfig num :=
  {| numScenarios := numScenarios (simConfig config);
     horizonMonths := horizonMonths (simConfig config);
     seed := seed (simConfig config);
     regimesEnabled :=
       if adversarialPressure config >? lit 0.5
       then [stress_2022; stagflation; deflation; normal]
       else regimesEnabled (simConfig config) |}.

(** One pass of the loop that generates the initial population. *)
Definition initial_candidate (adversarialSimConfig : SimulationConfig num) (i : nat)
  : M EvoState (EvolvedPortfolio num) :=
  let half := of_nat (populationSize config) * lit 0.5 in
  allocs <-
    (if (i =? 0)%nat then ret (allocations seedPortfolio)
     else if of_nat i <? half then
       with_rng (mutate P (allocations seedPortfolio)
                   (mutationRate config * (lit 1 + of_nat i * lit 0.1)))
     else with_rng randomPortfolio) ;;
  evaluate adversarialSimConfig allocs 0
    (if (i =? 0)%nat then "seed"%string else if of_nat i <? half then "mutation"%string else "random"%string).

Definition initial_population (adversarialSimConfig : SimulationConfig num)
  : M EvoState (list (EvolvedPortfolio num)) :=
  forM (initial_candidate adversarialSimConfig) 0 (populationSize config).

Definition by_fitness_desc (a b : EvolvedPortfolio num) : num := fitness b - fitness a.

(** The snapshot of a sorted population; [population[0]] is [undefined]
    when the population is empty. *)
Definition snapshot (gen : nat) (population : list (EvolvedPortfolio num))
  : option (GenerationSnapshot num) :=
  match
    at_index population (lit 0),
    List.last (map Some population) None,
    at_index population (Math_floor (of_nat (List.length population) / lit 2))
  with
  | Some best, Some worst, Some median =>
      Some {| gs_generation := gen;
              best := best;
              worst := worst;
              median := median;
              avgFitness :=
                fold_left (fun s p => s + fitness p) population (lit 0)
                / of_nat (List.length population);
              diversity := measureDiversity P population;
              population := population |}
  | _, _, _ => None
  end.

Definition with_generation (gen : nat) (parentage : string) (p : EvolvedPortfolio num)
  : EvolvedPortfolio num :=
  {| ep_portfolio := ep_portfolio p;
     fitness := fitness p;
     summary := summary p;
     generation := gen;
     parentage := parentage |}.

(** Track hall of fame (unique top performers). *)
Definition isDuplicate (hallOfFame : list (EvolvedPortfolio num))
    (top : EvolvedPortfolio num) : bool :=
  existsb (fun h => distance P (ep_portfolio h) (ep_portfolio top) <? lit 0.05) hallOfFame.

Definition track_hallOfFame (hallOfFame : list (EvolvedPortfolio num))
    (top : EvolvedPortfolio num) (gen : nat) : list (EvolvedPortfolio num) :=
  if match hallOfFame with
     | [] => true
     | h0 :: _ => fitness top >? fitness h0 * lit 0.95
     end
  then
    if negb (isDuplicate hallOfFame top) then
      let hallOfFame := hallOfFame ++ [with_generation gen (parentage top) top] in
      let hallOfFame := sort by_fitness_desc hallOfFame in
      if (5 <? List.length hallOfFame)%nat then removelast hallOfFame else hallOfFame
    else hallOfFame
  else hallOfFame.

(** One offspring of the loop that fills the next generation. *)
Definition offspring (adversarialSimConfig : SimulationConfig num) (gen : nat)
    (population : list (EvolvedPortfolio num)) : M EvoState (EvolvedPortfolio num) :=
  roll <- with_rng next ;;
  if andb (roll <? crossoverRate config) (2 <=? List.length population)%nat then
    parentA <- with_rng (tournamentSelect population) ;;
    parentB <- with_rng (tournamentSelect population) ;;
    childAllocs <- with_rng (crossover (allocations (ep_portfolio parentA))
                                       (allocations (ep_portfolio parentB))) ;;
    u <- with_rng next ;;
    childAllocs <-
      (if u <? mutationRate config
       then with_rng (mutate P childAllocs (mutationRate config))
       else ret childAllocs) ;;
    evaluate adversarialSimConfig childAllocs (S gen) "crossover"%string
  else if roll <? crossoverRate config + mutationRate config then
    parent <- with_rng (tournamentSelect population) ;;
    childAllocs <- with_rng (mutate P (allocations (ep_portfolio parent))
                                      (mutationRate config)) ;;
    evaluate adversarialSimConfig childAllocs (S gen) "mutation"%string
  else
    allocs <- with_rng randomPortfolio ;;
    evaluate adversarialSimConfig allocs (S gen) "immigrant"%string.

(** [while (nextGen.length < config.populationSize)]: each pass adds one. *)
Fixpoint fill (adversarialSimConfig : SimulationConfig num) (gen : nat)
    (population : list (EvolvedPortfolio num)) (missing : nat)
  : M EvoState (list (EvolvedPortfolio num)) :=
  match missing with
  | O => ret []
  | S missing' =>
      child <- offspring adversarialSimConfig gen population ;;
      rest <- fill adversarialSimConfig gen population missing' ;;
      ret (child :: rest)
  end.

(** Adaptive adversarial pressure. *)
Definition adapt (adversarialSimConfig : SimulationConfig num) (gen : nat)
  : SimulationConfig num :=
  if adversarialPressure config >? lit 0 then
    let pressure :=
      adversarialPressure config
      * (lit 1 + of_nat gen / of_nat (generations config)) in
    if andb (pressure >? lit 0.7)
            (negb (existsb (Regime_eqb stress_2022) (regimesEnabled adversarialSimConfig)))
    then {| numScenarios := numScenarios adversarialSimConfig;
            horizonMonths := horizonMonths adversarialSimConfig;
            seed := seed adversarialSimConfig;
            regimesEnabled := regimesEnabled adversarialSimConfig ++ [stress_2022] |}
    else adversarialSimConfig
  else adversarialSimConfig.

(** What the loop over the generations carries. *)
Record Loop : Type := {
  l_population : list (EvolvedPortfolio num);
  l_hallOfFame : list (EvolvedPortfolio num);
  l_generations : list (GenerationSnapshot num);
  l_simConfig : SimulationConfig num
}.

(** The body of [for (let gen = 0; gen < config.generations; gen++)]. *)
Definition generation_step (l : Loop) (gen : nat) : M EvoState Loop :=
  let population := sort by_fitness_desc (l_population l) in
  snap <- of_option OutOfModel (snapshot gen population) ;;
  let hallOfFame := track_hallOfFame (l_hallOfFame l) (best snap) gen in
  let elite := map (with_generation (S gen) "elite"%string) (firstn (eliteCount config) population) in
  rest <- fill (l_simConfig l) gen population (populationSize config - List.length elite) ;;
  ret {| l_population := elite ++ rest;
         l_hallOfFame := hallOfFame;
         l_generations := l_generations l ++ [snap];
         l_simConfig := adapt (l_simConfig l) gen |}.

Definition evolve_loop (upto : nat) : M EvoState Loop :=
  population <- initial_population initial_simConfig ;;
  foldM generation_step (seq 0 upto)
    {| l_population := population;
       l_hallOfFame := [];
       l_generations := [];
       l_simConfig := initial_simConfig |}.

(** Run the full evolutionary optimization; [now] is what [Date.now()]
    returns when the configuration carries no seed. *)
Definition evolvePortfolio (now : num) : Result (EvolutionResult num) :=
  let rng := SeededRNG_new (match evo_seed config with Some s => s | None => now end) in
  match
    (l <- evolve_loop (generations config) ;;
     let population := sort by_fitness_desc (l_population l) in
     snap <- of_option OutOfModel (snapshot (generations config) population) ;;
     ret {| er_generations := l_generations l ++ [snap];
            champion := best snap;
            hallOfFame :=
              match l_hallOfFame l with
              | [] => [best snap]
              | _ => l_hallOfFame l
              end;
            adversarialFindings := detectAdversarial P population |})
      {| evo_rng := rng; sim_calls := 0 |}
  with
  | Ok (r, _) => Ok r
  | Throw e => Throw e
  end.

End Run.
End EvolvePortfolio.

(* ================================================================== *)
(** * A sample platform and sample reference tables *)
(* ================================================================== *)

(** [Math.log] and [Math.cos] computed in fixed point (eighteen decimal
    places inside, twelve in the result), and the square root of a rational
    rounded down to twelve places (a root that has at most twelve places is
    exact).  They give the evaluations below a concrete platform; the
    statements that hold on every platform quantify over [Platform]. *)
Module FixedPoint.

(** A fixed-point number is the integer [x * unit]. *)
Definition unit : Z := 1000000000000000000.
Definition places : Z := 1000000000000.

Definition of_Q (q : Q) : Z := (Qnum q * unit) / Zpos (Qden q).
Definition mul (a b : Z) : Z := (a * b) / unit.
Definition div (a b : Z) : Z := (a * unit) / b.

(** The result, rounded to twelve places. *)
Definition to_Q (x : Z) : Q :=
  Qred (Qmake ((x * places + unit / 2) / unit) (Z.to_pos places)).

Definition sqrt (q : Q) : Q :=
  Qred (Qmake (Z.sqrt (Qfloor (q * inject_Z (places * places))%Q)) (Z.to_pos places)).

Definition ln2 : Z := 693147180559945309.
Definition pi : Z := 3141592653589793238.

(** [sum_{i < n} y^(2i+1) / (2i+1)], the series of [atanh y]. *)
Fixpoint atanh_series (n : nat) (y2 power : Z) (k : Z) : Z :=
  match n with
  | O => 0
  | S n' => power / k + atanh_series n' y2 (mul power y2) (k + 2)
  end.

(** For [q > 0]: [q = m * 2^e] with [m] between 1/2 and 2, and
    [ln q = e * ln 2 + 2 * atanh ((m - 1) / (m + 1))]. *)
Definition log (q : Q) : Q :=
  let e := Z.log2 (Qnum q) - Z.log2 (Zpos (Qden q)) in
  let m := of_Q (q / Qpower 2 e)%Q in
  let y := div (m - unit) (m + unit) in
  to_Q (e * ln2 + 2 * atanh_series 20 (mul y y) y 1).

(** [sum_{i < n} (-1)^i x^(2i) / (2i)!]. *)
Fixpoint cos_series (n : nat) (x2 term : Z) (k : Z) : Z :=
  match n with
  | O => 0
  | S n' => term + cos_series n' x2 (- mul term x2 / ((k + 1) * (k + 2))) (k + 2)
  end.

Definition cos (q : Q) : Q :=
  let x := of_Q q in
  let turns := (x + pi) / (2 * pi) in
  let x := x - turns * (2 * pi) in
  to_Q (cos_series 20 (mul x x) unit 0).

(** The decimal digits of a natural number. *)
Definition digits (n : Z) : string := NilZero.string_of_uint (N.to_uint (Z.to_N n)).

Fixpoint zeros (n : nat) : string :=
  match n with
  | O => EmptyString
  | S n' => ("0" ++ zeros n')%string
  end.

(** [x.toFixed(f)] of a rational [x]: the nearest multiple of [10^-f], a
    tie going away from zero, with [f] digits after the point.  (From 1e21
    on, where [toFixed] turns to the exponent notation, this sample keeps
    printing the digits.) *)
Definition fixed (q : Q) (f : nat) : string :=
  let n := Qfloor (Qabs q * inject_Z (10 ^ Z.of_nat f) + (1 # 2))%Q in
  let m := digits n in
  let m :=
    if (f =? 0)%nat then m
    else
      let m := (zeros (S f - String.length m) ++ m)%string in
      let k := String.length m in
      (substring 0 (k - f) m ++ "." ++ substring (k - f) f m)%string in
  if Qle_bool 0 q then m else ("-" ++ m)%string.

End FixedPoint.

Module Sample.

(** The platform on doubles: IEEE square root; logarithm and cosine by
    their series, in double precision. *)
Section Doubles.
Local Open Scope float_scope.

Definition ln2 : float := B64.literal 0.6931471805599453.
Definition two_pi : float := B64.literal 6.283185307179586.

(** [sum_{i < n} y^(2i+1) / (2i+1)]. *)
Fixpoint atanh_series (n : nat) (y2 power k : float) : float :=
  match n with
  | O => 0
  | S n' => power / k + atanh_series n' y2 (power * y2) (k + 2)
  end.

(** [x = m * 2^e] with [m] around 1, and
    [ln x = e * ln 2 + 2 * atanh ((m - 1) / (m + 1))]. *)
Definition log64 (x : float) : float :=
  if negb (x =? x) then nan
  else if x <? 0 then nan
  else if x =? 0 then neg_infinity
  else if x =? infinity then infinity
  else
    let (m, e) := Z.frexp x in
    let (m, e) := if m <? B64.literal 0.7071 then (m * 2, (e - 1)%Z) else (m, e) in
    let y := (m - 1) / (m + 1) in
    B64.of_int e * ln2 + 2 * atanh_series 12 (y * y) y 1.

(** [sum_{i < n} (-1)^i x^(2i) / (2i)!]. *)
Fixpoint cos_series (n : nat) (x2 term k : float) : float :=
  match n with
  | O => 0
  | S n' => term + cos_series n' x2 (- (term * x2) / ((k + 1) * (k + 2))) (k + 2)
  end.

Definition cos64 (x : float) : float :=
  if negb (x - x =? 0) then nan
  else
    let turns := B64.floor (x / two_pi + B64.literal 0.5) in
    let r := x - turns * two_pi in
    cos_series 14 (r * r) 1 0.
End Doubles.

Definition fixed64 (x : float) (f : nat) : string :=
  match B64.to_Q x with
  | Some q => FixedPoint.fixed q f
  | None =>
      if PrimFloat.eqb x x
      then (if PrimFloat.ltb x PrimFloat.zero then "-Infinity" else "Infinity")
      else "NaN"
  end.

Definition platform64 : Platform float :=
  {| Math_sqrt := PrimFloat.sqrt; Math_log := log64; Math_cos := cos64;
     toFixed := fixed64 |}.

(** The same platform on exact numbers. *)
Definition xsqrt (x : Exact.xnum) : Exact.xnum :=
  match x with
  | Exact.XFin q => if Exact.Qneg q then Exact.XNaN else Exact.fin (FixedPoint.sqrt q)
  | Exact.XInf false => x
  | _ => Exact.XNaN
  end.

Definition xlog (x : Exact.xnum) : Exact.xnum :=
  match x with
  | Exact.XFin q =>
      if Qle_bool q 0
      then (if Qeq_bool q 0 then Exact.XInf true else Exact.XNaN)
      else Exact.fin (FixedPoint.log q)
  | Exact.XInf false => x
  | _ => Exact.XNaN
  end.

Definition xcos (x : Exact.xnum) : Exact.xnum :=
  match x with
  | Exact.XFin q => Exact.fin (FixedPoint.cos q)
  | _ => Exact.XNaN
  end.

Definition xfixed (x : Exact.xnum) (f : nat) : string :=
  match x with
  | Exact.XFin q => FixedPoint.fixed q f
  | Exact.XInf false => "Infinity"
  | Exact.XInf true => "-Infinity"
  | Exact.XNaN => "NaN"
  end.

Definition platformX : Platform Exact.xnum :=
  {| Math_sqrt := xsqrt; Math_log := xlog; Math_cos := xcos; toFixed := xfixed |}.

Section Tables.
Context {num : Type} {N : Number num}.

Definition asset (er vol bRate bInfl bGrowth bRiskOff : Q) : AssetAssumptions num :=
  {| expectedReturn := lit er; volatility := lit vol;
     betaRate := lit bRate; betaInflation := lit bInfl;
     betaGrowth := lit bGrowth; betaRiskOff := lit bRiskOff |}.

(** A table of the shape of [data/assumptions.json]; the figures are
    placeholders. *)
Definition assumptions : Assumptions num :=
  {| assets :=
       [ (usEquities,       asset 0.08 0.16 (-0.05) (-0.10) 0.30 (-0.12));
         (intlEquities,     asset 0.07 0.18 (-0.04) (-0.08) 0.28 (-0.13));
         (emergingEquities, asset 0.09 0.24 (-0.06) (-0.06) 0.35 (-0.18));
         (longTermBonds,    asset 0.04 0.12 (-0.15) (-0.12) (-0.05) 0.04);
         (shortTermBonds,   asset 0.03 0.03 (-0.02) (-0.03) (-0.01) 0.01);
         (tips,             asset 0.03 0.06 (-0.06) 0.10 (-0.02) 0.01);
         (reits,            asset 0.06 0.19 (-0.08) 0.02 0.20 (-0.10));
         (commodities,      asset 0.04 0.20 0.01 0.20 0.15 (-0.05));
         (gold,             asset 0.04 0.15 (-0.03) 0.12 (-0.05) 0.06);
         (cash,             asset 0.02 0.01 0.01 (-0.01) 0 0) ];
     regimes := fun r =>
       Some match r with
            | normal      => {| probability := lit 0.70; volMultiplier := lit 1.0 |}
            | stress_2022 => {| probability := lit 0.12; volMultiplier := lit 1.8 |}
            | stagflation => {| probability := lit 0.10; volMultiplier := lit 1.5 |}
            | deflation   => {| probability := lit 0.08; volMultiplier := lit 1.6 |}
            end |}.

Definition allocs (us intl em ltb stb tp re com gd ca : Q) : Allocations num :=
  [ (usEquities, lit us); (intlEquities, lit intl); (emergingEquities, lit em);
    (longTermBonds, lit ltb); (shortTermBonds, lit stb); (tips, lit tp);
    (reits, lit re); (commodities, lit com); (gold, lit gd); (cash, lit ca) ].

(** The balanced seed of the specification's scenario. *)
Definition balanced : Portfolio num :=
  {| allocations := allocs 0.25 0.10 0.05 0.10 0.15 0.10 0.10 0.05 0.05 0.05 |}.

Definition all_regimes : list Regime := [normal; stress_2022; stagflation; deflation].

Definition sim_config (scenarios months : nat) : SimulationConfig num :=
  {| numScenarios := scenarios; horizonMonths := months;
     seed := None; regimesEnabled := all_regimes |}.

(** A clock and a [Math.random] that return the same value at each call. *)
Definition frozen (now rnd : Q) : Ambient num :=
  {| Date_now := fun _ => lit now; Math_random := fun _ => lit rnd |}.

(** 60% US equities, 40% long-term bonds. *)
Definition sixty_forty : Portfolio num :=
  {| allocations := allocs 0.60 0 0 0.40 0 0 0 0 0 0 |}.

(** A valid seed portfolio (the weights sum to 1) with a 1.5% cash position. *)
Definition with_dust : Portfolio num :=
  {| allocations := allocs 0.585 0 0 0.40 0 0 0 0 0 0.015 |}.



(** A valid portfolio on the 0.5% grid, with a position of exactly 2%. *)
Definition on_grid_2pct : Allocations num :=
  allocs 0.645 0.02 0.075 0.065 0.065 0.13 0 0 0 0.

Definition evolution_config (population gens elite scenarios : nat) (seed : Q)
  : EvolutionConfig num :=
  {| populationSize := population;
     generations := gens;
     mutationRate := lit 0.3;
     crossoverRate := lit 0.5;
     eliteCount := elite;
     fitnessWeights :=
       {| w_sharpe := lit 1; w_cvar := lit 1;
          w_maxDrawdown := lit 1; w_returnMean := lit 1 |};
     adversarialPressure := lit 0.3;
     simConfig := sim_config scenarios 1;
     evo_seed := Some (lit seed) |}.

(** Ten equal weights. *)
Definition tenths : Portfolio num :=
  {| allocations := allocs 0.1 0.1 0.1 0.1 0.1 0.1 0.1 0.1 0.1 0.1 |}.

(** One candidate per generation, each the mutation of the one before:
    nobody is kept, and the roll always falls below [crossoverRate] while
    a population of one cannot be crossed. *)
Definition mutation_config (rate : Q) (gens scenarios : nat) (seed : Q)
  : EvolutionConfig num :=
  {| populationSize := 1;
     generations := gens;
     mutationRate := lit rate;
     crossoverRate := lit 1;
     eliteCount := 0;
     fitnessWeights :=
       {| w_sharpe := lit 1; w_cvar := lit 1;
          w_maxDrawdown := lit 1; w_returnMean := lit 1 |};
     adversarialPressure := lit 0;
     simConfig := sim_config scenarios 1;
     evo_seed := Some (lit seed) |}.

End Tables.

(** ** Sample inputs on doubles *)

Definition ambient64 : Ambient float := frozen 1700000000000 0.5.




(** [runMonteCarlo(portfolio, {numScenarios, horizonMonths, ...}, seed)]. *)
Abbreviation run64 portfolio scenarios months seed :=
  (runMonteCarlo platform64 assumptions ambient64 portfolio
     (sim_config scenarios months) (Some (B64.literal seed))).

(** ** Sample inputs on exact numbers *)

Definition ambientX : Ambient Exact.xnum := frozen 1700000000000 0.5.

Abbreviation runX portfolio scenarios months seed :=
  (runMonteCarlo platformX assumptions ambientX portfolio
     (sim_config scenarios months) (Some (Exact.fin seed))).

Abbreviation evolveX seedPortfolio config :=
  (evolvePortfolio platformX assumptions (fun _ => ambientX) seedPortfolio config
     (Exact.fin 1700000000000)).

Definition start64 (seed : Q) : EvoState :=
  {| evo_rng := SeededRNG_new (B64.literal seed); sim_calls := 0 |}.

(** The loop that generates the initial population, as [evolvePortfolio]
    runs it on a configuration whose seed is [seed]. *)
Abbreviation initial64 seedPortfolio config seed :=
  (initial_population platform64 assumptions (fun _ => ambient64) seedPortfolio config
     (initial_simConfig config) (start64 seed)).

(** The loop over the generations after [upto] passes, on doubles. *)
Abbreviation loop64 seedPortfolio config seed upto :=
  (evolve_loop platform64 assumptions (fun _ => ambient64) seedPortfolio config upto
     (start64 seed)).

Abbreviation evolve64 seedPortfolio config :=
  (evolvePortfolio platform64 assumptions (fun _ => ambient64) seedPortfolio config
     (B64.literal 1700000000000)).

Definition startX (seed : Q) : EvoState :=
  {| evo_rng := SeededRNG_new (Exact.fin seed); sim_calls := 0 |}.

(** The loop over the generations after [upto] passes, on exact numbers. *)
Abbreviation loopX seedPortfolio config seed upto :=
  (evolve_loop platformX assumptions (fun _ => ambientX) seedPortfolio config upto
     (startX seed)).

End Sample.

(** ** The arithmetic of [normalize] on rationals *)

(** What [normalize] does to the ten weights once they are exact numbers,
    written on the list of the rationals: each function below is the
    rational under the [XFin] that the corresponding statement of
    [normalize] produces ([normalize_values] is the refinement). *)
Module NormalizeQ.
Local Open Scope Q_scope.

(** [Math.max(0, q)]. *)
Definition clamp (q : Q) : Q := if Qle_bool q 0 then 0 else q.

(** [qs.reduce((s, v) => s + v, 0)]. *)
Definition total (qs : list Q) : Q := fold_left (fun a q => Qred (a + q)) qs 0.

(** [q / t]. *)
Definition scale (t q : Q) : Q := Qred (q / t).

(** The equal-weight fallback or the first normalization. *)
Definition spread (qs : list Q) : list Q :=
  if Qeq_bool (total qs) 0 then map (fun _ => 1 # 10) qs
  else map (scale (total qs)) qs.

(** [q < 0.02 ? 0 : q]. *)
Definition drop_dust (q : Q) : Q := if Qle_bool (1 # 50) q then q else 0.

(** [Math.round(q * 200) / 200]. *)
Definition snap (q : Q) : Q :=
  Qred (Qred (inject_Z (Qfloor (Qred (q * 200) + (1 # 2)))) / 200).

Definition snappedQ (qs : list Q) : list Q :=
  let qs := spread qs in
  let qs := map drop_dust qs in
  let qs := map (scale (total qs)) qs in
  map snap qs.

Definition normalizeQ (qs : list Q) : list Q :=
  let qs := snappedQ qs in
  if Qle_bool (total qs) 0 then qs else map (scale (total qs)) qs.

End NormalizeQ.

(** ** Laws of the order *)

(** What the statements about sorted batches and about the hall of fame
    use of the numbers.  Each law holds of IEEE doubles and of exact
    numbers alike (a difference of two doubles has the sign of their
    comparison, subtraction never rounding a non-zero difference to zero);
    the laws are proved below for [Exact.exact]. *)
Class OrderLaws {num : Type} (N : Number num) : Prop := {
  less_minus : forall x y : num, less (lit 0) (minus x y) = less y x;
  less_asym : forall x y : num, less x y = true -> less y x = false;
  less_not_NaN : forall x y : num,
    less x y = true -> isNaN x = false /\ isNaN y = false;
  not_less_trans : forall x y z : num,
    isNaN x = false -> isNaN y = false -> isNaN z = false ->
    less y x = false -> less z y = false -> less z x = false;
  times_not_NaN : forall x y : num,
    isNaN (times x y) = false -> isNaN x = false /\ isNaN y = false;
  square_minus_sym : forall x y : num,
    times (minus x y) (minus x y) = times (minus y x) (minus y x)
}.

(** ** Predicates of the statements *)

Section Predicates.
Context {num : Type} {N : Number num}.
Local Open Scope js_scope.

(** Two lists of scenarios have a scenario in common. *)
Definition share_scenario (xs ys : list (ScenarioResult num)) : bool :=
  existsb (fun x => existsb (fun y => Nat.eqb (scenarioId x) (scenarioId y)) ys) xs.

(** Two allocation records hold the same weight for every asset class. *)
Definition same_weights (a b : Allocations num) : bool :=
  forallb
    (fun k => nullish (get AssetClass_eqb a k) === nullish (get AssetClass_eqb b k))
    ALL_ASSETS.

(** A batch in ascending order of return: no scenario has a return below
    that of a scenario before it. *)
Definition ascending_by_return (batch : list (ScenarioResult num)) : Prop :=
  StronglySorted
    (fun a b => less (portfolioReturn b) (portfolioReturn a) = false) batch.

(** A list of candidates in descending order of fitness. *)
Definition descending_by_fitness (l : list (EvolvedPortfolio num)) : Prop :=
  StronglySorted (fun a b => less (fitness a) (fitness b) = false) l.

(** The hall of fame does not take [a] and [b] for duplicates of one
    another: their distance is not below 0.05. *)
Definition apart (P : Platform num) (a b : EvolvedPortfolio num) : Prop :=
  less (distance P (ep_portfolio a) (ep_portfolio b)) (lit 0.05) = false.

Definition pairwise_apart (P : Platform num) (l : list (EvolvedPortfolio num)) : Prop :=
  forall i j a b,
    i <> j -> nth_error l i = Some a -> nth_error l j = Some b -> apart P a b.

(** At most five entries, in descending order of fitness, no two of them
    duplicates of one another. *)
Definition hall_ok (P : Platform num) (l : list (EvolvedPortfolio num)) : Prop :=
  (List.length l <= 5)%nat /\ descending_by_fitness l /\ pairwise_apart P l.

(** What the loop keeps of the hall of fame; the last part is what makes
    the sort meaningful: two entries or more all have a fitness that is a
    number. *)
Definition hall_kept (P : Platform num) (hall : list (EvolvedPortfolio num)) : Prop :=
  (List.length hall <= 5)%nat
  /\ descending_by_fitness hall
  /\ ForallOrdPairs (apart P) hall
  /\ ((List.length hall <= 1)%nat \/ Forall (fun h => isNaN (fitness h) = false) hall).

(** Every pair of neighbours of a list is in [R]. *)
Definition consecutive {X} (R : X -> X -> Prop) (l : list X) : Prop :=
  forall i a b, nth_error l i = Some a -> nth_error l (S i) = Some b -> R a b.

(** The first [eliteCount] candidates of the snapshot [g] are in the
    population of [g'], tagged ["elite"] with the generation of [g'] and
    otherwise unchanged. *)
Definition elite_survives (config : EvolutionConfig num)
    (g g' : GenerationSnapshot num) : Prop :=
  forall c,
    In c (firstn (eliteCount config) (population g)) ->
    In (with_generation (gs_generation g') "elite"%string c) (population g').

(** No candidate of a snapshot of the run has a fitness that is NaN. *)
Definition fitness_is_number (r : EvolutionResult num) : bool :=
  forallb (fun g => forallb (fun c => negb (isNaN (fitness c))) (population g))
    (er_generations r).

(** A snapshot taken of a population just sorted. *)
Definition taken (P : Platform num) (g : GenerationSnapshot num) : Prop :=
  exists pop,
    snapshot P (gs_generation g) (sort (@by_fitness_desc num N) pop) = Some g.

(** What every scenario result of a batch satisfies: the wealth path
    starts at 1 and has one value per month after it, and the drawdown is
    the one of that path. *)
Definition well_formed (months : nat) (r : ScenarioResult num) : Prop :=
  (exists rest, path r = lit 1.0 :: rest /\ List.length rest = months)
  /\ drawdown r
     = snd (fold_left drawdown_step (path r) (index_num (path r) (lit 0), lit 0)).

(** A number that is not below 0 (NaN is not a number). *)
Definition not_negative (x : num) : Prop :=
  isNaN x = false /\ less x (lit 0) = false.

(** The scenarios that a summary shows. *)
Definition reported (s : SimulationSummary num) (r : ScenarioResult num) : Prop :=
  In r (worstScenarios s) \/ In r (bestScenarios s) \/ medianScenario s = Some r.

(** Every field of a summary other than its run identifier. *)
Definition without_runId (s : SimulationSummary num) :=
  (portfolio s, config s, metrics s, tailFlags s, worstScenarios s,
   bestScenarios s, medianScenario s, returnDistribution s, correlationMatrix s).

(** What [normalize] promises: every asset class has a weight that is a
    real number, not negative and not strictly between 0 and 0.005, and
    the weights sum to 1. *)
Definition valid_weights (r : Allocations num) : Prop :=
  (forall k : AssetClass,
      exists w : num,
        get AssetClass_eqb r k = Some w
        /\ isFinite w = true
        /\ less w (lit 0) = false
        /\ andb (less (lit 0) w) (less w (lit 0.005)) = false)
  /\ sum (values r) = lit 1.

(** A record with distinct keys and values that are real numbers. *)
Definition tidy (r : Allocations num) : Prop :=
  NoDup (keys r) /\ Forall (fun v => isFinite v = true) (values r).

(** A matrix of [n] rows of [n] entries. *)
Definition square (n : nat) (m : list (list num)) : Prop :=
  List.length m = n /\ Forall (fun row => List.length row = n) m.

(** [n] rows of [n] entries, those above the diagonal being 0. *)
Definition lower_triangular (n : nat) (L : list (list num)) : Prop :=
  square n L
  /\ forall i j, (i < j)%nat -> (j < n)%nat -> entry L i j = lit 0.

(** [n] rows of [n] entries that are all real numbers. *)
Definition real_matrix (n : nat) (m : list (list num)) : Prop :=
  square n m
  /\ forall i j, (i < n)%nat -> (j < n)%nat -> isFinite (entry m i j) = true.

(** A simulation configuration on which [runMonteCarlo] returns. *)
Definition runnable (A : Assumptions num) (cfg : SimulationConfig num) : Prop :=
  (forall r, In r (regimesEnabled cfg) -> regimes A r <> None)
  /\ (numScenarios cfg = 0%nat \/ regimesEnabled cfg <> []).

(** What the loop over the generations keeps for the next pass to return:
    a full population and a configuration on which the simulation
    returns. *)
Definition loop_kept (A : Assumptions num) (config : EvolutionConfig num)
    (l : Loop (num := num)) : Prop :=
  List.length (l_population l) = populationSize config
  /\ runnable A (l_simConfig l).

End Predicates.

(** [m] never throws, and what it returns is in [Q]. *)
Definition returns {St X} (m : M St X) (Q : X -> Prop) : Prop :=
  forall s, exists x s', m s = Ok (x, s') /\ Q x.

(** A square root that is a positive real number on every real number
    from 1e-10 on. *)
Definition sqrt_positive (P : Platform Exact.xnum) : Prop :=
  forall q : Q, (1e-10 <= q)%Q ->
    exists r : Q, Math_sqrt P (Exact.XFin q) = Exact.XFin r /\ (0 < r)%Q.

(** In the Cholesky loop the rows before [i] are done: the matrix is real
    and their diagonal entries are positive. *)
Definition rows_done (n i : nat) (L : list (list Exact.xnum)) : Prop :=
  real_matrix n L
  /\ forall j, (j < i)%nat -> exists r, entry L j j = Exact.XFin r /\ (0 < r)%Q.

(** The linear interpolation of the list [qs] at the position [x]: what
    [percentile] computes once its numbers are exact. *)
Definition interpolate (qs : list Q) (x : Q) : Q :=
  let lo := Z.to_nat (Qfloor x) in
  if Qeq_bool (inject_Z (Qfloor x)) x then nth lo qs 0%Q
  else (nth lo qs 0 + (nth (S lo) qs 0 - nth lo qs 0) * (x - inject_Z (Qfloor x)))%Q.

(** A rational of [[0, 1)], as an exact number. *)
Definition unit_draw (u : Exact.xnum) : Prop :=
  exists q : Q, u = Exact.XFin q /\ (0 <= q)%Q /\ (q < 1)%Q.

(* ================================================================== *)
(** * Properties *)
(* ================================================================== *)

Unset Implicit Arguments.

(** ** The monad and the loops *)

Lemma bind_Ok {St X Y} (m : M St X) (k : X -> M St Y) (s s' : St) (y : Y) :
  bind m k s = Ok (y, s') ->
  exists x s1, m s = Ok (x, s1) /\ k x s1 = Ok (y, s').
Proof.
  unfold bind. destruct (m s) as [[x s1]|e]; [|discriminate].
  intros H. exists x, s1. split; [reflexivity|exact H].
Qed.

Lemma ret_Ok {St X} (x y : X) (s s' : St) :
  ret x s = Ok (y, s') -> y = x /\ s' = s.
Proof. unfold ret. intros H. inversion H. split; reflexivity. Qed.

Lemma of_option_Ok {St X} (e : Error) (o : option X) (s s' : St) (x : X) :
  of_option e o s = Ok (x, s') -> o = Some x /\ s' = s.
Proof.
  destruct o as [x0|]; simpl; [|discriminate].
  intros H. apply ret_Ok in H. destruct H as [-> ->]. split; reflexivity.
Qed.

Lemma is_Ok_inv {X} (r : Result X) : is_Ok r = true -> exists x, r = Ok x.
Proof. destruct r as [x|e]; [exists x; reflexivity | discriminate]. Qed.

(** Splits a hypothesis [bind m k s = Ok _] along the binds. *)
Ltac bind_inv H :=
  let x := fresh "x" in
  let s := fresh "s" in
  let H1 := fresh H in
  apply bind_Ok in H; destruct H as (x & s & H1 & H).

Lemma forM_length {St X} (body : nat -> M St X) :
  forall n from s s' xs,
    forM body from n s = Ok (xs, s') -> List.length xs = n.
Proof.
  induction n as [|n IH]; intros from s s' xs H; simpl in H.
  - apply ret_Ok in H. destruct H as [-> _]. reflexivity.
  - bind_inv H. bind_inv H. apply ret_Ok in H. destruct H as [-> _].
    simpl. f_equal. eapply IH. eassumption.
Qed.

(** ** Sorting: a permutation, whatever the comparator *)

Section SortFacts.
Context {num : Type} {N : Number num} {X : Type} (cmp : X -> X -> num).

Lemma sort_insert_perm (x : X) (l : list X) :
  Permutation (x :: l) (sort_insert cmp x l).
Proof.
  induction l as [|y l IH]; simpl.
  - apply Permutation_refl.
  - destruct (less (lit 0) (cmp x y)).
    + eapply perm_trans; [apply perm_swap|]. apply perm_skip. exact IH.
    + apply Permutation_refl.
Qed.

Lemma sort_perm (l : list X) : Permutation l (sort cmp l).
Proof.
  induction l as [|x l IH]; simpl.
  - apply perm_nil.
  - eapply perm_trans; [apply perm_skip; exact IH|]. apply sort_insert_perm.
Qed.

Lemma sort_length (l : list X) : List.length (sort cmp l) = List.length l.
Proof. symmetry. apply Permutation_length, sort_perm. Qed.

End SortFacts.

(** ** The batch of a simulation *)

Section BatchFacts.
Context {num : Type} {N : Number num} (P : Platform num) (A : Assumptions num).

Lemma scenario_result_id portfolio months i macro rng rng' r :
  scenario_result P A portfolio months i macro rng = Ok (r, rng') ->
  scenarioId r = i.
Proof.
  unfold scenario_result. intros H.
  bind_inv H. bind_inv H. apply ret_Ok in H. destruct H as [-> _]. reflexivity.
Qed.

Lemma scenario_results_ids portfolio months :
  forall scenarios from rng rng' rs,
    scenario_results P A portfolio months from scenarios rng = Ok (rs, rng') ->
    map (@scenarioId num) rs = seq from (List.length scenarios).
Proof.
  induction scenarios as [|macro rest IH]; intros from rng rng' rs H; simpl in H.
  - apply ret_Ok in H. destruct H as [-> _]. reflexivity.
  - bind_inv H. bind_inv H. apply ret_Ok in H. destruct H as [-> _].
    simpl. f_equal.
    + eapply scenario_result_id. eassumption.
    + eapply IH. eassumption.
Qed.

Lemma generateScenarios_length config rng rng' scenarios :
  generateScenarios P config (regimes A) rng = Ok (scenarios, rng') ->
  List.length scenarios = numScenarios config.
Proof.
  unfold generateScenarios. intros H. bind_inv H.
  eapply forM_length. eassumption.
Qed.

(** The batch behind a summary: [numScenarios] results, numbered from 0. *)
Lemma runMonteCarlo_batch amb portfolio config seed s :
  runMonteCarlo P A amb portfolio config seed = Ok s ->
  exists results,
    map (@scenarioId num) results = seq 0 (numScenarios config)
    /\ metrics s = compute_metrics P config results
    /\ tailFlags s = tail_flags portfolio (correlation_matrix P A portfolio results)
    /\ worstScenarios s = slice (sort (@by_return num N) results) 0 3
    /\ bestScenarios s = rev (slice_from (sort (@by_return num N) results) (-3)).
Proof.
  unfold runMonteCarlo.
  destruct (bind _ _ _) as [[results rng']|e] eqn:E; [|discriminate].
  intros H. inversion H; subst s; clear H. simpl.
  exists results. repeat split.
  bind_inv E.
  apply scenario_results_ids in E.
  apply generateScenarios_length in E0.
  rewrite E, E0. reflexivity.
Qed.

End BatchFacts.

(** ** Determinism of the metrics *)

(** C1.  With the seed given, the metrics of a summary (and whether the call
    throws) do not depend on what the call reads from outside, the clock
    and [Math.random]: two invocations with the same portfolio, the same
    configuration and the same seed produce the same metrics, field by
    field, whatever the two ambients are.  (The generator is created from
    the seed inside the call, so no state survives from one invocation to
    the next.) *)
Theorem runMonteCarlo_metrics_deterministic :
  forall (num : Type) (N : Number num) (P : Platform num) (A : Assumptions num)
         (amb1 amb2 : Ambient num)
         (portfolio : Portfolio num) (config : SimulationConfig num) (seed : num),
    Result_map (@metrics num) (runMonteCarlo P A amb1 portfolio config (Some seed))
    = Result_map (@metrics num) (runMonteCarlo P A amb2 portfolio config (Some seed)).
Proof.
  intros. unfold runMonteCarlo.
  destruct (bind _ _ _) as [[results rng']|e]; reflexivity.
Qed.

(** Without a seed the generator starts from the clock, and the run
    identifier always comes from the clock and [Math.random]: these are the
    only places where the ambient enters. *)
Lemma runMonteCarlo_ambient :
  forall (num : Type) (N : Number num) (P : Platform num) (A : Assumptions num)
         (amb : Ambient num) portfolio config seed s,
    runMonteCarlo P A amb portfolio config (Some seed) = Ok s ->
    runId s = {| stamp := Date_now amb 0; salt := Math_random amb 0 |}.
Proof.
  intros until s. unfold runMonteCarlo.
  destruct (bind _ _ _) as [[results rng']|e]; [|discriminate].
  intros H. inversion H. reflexivity.
Qed.


(** ** The tail flags *)

(** C10.  Every summary carries the fifth flag [durationRisk]; it equals
    [rateShockRisk], and both say that the long-term-bond weight (0 when the
    portfolio has none) exceeds 0.15. *)
Theorem durationRisk_is_rateShockRisk :
  forall (num : Type) (N : Number num) (P : Platform num) (A : Assumptions num)
         (amb : Ambient num) (portfolio : Portfolio num)
         (config : SimulationConfig num) (seed : option num)
         (s : SimulationSummary num),
    runMonteCarlo P A amb portfolio config seed = Ok s ->
    durationRisk (tailFlags s) = rateShockRisk (tailFlags s)
    /\ rateShockRisk (tailFlags s) = less (lit 0.15) (weight portfolio longTermBonds).
Proof.
  intros until s. intros H.
  apply runMonteCarlo_batch in H. destruct H as (results & _ & _ & Hflags & _).
  rewrite Hflags. split; reflexivity.
Qed.

Lemma durationRisk_is_rateShockRisk_witness :
  exists s,
    Sample.run64 Sample.sixty_forty 20 12 42 = Ok s
    /\ durationRisk (tailFlags s) = rateShockRisk (tailFlags s)
    /\ rateShockRisk (tailFlags s) = true.
Proof.
  assert (Hok : is_Ok (Sample.run64 Sample.sixty_forty 20 12 42) = true)
    by (vm_compute; reflexivity).
  destruct (is_Ok_inv _ Hok) as [s E].
  exists s. split; [exact E|].
  destruct (durationRisk_is_rateShockRisk _ _ _ _ _ _ _ _ _ E) as [H1 H2].
  split; [exact H1|]. rewrite H2. vm_compute. reflexivity.
Defined.

(** ** The tail of a small batch *)

(** On doubles, [Math.floor(n * 0.05)] is 0 below twenty scenarios. *)
Lemma cutoff_below_twenty (n : nat) :
  (n < 20)%nat ->
  to_integer (Math_floor (times (of_nat n : float) (lit 0.05))) = Some 0%Z.
Proof.
  intros H.
  do 20 (destruct n as [|n]; [vm_compute; reflexivity|]).
  exfalso. lia.
Qed.

(** On every platform and with every reference table, a batch of fewer than
    twenty scenarios has an empty 5% tail, and [cvar95], the mean of no
    value, is NaN. *)
Lemma cvar95_NaN_below_twenty :
  forall (P : Platform float) (A : Assumptions float) (amb : Ambient float)
         portfolio config seed s,
    (numScenarios config < 20)%nat ->
    runMonteCarlo P A amb portfolio config seed = Ok s ->
    cvar95 (metrics s) = PrimFloat.nan.
Proof.
  intros P A amb portfolio config seed s Hn H.
  apply runMonteCarlo_batch in H. destruct H as (results & Hids & Hm & _).
  rewrite Hm. unfold compute_metrics. cbn [cvar95].
  assert (Hlen : List.length (sort (fun a b : float => minus a b)
                                (map (@portfolioReturn float) results))
                 = numScenarios config).
  { rewrite sort_length, length_map.
    rewrite <- (length_map (@scenarioId float)), Hids. apply length_seq. }
  rewrite Hlen, (cutoff_below_twenty _ Hn).
  unfold slice. cbn [slice_bound Z.ltb Z.compare Z.to_nat].
  rewrite Nat.min_0_r. reflexivity.
Qed.

(** C2, at a failing input: ten scenarios over twelve months on the balanced
    portfolio, seed 42.  The call returns, [cvar95] is NaN, and
    [cvar95 <= p5Return] is false. *)
Theorem cvar95_not_below_p5_on_ten_scenarios :
  match Sample.run64 Sample.balanced 10 12 42 with
  | Ok s =>
      isNaN (cvar95 (metrics s)) = true
      /\ orb (less (cvar95 (metrics s)) (p5Return (metrics s)))
             (strict_eq (cvar95 (metrics s)) (p5Return (metrics s))) = false
  | Throw _ => False
  end.
Proof. vm_compute. split; reflexivity. Qed.

(** C3, at a failing input: a single scenario on the balanced portfolio.  The
    call returns a summary whose [cvar95] is not a finite number, while the
    guarded quantities ([sharpeRatio] at zero volatility) are finite. *)
Theorem cvar95_not_finite_on_one_scenario :
  match Sample.run64 Sample.balanced 1 12 42 with
  | Ok s =>
      isFinite (cvar95 (metrics s)) = false
      /\ isFinite (sharpeRatio (metrics s)) = true
      /\ strict_eq (stdDev (metrics s)) (lit 0) = true
  | Throw _ => False
  end.
Proof. vm_compute. repeat split; reflexivity. Qed.

(** With no regime enabled, reading the last entry of the empty cumulative
    distribution throws. *)
Lemma runMonteCarlo_throws_without_regimes :
  runMonteCarlo Sample.platform64 Sample.assumptions Sample.ambient64 Sample.balanced
    {| numScenarios := 1; horizonMonths := 12; seed := None; regimesEnabled := [] |}
    (Some (lit 42))
  = Throw TypeError.
Proof. vm_compute. reflexivity. Qed.

(** C6, at a failing input: four candidates, two generations, one elite, ten
    scenarios per simulation.  Every fitness is NaN, so the best fitness of
    generation 1 is not [>=] the best fitness of generation 0. *)
Theorem best_fitness_NaN_on_ten_scenarios :
  match Sample.evolve64 Sample.balanced (Sample.evolution_config 4 2 1 10 7) with
  | Ok r =>
      match er_generations r with
      | g0 :: g1 :: _ =>
          isNaN (fitness (best g0)) = true
          /\ isNaN (fitness (best g1)) = true
          /\ orb (less (fitness (best g0)) (fitness (best g1)))
                 (strict_eq (fitness (best g0)) (fitness (best g1))) = false
      | _ => False
      end
  | Throw _ => False
  end.
Proof.
  assert (H :
    match Sample.evolve64 Sample.balanced (Sample.evolution_config 4 2 1 10 7) with
    | Ok r =>
        match er_generations r with
        | g0 :: g1 :: _ =>
            andb (isNaN (fitness (best g0)))
              (andb (isNaN (fitness (best g1)))
                 (negb (orb (less (fitness (best g0)) (fitness (best g1)))
                            (strict_eq (fitness (best g0)) (fitness (best g1))))))
        | _ => false
        end
    | Throw _ => false
    end = true) by (vm_compute; reflexivity).
  destruct (evolvePortfolio _ _ _ _ _ _) as [r|e]; [|discriminate H].
  destruct (er_generations r) as [|g0 [|g1 rest]]; try discriminate H.
  apply andb_prop in H. destruct H as [H0 H].
  apply andb_prop in H. destruct H as [H1 H].
  apply negb_true_iff in H.
  split; [exact H0 | split; [exact H1 | exact H]].
Qed.

(** ** Sorting under the laws of the order *)

Section SortedFacts.
Context {num : Type} {N : Number num} {L : OrderLaws N} {X : Type} (key : X -> num).

(** No element has a key below the key of an element before it. *)
Let ordered : list X -> Prop :=
  StronglySorted (fun a b => less (key b) (key a) = false).

Let ascending (a b : X) : num := minus (key a) (key b).

Lemma sort_insert_In (cmp : X -> X -> num) (x z : X) (l : list X) :
  In z (sort_insert cmp x l) -> z = x \/ In z l.
Proof.
  intros H.
  apply (Permutation_in z (Permutation_sym (sort_insert_perm cmp x l))) in H.
  destruct H as [H|H]; [left; symmetry; exact H | right; exact H].
Qed.

Lemma sort_insert_ordered (x : X) (l : list X) :
  isNaN (key x) = false ->
  Forall (fun y => isNaN (key y) = false) l ->
  ordered l -> ordered (sort_insert ascending x l).
Proof.
  intros Hx Hl Hs. induction Hs as [|y l Hs IH Hy]; simpl.
  - constructor; [constructor | constructor].
  - inversion Hl as [|? ? Hny Hl']; subst.
    unfold ascending at 1. rewrite less_minus.
    destruct (less (key y) (key x)) eqn:E.
    + constructor; [apply IH; exact Hl'|].
      apply Forall_forall. intros z Hz.
      apply sort_insert_In in Hz. destruct Hz as [->|Hz].
      * apply less_asym. exact E.
      * rewrite Forall_forall in Hy. apply Hy. exact Hz.
    + constructor; [constructor; assumption|].
      constructor; [exact E|].
      apply Forall_forall. intros z Hz.
      rewrite Forall_forall in Hy, Hl'.
      apply (not_less_trans (key x) (key y) (key z)); auto.
Qed.

Lemma sort_ordered (l : list X) :
  Forall (fun y => isNaN (key y) = false) l -> ordered (sort ascending l).
Proof.
  induction l as [|x l IH]; intros H; simpl.
  - constructor.
  - inversion H as [|? ? Hx Hl]; subst.
    apply sort_insert_ordered; [exact Hx | | apply IH; exact Hl].
    apply Forall_forall. intros y Hy.
    rewrite Forall_forall in Hl. apply Hl.
    apply (Permutation_in y (Permutation_sym (sort_perm ascending l))). exact Hy.
Qed.

End SortedFacts.

(** ** Slices *)

Lemma slice_0_3 {X} (l : list X) : slice l 0 3 = firstn 3 l.
Proof.
  unfold slice, slice_bound. cbn [Z.ltb Z.compare Z.to_nat].
  change (Pos.to_nat 3) with 3%nat.
  rewrite Nat.min_0_r, Nat.sub_0_r. cbn [skipn].
  destruct (Nat.le_ge_cases (List.length l) 3) as [H|H].
  - rewrite (Nat.min_l _ _ H), !firstn_all2 by lia. reflexivity.
  - rewrite (Nat.min_r _ _ H). reflexivity.
Qed.

Lemma slice_from_minus_3 {X} (l : list X) :
  slice_from l (-3) = skipn (List.length l - 3) l.
Proof.
  unfold slice_from, slice_bound. cbn [Z.ltb Z.compare].
  f_equal. lia.
Qed.

Lemma firstn_skipn_disjoint {X} (l : list X) (n m : nat) (x : X) :
  NoDup l -> (n <= m)%nat -> In x (firstn n l) -> In x (skipn m l) -> False.
Proof.
  intros Hnd Hnm H1 H2.
  rewrite <- (firstn_skipn m l) in Hnd.
  apply NoDup_app_remove_l in Hnd as Hnd2.
  assert (H1' : In x (firstn m l)).
  { rewrite <- (firstn_skipn n (firstn m l)). apply in_or_app. left.
    rewrite firstn_firstn, Nat.min_l by exact Hnm. exact H1. }
  revert Hnd H1' H2. generalize (firstn m l) (skipn m l). intros a b.
  induction a as [|y a IH]; simpl; intros Hnd Ha Hb; [contradiction|].
  inversion Hnd as [|? ? Hy Hnd']; subst.
  destruct Ha as [->|Ha].
  - apply Hy. apply in_or_app. right. exact Hb.
  - apply IH; assumption.
Qed.

(** ** The worst and the best scenarios *)

Section WorstBest.
Context {num : Type} {N : Number num}.

Lemma share_scenario_false (xs ys : list (ScenarioResult num)) :
  (forall x y, In x xs -> In y ys -> scenarioId x <> scenarioId y) ->
  share_scenario xs ys = false.
Proof.
  intros H. unfold share_scenario.
  apply not_true_is_false. intros E.
  apply existsb_exists in E. destruct E as (x & Hx & E).
  apply existsb_exists in E. destruct E as (y & Hy & E).
  apply Nat.eqb_eq in E. exact (H x y Hx Hy E).
Qed.

Lemma ids_disjoint (sorted : list (ScenarioResult num)) (x y : ScenarioResult num) :
  NoDup (map (@scenarioId num) sorted) ->
  (6 <= List.length sorted)%nat ->
  In x (firstn 3 sorted) ->
  In y (skipn (List.length sorted - 3) sorted) ->
  scenarioId x <> scenarioId y.
Proof.
  intros Hnd Hlen Hx Hy E.
  apply (firstn_skipn_disjoint (map (@scenarioId num) sorted) 3
           (List.length sorted - 3) (scenarioId x) Hnd).
  - lia.
  - rewrite firstn_map. apply in_map. exact Hx.
  - rewrite skipn_map, E. apply in_map. exact Hy.
Qed.

End WorstBest.

(** C9, as the code has it.  The two lists come from one batch sorted by
    return ([sorted], a rearrangement of the [numScenarios] results, in
    ascending order of return whenever no return is NaN): [worstScenarios]
    is its first three entries, the lowest returns, and [bestScenarios] its
    last three, highest return first.  Each list has at most three entries;
    they have no scenario in common when the batch has at least six. *)
Theorem worst_and_best_scenarios :
  forall (num : Type) (N : Number num) (L : OrderLaws N)
         (P : Platform num) (A : Assumptions num) (amb : Ambient num)
         (portfolio : Portfolio num) (config : SimulationConfig num)
         (seed : option num) (s : SimulationSummary num),
    runMonteCarlo P A amb portfolio config seed = Ok s ->
    exists sorted : list (ScenarioResult num),
      Permutation (map (@scenarioId num) sorted) (seq 0 (numScenarios config))
      /\ (Forall (fun r => isNaN (portfolioReturn r) = false) sorted ->
          ascending_by_return sorted)
      /\ worstScenarios s = firstn 3 sorted
      /\ bestScenarios s = rev (skipn (List.length sorted - 3) sorted)
      /\ (List.length (worstScenarios s) <= 3)%nat
      /\ (List.length (bestScenarios s) <= 3)%nat
      /\ ((6 <= numScenarios config)%nat ->
          share_scenario (worstScenarios s) (bestScenarios s) = false).
Proof.
  intros num N L P A amb portfolio config seed s H.
  apply runMonteCarlo_batch in H.
  destruct H as (results & Hids & _ & _ & Hworst & Hbest).
  set (sorted := sort (@by_return num N) results) in *.
  assert (Hperm : Permutation (map (@scenarioId num) sorted) (seq 0 (numScenarios config))).
  { rewrite <- Hids. apply Permutation_map, Permutation_sym, sort_perm. }
  assert (Hlen : List.length sorted = numScenarios config).
  { rewrite <- (length_map (@scenarioId num)), (Permutation_length Hperm).
    apply length_seq. }
  rewrite slice_0_3 in Hworst. rewrite slice_from_minus_3 in Hbest.
  exists sorted. repeat split.
  - exact Hperm.
  - intros Hnan. apply (sort_ordered (@portfolioReturn num)).
    apply Forall_forall. intros r Hr.
    rewrite Forall_forall in Hnan. apply Hnan.
    apply (Permutation_in r (sort_perm (@by_return num N) results)). exact Hr.
  - exact Hworst.
  - exact Hbest.
  - rewrite Hworst. apply firstn_le_length.
  - rewrite Hbest, length_rev, length_skipn. lia.
  - intros H6. rewrite Hworst, Hbest.
    apply share_scenario_false. intros x y Hx Hy.
    apply in_rev in Hy.
    apply (ids_disjoint sorted x y); try assumption; [|lia].
    apply (Permutation_NoDup (Permutation_sym Hperm)). apply seq_NoDup.
Qed.

(** C9 as stated fails below six scenarios: with four, the two lists share
    a scenario. *)
Lemma worst_and_best_overlap_on_four_scenarios :
  match Sample.run64 Sample.balanced 4 12 42 with
  | Ok s => share_scenario (worstScenarios s) (bestScenarios s) = true
  | Throw _ => False
  end.
Proof. vm_compute. reflexivity. Qed.

(* ================================================================== *)
(** * The exact numbers *)
(* ================================================================== *)

(** Unfolds the exact operations and leaves the rationals alone. *)
Ltac xsimpl :=
  cbn -[Qred Qle_bool Qeq_bool Qplus Qmult Qopp Qminus Qdiv Qinv Qabs Qfloor
        Qnum Qden inject_Z] in *.

(** Closes the cases in which an operand is an infinity or NaN. *)
Ltac specials :=
  repeat match goal with b : bool |- _ => destruct b end;
  xsimpl; easy.

Section ExactFacts.
Import Exact.
Local Open Scope Q_scope.

Lemma Qle_bool_true (a b : Q) : Qle_bool a b = true <-> a <= b.
Proof. apply Qle_bool_iff. Qed.

Lemma Qle_bool_false (a b : Q) : Qle_bool a b = false <-> b < a.
Proof.
  split; intros H.
  - apply Qnot_le_lt. intros Hle. apply Qle_bool_iff in Hle. congruence.
  - apply not_true_is_false. intros Hle. apply Qle_bool_iff in Hle.
    apply (Qlt_not_le _ _ H Hle).
Qed.

Lemma Qle_bool_eq (a b c d : Q) : (a <= b <-> c <= d) -> Qle_bool a b = Qle_bool c d.
Proof.
  intros H. destruct (Qle_bool a b) eqn:E1, (Qle_bool c d) eqn:E2; try reflexivity.
  - apply Qle_bool_true in E1. apply H in E1. apply Qle_bool_true in E1. congruence.
  - apply Qle_bool_true in E2. apply H in E2. apply Qle_bool_true in E2. congruence.
Qed.

Lemma fin_eq (a b : Q) : a == b -> fin a = fin b.
Proof. intros H. unfold fin. f_equal. apply Qred_complete. exact H. Qed.

Lemma xless_fin (a b : Q) : xless (XFin a) (XFin b) = true <-> a < b.
Proof.
  xsimpl. rewrite negb_true_iff. apply Qle_bool_false.
Qed.

Lemma xless_fin_false (a b : Q) : xless (XFin a) (XFin b) = false <-> b <= a.
Proof.
  xsimpl. rewrite negb_false_iff. apply Qle_bool_true.
Qed.

Lemma isNaN_xnum (x : xnum) : isNaN x = match x with XNaN => true | _ => false end.
Proof.
  unfold isNaN. destruct x as [q|s|]; xsimpl.
  - rewrite (Qeq_bool_refl q). reflexivity.
  - rewrite eqb_reflx. reflexivity.
  - reflexivity.
Qed.

Lemma exact_less_minus (x y : xnum) : less (lit 0) (minus x y) = less y x.
Proof.
  destruct x as [a|s|], y as [b|t|]; xsimpl; [|specials ..].
  f_equal. apply Qle_bool_eq.
  rewrite !Qred_correct. split; intros H; lra.
Qed.

Lemma exact_less_asym (x y : xnum) : less x y = true -> less y x = false.
Proof.
  destruct x as [a|s|], y as [b|t|]; xsimpl; [|specials ..].
  rewrite negb_true_iff, negb_false_iff, Qle_bool_false, Qle_bool_true. lra.
Qed.

Lemma exact_less_not_NaN (x y : xnum) :
  less x y = true -> isNaN x = false /\ isNaN y = false.
Proof.
  rewrite !isNaN_xnum.
  destruct x as [a|s|], y as [b|t|]; xsimpl; easy.
Qed.

Lemma exact_not_less_trans (x y z : xnum) :
  isNaN x = false -> isNaN y = false -> isNaN z = false ->
  less y x = false -> less z y = false -> less z x = false.
Proof.
  rewrite !isNaN_xnum.
  destruct x as [a|s|], y as [b|t|], z as [c|u|]; xsimpl; [|specials ..].
  intros _ _ _.
  rewrite !negb_false_iff, !Qle_bool_true. lra.
Qed.

Lemma exact_times_not_NaN (x y : xnum) :
  isNaN (times x y) = false -> isNaN x = false /\ isNaN y = false.
Proof.
  rewrite !isNaN_xnum.
  destruct x as [a|s|], y as [b|t|]; xsimpl; easy.
Qed.

Lemma exact_square_minus_sym (x y : xnum) :
  times (minus x y) (minus x y) = times (minus y x) (minus y x).
Proof.
  destruct x as [a|s|], y as [b|t|]; xsimpl; [|specials ..].
  apply fin_eq. rewrite !Qred_correct. ring.
Qed.

Lemma exact_order_laws : OrderLaws exact.
Proof.
  constructor.
  - exact exact_less_minus.
  - exact exact_less_asym.
  - exact exact_less_not_NaN.
  - exact exact_not_less_trans.
  - exact exact_times_not_NaN.
  - exact exact_square_minus_sym.
Qed.

End ExactFacts.

Lemma worst_and_best_scenarios_witness :
  exists s,
    Sample.runX Sample.sixty_forty 6 1 42 = Ok s
    /\ exists sorted : list (ScenarioResult Exact.xnum),
      Permutation (map (@scenarioId _) sorted) (seq 0 6)
      /\ (Forall (fun r => isNaN (portfolioReturn r) = false) sorted ->
          ascending_by_return sorted)
      /\ worstScenarios s = firstn 3 sorted
      /\ bestScenarios s = rev (skipn (List.length sorted - 3) sorted)
      /\ (List.length (worstScenarios s) <= 3)%nat
      /\ (List.length (bestScenarios s) <= 3)%nat
      /\ ((6 <= 6)%nat ->
          share_scenario (worstScenarios s) (bestScenarios s) = false).
Proof.
  assert (Hok : is_Ok (Sample.runX Sample.sixty_forty 6 1 42) = true)
    by (vm_compute; reflexivity).
  destruct (is_Ok_inv _ Hok) as [s E].
  exists s. split; [exact E|].
  exact (worst_and_best_scenarios _ _ exact_order_laws _ _ _ _ _ _ _ E).
Defined.

(** ** The initial population *)

Section InitialPopulation.
Context {num : Type} {N : Number num} (P : Platform num) (A : Assumptions num).
Variable ambient : nat -> Ambient num.

Lemma evaluate_Ok config simCfg allocs gen tag st st' c :
  evaluate P A ambient config simCfg allocs gen tag st = Ok (c, st') ->
  allocations (ep_portfolio c) = normalize allocs
  /\ generation c = gen
  /\ parentage c = tag
  /\ fitness c = computeFitness (summary c) (fitnessWeights config).
Proof.
  unfold evaluate. intros H.
  bind_inv H. bind_inv H. apply ret_Ok in H. destruct H as [-> _].
  repeat split.
Qed.

End InitialPopulation.

(** C8, as the code has it.  Candidate 0 of the initial population is
    tagged ["seed"] and carries the seed portfolio's allocations after
    [normalize]: the seed itself only when [normalize] leaves it as it is. *)
Theorem initial_candidate_0_is_normalized_seed :
  forall (num : Type) (N : Number num) (P : Platform num) (A : Assumptions num)
         (ambient : nat -> Ambient num)
         (seedPortfolio : Portfolio num) (config : EvolutionConfig num)
         (simCfg : SimulationConfig num) (st st' : EvoState)
         (population : list (EvolvedPortfolio num)),
    (1 <= populationSize config)%nat ->
    initial_population P A ambient seedPortfolio config simCfg st
      = Ok (population, st') ->
    exists c0 rest,
      population = c0 :: rest
      /\ allocations (ep_portfolio c0) = normalize (allocations seedPortfolio)
      /\ parentage c0 = "seed"%string.
Proof.
  intros num N P A ambient seedPortfolio config simCfg st st' population Hsize H.
  unfold initial_population in H.
  destruct (populationSize config) as [|n] eqn:En; [lia|].
  cbn [forM] in H.
  apply bind_Ok in H. destruct H as (c0 & s1 & Hc0 & H).
  apply bind_Ok in H. destruct H as (rest & s2 & _ & H).
  apply ret_Ok in H. destruct H as [-> _].
  exists c0, rest. split; [reflexivity|].
  unfold initial_candidate in Hc0. cbn [Nat.eqb] in Hc0.
  apply bind_Ok in Hc0. destruct Hc0 as (allocs & s3 & Hallocs & Hc0).
  apply ret_Ok in Hallocs. destruct Hallocs as [-> ->].
  apply evaluate_Ok in Hc0. destruct Hc0 as (Ha & _ & Hp & _).
  split; assumption.
Qed.

Lemma initial_candidate_0_is_normalized_seed_witness :
  exists population st',
    Sample.initial64 Sample.with_dust (Sample.evolution_config 2 1 1 20 7) 7
      = Ok (population, st')
    /\ exists c0 rest,
      population = c0 :: rest
      /\ allocations (ep_portfolio c0) = normalize (allocations Sample.with_dust)
      /\ parentage c0 = "seed"%string.
Proof.
  assert (Hok : is_Ok (Sample.initial64 Sample.with_dust
                         (Sample.evolution_config 2 1 1 20 7) 7) = true)
    by (vm_compute; reflexivity).
  destruct (is_Ok_inv _ Hok) as [[population st'] E].
  exists population, st'. split; [exact E|].
  refine (initial_candidate_0_is_normalized_seed _ _ _ _ _ _ _ _ _ _ _ _ E).
  vm_compute. lia.
Defined.

(** C8 as stated fails on a seed that [normalize] changes: the seed holds
    1.5% of cash, candidate 0 (tagged ["seed"]) holds none. *)
Lemma initial_candidate_0_differs_from_seed :
  match Sample.initial64 Sample.with_dust (Sample.evolution_config 2 1 1 20 7) 7 with
  | Ok (c0 :: _, _) =>
      parentage c0 = "seed"%string
      /\ weight Sample.with_dust cash = B64.literal 0.015
      /\ weight (ep_portfolio c0) cash = B64.literal 0
      /\ same_weights (allocations (ep_portfolio c0)) (allocations Sample.with_dust)
         = false
  | _ => False
  end.
Proof. vm_compute. repeat split; reflexivity. Qed.

(* ================================================================== *)
(** * Objects keyed by asset class *)
(* ================================================================== *)

Lemma AssetClass_eqb_eq (a b : AssetClass) : AssetClass_eqb a b = true <-> a = b.
Proof. destruct a, b; simpl; split; intros H; try reflexivity; discriminate H. Qed.

Lemma AssetClass_eqb_refl (a : AssetClass) : AssetClass_eqb a a = true.
Proof. apply AssetClass_eqb_eq. reflexivity. Qed.

Lemma AssetClass_eqb_neq (a b : AssetClass) : AssetClass_eqb a b = false <-> a <> b.
Proof.
  rewrite <- AssetClass_eqb_eq. destruct (AssetClass_eqb a b); split; congruence.
Qed.

Lemma AssetClass_eq_dec (a b : AssetClass) : {a = b} + {a <> b}.
Proof. decide equality. Qed.

Lemma ALL_ASSETS_complete (k : AssetClass) : In k ALL_ASSETS.
Proof. destruct k; simpl; tauto. Qed.

Lemma ALL_ASSETS_NoDup : NoDup ALL_ASSETS.
Proof.
  unfold ALL_ASSETS.
  repeat (constructor; [simpl; intuition discriminate|]). constructor.
Qed.

Abbreviation lookup := (get AssetClass_eqb).
Abbreviation assign := (set AssetClass_eqb).

Section ObjFacts.
Context {V : Type}.
Implicit Types (o : Obj AssetClass V) (k : AssetClass) (v : V).

Lemma get_set_same o k v : lookup (assign o k v) k = Some v.
Proof.
  induction o as [|[k' v'] o IH]; simpl.
  - rewrite AssetClass_eqb_refl. reflexivity.
  - destruct (AssetClass_eqb k k') eqn:E; simpl; rewrite E; [reflexivity|exact IH].
Qed.

Lemma get_set_other o k k' v : k' <> k -> lookup (assign o k v) k' = lookup o k'.
Proof.
  intros Hne. induction o as [|[k0 v0] o IH]; simpl.
  - apply AssetClass_eqb_neq in Hne. rewrite Hne. reflexivity.
  - destruct (AssetClass_eqb k k0) eqn:E; simpl.
    + apply AssetClass_eqb_eq in E. subst k0.
      apply AssetClass_eqb_neq in Hne. rewrite Hne. reflexivity.
    + destruct (AssetClass_eqb k' k0); [reflexivity|exact IH].
Qed.

Lemma get_In o k v : lookup o k = Some v -> In (k, v) o.
Proof.
  induction o as [|[k0 v0] o IH]; simpl; [discriminate|].
  destruct (AssetClass_eqb k k0) eqn:E.
  - apply AssetClass_eqb_eq in E. subst k0. intros H. inversion H. left. reflexivity.
  - intros H. right. apply IH. exact H.
Qed.

Lemma In_get o k v : NoDup (keys o) -> In (k, v) o -> lookup o k = Some v.
Proof.
  induction o as [|[k0 v0] o IH]; simpl; [contradiction|].
  intros Hnd [H|H].
  - inversion H; subst. rewrite AssetClass_eqb_refl. reflexivity.
  - inversion Hnd as [|? ? Hnotin Hnd']; subst.
    destruct (AssetClass_eqb k k0) eqn:E.
    + apply AssetClass_eqb_eq in E. subst k0. exfalso. apply Hnotin.
      apply (in_map fst) in H. exact H.
    + apply IH; assumption.
Qed.

Lemma get_None o k : lookup o k = None <-> ~ In k (keys o).
Proof.
  induction o as [|[k0 v0] o IH]; simpl.
  - tauto.
  - destruct (AssetClass_eqb k k0) eqn:E.
    + apply AssetClass_eqb_eq in E. subst k0. split; [discriminate|tauto].
    + apply AssetClass_eqb_neq in E. rewrite IH. intuition congruence.
Qed.

Lemma get_Some_of_key o k : In k (keys o) -> exists v, lookup o k = Some v.
Proof.
  intros H. destruct (lookup o k) as [v|] eqn:E; [exists v; reflexivity|].
  apply get_None in E. contradiction.
Qed.

(** Assigning to a key that is there keeps the keys and their order. *)
Lemma keys_set_present o k v : In k (keys o) -> keys (assign o k v) = keys o.
Proof.
  induction o as [|[k0 v0] o IH]; simpl; [contradiction|].
  intros H. destruct (AssetClass_eqb k k0) eqn:E; simpl; [reflexivity|].
  f_equal. apply IH. destruct H as [H|H]; [|exact H].
  apply AssetClass_eqb_neq in E. congruence.
Qed.

Lemma keys_set_absent o k v : ~ In k (keys o) -> keys (assign o k v) = (keys o ++ [k])%list.
Proof.
  induction o as [|[k0 v0] o IH]; simpl; [reflexivity|].
  intros H. destruct (AssetClass_eqb k k0) eqn:E; simpl.
  - apply AssetClass_eqb_eq in E. subst k0. tauto.
  - f_equal. apply IH. tauto.
Qed.

Lemma NoDup_keys_set o k v : NoDup (keys o) -> NoDup (keys (assign o k v)).
Proof.
  intros H. destruct (in_dec AssetClass_eq_dec k (keys o)) as [Hin|Hout].
  - rewrite keys_set_present by exact Hin. exact H.
  - rewrite keys_set_absent by exact Hout.
    apply NoDup_app; [exact H | constructor; [simpl; tauto | constructor] |].
    intros x Hx [<-|[]]. contradiction.
Qed.

(** Two objects with the same keys in the same order and the same value
    under each key are the same object. *)
Lemma Obj_ext o o' :
  keys o = keys o' -> NoDup (keys o) ->
  (forall k, lookup o k = lookup o' k) -> o = o'.
Proof.
  revert o'. induction o as [|[k v] o IH]; intros [|[k' v'] o'] Hk Hnd Hget;
    simpl in Hk; try discriminate; [reflexivity|].
  inversion Hk as [[Hk0 Hk']]. subst k'.
  inversion Hnd as [|? ? Hnotin Hnd']; subst.
  pose proof (Hget k) as Hv. simpl in Hv. rewrite AssetClass_eqb_refl in Hv.
  inversion Hv. subst v'. f_equal.
  apply IH; [exact Hk' | exact Hnd' |].
  intros k0. pose proof (Hget k0) as H0. simpl in H0.
  destruct (AssetClass_eqb k0 k) eqn:E; [|exact H0].
  apply AssetClass_eqb_eq in E. subst k0.
  assert (H1 : lookup o k = None) by (apply get_None; exact Hnotin).
  assert (H2 : lookup o' k = None) by (apply get_None; rewrite <- Hk'; exact Hnotin).
  congruence.
Qed.

End ObjFacts.

(** ** The loops of [normalize] over the asset classes *)

Section LoopFacts.
Context {num : Type} {N : Number num}.
Implicit Types (r : Allocations num) (k : AssetClass) (f : option num -> num).

Let step f r k := assign r k (f (lookup r k)).

Lemma loop_get f (ks : list AssetClass) :
  NoDup ks ->
  forall r k,
    lookup (fold_left (step f) ks r) k
    = if in_dec AssetClass_eq_dec k ks then Some (f (lookup r k)) else lookup r k.
Proof.
  induction 1 as [|k0 ks Hk0 Hnd IH]; intros r k; simpl; [reflexivity|].
  rewrite IH.
  change (step f r k0) with (assign r k0 (f (lookup r k0))).
  destruct (AssetClass_eq_dec k0 k) as [->|Hne].
  - destruct (in_dec AssetClass_eq_dec k ks) as [Hin|_]; [contradiction|].
    apply get_set_same.
  - rewrite get_set_other by congruence.
    destruct (in_dec AssetClass_eq_dec k ks); reflexivity.
Qed.

Lemma loop_NoDup f (ks : list AssetClass) r :
  NoDup (keys r) -> NoDup (keys (fold_left (step f) ks r)).
Proof.
  revert r. induction ks as [|k0 ks IH]; intros r H; simpl; [exact H|].
  apply IH. apply NoDup_keys_set. exact H.
Qed.

Lemma loop_keys f (ks : list AssetClass) r :
  (forall k, In k (keys r)) -> keys (fold_left (step f) ks r) = keys r.
Proof.
  revert r. induction ks as [|k0 ks IH]; intros r H; simpl; [reflexivity|].
  assert (Hk : keys (step f r k0) = keys r) by (apply keys_set_present, H).
  rewrite IH; [exact Hk|]. intros k. rewrite Hk. apply H.
Qed.

(** After a loop every asset class has a value: the one computed from what
    the record held under that key before the loop. *)
Lemma for_all_assets_get f r k :
  lookup (for_all_assets f r) k = Some (f (lookup r k)).
Proof.
  unfold for_all_assets. fold (step f). rewrite (loop_get f _ ALL_ASSETS_NoDup).
  destruct (in_dec AssetClass_eq_dec k ALL_ASSETS) as [_|H]; [reflexivity|].
  exfalso. apply H, ALL_ASSETS_complete.
Qed.

Lemma for_all_assets_NoDup f r :
  NoDup (keys r) -> NoDup (keys (for_all_assets f r)).
Proof. apply loop_NoDup. Qed.

Lemma for_all_assets_complete f r k : In k (keys (for_all_assets f r)).
Proof.
  destruct (in_dec AssetClass_eq_dec k (keys (for_all_assets f r))) as [H|H]; [exact H|].
  apply get_None in H. rewrite for_all_assets_get in H. discriminate H.
Qed.

Lemma get_map (g : num -> num) r k :
  lookup (map (fun kv => (fst kv, g (snd kv))) r) k = option_map g (lookup r k).
Proof.
  induction r as [|[k0 v0] r IH]; simpl; [reflexivity|].
  destruct (AssetClass_eqb k k0); [reflexivity|exact IH].
Qed.

(** On a record that has all the keys, a loop rewrites the values in place. *)
Lemma for_all_assets_map f r :
  NoDup (keys r) -> (forall k, In k (keys r)) ->
  for_all_assets f r = map (fun kv => (fst kv, f (Some (snd kv)))) r.
Proof.
  intros Hnd Hall.
  assert (Hkeys : keys (for_all_assets f r) = keys r) by (apply loop_keys, Hall).
  apply Obj_ext.
  - rewrite Hkeys. unfold keys. rewrite map_map. reflexivity.
  - rewrite Hkeys. exact Hnd.
  - intros k. rewrite for_all_assets_get, (get_map (fun v => f (Some v))).
    destruct (get_Some_of_key r k (Hall k)) as [v ->]. reflexivity.
Qed.

Lemma values_map (g : num -> num) r :
  values (map (fun kv => (fst kv, g (snd kv))) r) = map g (values r).
Proof. unfold values. rewrite !map_map. reflexivity. Qed.

Lemma keys_map (g : num -> num) r :
  keys (map (fun kv => (fst kv, g (snd kv))) r) = keys r.
Proof. unfold keys. rewrite map_map. reflexivity. Qed.

(** A record with all the keys, each once, has ten values. *)
Lemma complete_length r :
  NoDup (keys r) -> (forall k, In k (keys r)) -> List.length (values r) = 10%nat.
Proof.
  intros Hnd Hall. unfold values. rewrite length_map, <- (length_map fst).
  change 10%nat with (List.length ALL_ASSETS).
  apply Permutation_length, NoDup_Permutation.
  - exact Hnd.
  - exact ALL_ASSETS_NoDup.
  - intros k. split; intros _; [apply ALL_ASSETS_complete | apply Hall].
Qed.

Lemma get_in_values r k v : lookup r k = Some v -> In v (values r).
Proof. intros H. apply get_In in H. apply (in_map snd) in H. exact H. Qed.

End LoopFacts.

(* ================================================================== *)
(** * The arithmetic of [normalize] *)
(* ================================================================== *)

Section NormalizeArith.
Import Exact NormalizeQ.
Local Open Scope Q_scope.
Local Arguments Qred : simpl never.

Definition nonneg (qs : list Q) : Prop := Forall (fun q => 0 <= q) qs.

(** Nothing between 0 and 2%. *)
Definition sparse (qs : list Q) : Prop :=
  Forall (fun q => q == 0 \/ (1 # 50) <= q) qs.

Definition len (qs : list Q) : Q := inject_Z (Z.of_nat (List.length qs)).

Lemma len_cons (q : Q) (qs : list Q) : len (q :: qs) == len qs + 1.
Proof.
  unfold len. cbn [List.length]. rewrite Nat2Z.inj_succ, <- Z.add_1_r, inject_Z_plus.
  reflexivity.
Qed.

Lemma len_nonneg (qs : list Q) : 0 <= len qs.
Proof.
  unfold len. change 0 with (inject_Z 0). rewrite <- Zle_Qle. lia.
Qed.

Lemma len_10 (qs : list Q) : List.length qs = 10%nat -> len qs == 10.
Proof. unfold len. intros ->. reflexivity. Qed.

Lemma total_acc (qs : list Q) (a : Q) :
  fold_left (fun a q => Qred (a + q)) qs a == a + Qsum qs.
Proof.
  revert a. induction qs as [|q qs IH]; intros a; simpl.
  - ring.
  - rewrite IH, Qred_correct. ring.
Qed.

Lemma total_Qsum (qs : list Q) : total qs == Qsum qs.
Proof. unfold total. rewrite total_acc. ring. Qed.

Lemma Qred_idem (q : Q) : Qred (Qred q) = Qred q.
Proof. apply Qred_complete, Qred_correct. Qed.

Lemma total_acc_canon (qs : list Q) (a : Q) :
  Qred a = a ->
  Qred (fold_left (fun a q => Qred (a + q)) qs a)
  = fold_left (fun a q => Qred (a + q)) qs a.
Proof.
  revert a. induction qs as [|q qs IH]; intros a Ha; simpl.
  - exact Ha.
  - apply IH. apply Qred_idem.
Qed.

Lemma total_canon (qs : list Q) : Qred (total qs) = total qs.
Proof. apply total_acc_canon. reflexivity. Qed.

Lemma canon_eq (p q : Q) : Qred p = p -> Qred q = q -> p == q -> p = q.
Proof. intros Hp Hq H. rewrite <- Hp, <- Hq. apply Qred_complete. exact H. Qed.

Lemma Qsum_nonneg (qs : list Q) : nonneg qs -> 0 <= Qsum qs.
Proof.
  induction 1 as [|q qs Hq _ IH]; simpl; lra.
Qed.

Lemma Qsum_ge_elem (qs : list Q) (q : Q) : nonneg qs -> In q qs -> q <= Qsum qs.
Proof.
  induction 1 as [|q0 qs Hq0 Hqs IH]; simpl; [contradiction|].
  intros [->|Hin].
  - pose proof (Qsum_nonneg qs Hqs). lra.
  - specialize (IH Hin). lra.
Qed.

Lemma Qsum_map_const (c : Q) (qs : list Q) :
  Qsum (map (fun _ => c) qs) == c * len qs.
Proof.
  induction qs as [|q qs IH]; simpl.
  - change (len []) with 0. ring.
  - rewrite IH, len_cons. ring.
Qed.

Lemma Qsum_map_scale (t : Q) (qs : list Q) :
  Qsum (map (scale t) qs) == Qsum qs / t.
Proof.
  induction qs as [|q qs IH]; simpl.
  - unfold Qdiv. ring.
  - rewrite IH. unfold scale. rewrite Qred_correct. unfold Qdiv. ring.
Qed.

(** A pointwise bound on the images bounds the sum. *)
Lemma Qsum_map_le (f : Q -> Q) (c : Q) (qs : list Q) :
  Forall (fun q => f q <= q + c) qs -> Qsum (map f qs) <= Qsum qs + c * len qs.
Proof.
  induction 1 as [|q qs Hq _ IH]; simpl.
  - change (len []) with 0. lra.
  - rewrite len_cons. lra.
Qed.

Lemma Qsum_map_ge (f : Q -> Q) (c : Q) (qs : list Q) :
  Forall (fun q => q - c <= f q) qs -> Qsum qs - c * len qs <= Qsum (map f qs).
Proof.
  induction 1 as [|q qs Hq _ IH]; simpl.
  - change (len []) with 0. lra.
  - rewrite len_cons. lra.
Qed.

(** Ten weights that sum to 1 have one of at least 10%. *)
Lemma Qsum_pigeonhole (qs : list Q) :
  Qsum qs == 1 -> List.length qs = 10%nat -> exists q, In q qs /\ 1 # 10 <= q.
Proof.
  intros Hsum Hlen.
  destruct (Exists_dec (fun q => 1 # 10 <= q) qs) as [H|H].
  - intros q. destruct (Qlt_le_dec q (1 # 10)) as [Hlt|Hle]; [right|left; exact Hle].
    apply Qlt_not_le. exact Hlt.
  - apply Exists_exists in H. exact H.
  - exfalso.
    assert (Hstrict : forall l : list Q,
               l <> [] -> Forall (fun q => q < 1 # 10) l -> Qsum l < (1 # 10) * len l).
    { induction l as [|a l IHl]; [congruence|]. intros _ Hl.
      inversion Hl as [|? ? Ha Hl']; subst. simpl. rewrite len_cons.
      destruct l as [|b l].
      - change (len []) with 0. change (Qsum []) with 0. lra.
      - assert (Hb : Qsum (b :: l) < (1 # 10) * len (b :: l))
          by (apply IHl; [discriminate|exact Hl']).
        lra. }
    assert (Hlt : Qsum qs < (1 # 10) * len qs).
    { apply Hstrict.
      - intros ->. discriminate Hlen.
      - apply Forall_forall. intros q Hq.
        apply Qnot_le_lt. intros Hle. apply H.
        apply Exists_exists. exists q. split; assumption. }
    rewrite (len_10 qs Hlen) in Hlt. lra.
Qed.

End NormalizeArith.

Section NormalizeSteps.
Import Exact NormalizeQ.
Local Open Scope Q_scope.
Local Arguments Qred : simpl never.

(** *** Snapping to the 0.5% grid *)

Lemma snap_eq (q : Q) : snap q == inject_Z (Qfloor (q * 200 + (1 # 2))) / 200.
Proof. unfold snap. rewrite !Qred_correct. reflexivity. Qed.

Lemma snap_le (q : Q) : snap q <= q + (1 # 400).
Proof.
  rewrite snap_eq. pose proof (Qfloor_le (q * 200 + (1 # 2))) as H.
  apply Qle_shift_div_r; lra.
Qed.

Lemma snap_ge (q : Q) : q - (1 # 400) <= snap q.
Proof.
  rewrite snap_eq. pose proof (Qlt_floor (q * 200 + (1 # 2))) as H.
  rewrite inject_Z_plus in H. change (inject_Z 1) with 1 in H.
  apply Qle_shift_div_l; lra.
Qed.

Lemma snap_zero (q : Q) : q == 0 -> snap q == 0.
Proof.
  intros H. rewrite snap_eq, H. reflexivity.
Qed.

Lemma snap_big (q : Q) : 1 # 50 <= q -> 1 # 50 <= snap q.
Proof.
  intros H. rewrite snap_eq.
  assert (Hm : (4 <= Qfloor (q * 200 + (1 # 2)))%Z).
  { change 4%Z with (Qfloor 4). apply Qfloor_resp_le. lra. }
  rewrite Zle_Qle in Hm. change (inject_Z 4) with 4 in Hm.
  apply Qle_shift_div_l; lra.
Qed.

Lemma snap_nonneg (q : Q) : 0 <= q -> 0 <= snap q.
Proof.
  intros H. rewrite snap_eq.
  assert (Hm : (0 <= Qfloor (q * 200 + (1 # 2)))%Z).
  { change 0%Z with (Qfloor 0). apply Qfloor_resp_le. lra. }
  rewrite Zle_Qle in Hm. change (inject_Z 0) with 0 in Hm.
  apply Qle_shift_div_l; lra.
Qed.


(** *** The stages *)

Lemma scale_nonneg (t q : Q) : 0 < t -> 0 <= q -> 0 <= scale t q.
Proof.
  intros Ht Hq. unfold scale. rewrite Qred_correct. apply Qle_shift_div_l; lra.
Qed.

Lemma spread_post (qs : list Q) :
  nonneg qs -> List.length qs = 10%nat ->
  nonneg (spread qs) /\ Qsum (spread qs) == 1 /\ List.length (spread qs) = 10%nat.
Proof.
  intros Hnn Hlen. unfold spread.
  pose proof (Qsum_nonneg qs Hnn) as Hsum. rewrite <- total_Qsum in Hsum.
  destruct (Qeq_bool (total qs) 0) eqn:E.
  - repeat split.
    + apply Forall_forall. intros q Hq. apply in_map_iff in Hq.
      destruct Hq as (_ & <- & _). lra.
    + rewrite Qsum_map_const, (len_10 qs Hlen). reflexivity.
    + rewrite length_map. exact Hlen.
  - apply Qeq_bool_neq in E.
    assert (Hpos : 0 < total qs) by (apply Qle_lt_or_eq in Hsum; destruct Hsum as [H|H];
                                     [exact H | exfalso; apply E; symmetry; exact H]).
    repeat split.
    + apply Forall_forall. intros q Hq. apply in_map_iff in Hq.
      destruct Hq as (q0 & <- & Hq0).
      apply scale_nonneg; [exact Hpos|].
      unfold nonneg in Hnn. rewrite Forall_forall in Hnn. apply Hnn. exact Hq0.
    + rewrite Qsum_map_scale, <- total_Qsum. field. exact E.
    + rewrite length_map. exact Hlen.
Qed.

Lemma drop_dust_cases (q : Q) :
  (1 # 50 <= q /\ drop_dust q = q) \/ (q < 1 # 50 /\ drop_dust q = 0).
Proof.
  unfold drop_dust. destruct (Qle_bool (1 # 50) q) eqn:E.
  - left. apply Qle_bool_true in E. split; [exact E|reflexivity].
  - right. apply Qle_bool_false in E. split; [exact E|reflexivity].
Qed.

Lemma drop_dust_post (qs : list Q) :
  nonneg qs -> Qsum qs == 1 -> List.length qs = 10%nat ->
  nonneg (map drop_dust qs) /\ sparse (map drop_dust qs)
  /\ 1 # 10 <= Qsum (map drop_dust qs) <= 1.
Proof.
  intros Hnn Hsum Hlen.
  assert (Hnn' : nonneg (map drop_dust qs)).
  { apply Forall_forall. intros q Hq. apply in_map_iff in Hq.
    destruct Hq as (q0 & <- & Hq0).
    unfold nonneg in Hnn. rewrite Forall_forall in Hnn. specialize (Hnn q0 Hq0).
    destruct (drop_dust_cases q0) as [[_ ->]|[_ ->]]; lra. }
  repeat split.
  - exact Hnn'.
  - apply Forall_forall. intros q Hq. apply in_map_iff in Hq.
    destruct Hq as (q0 & <- & Hq0).
    destruct (drop_dust_cases q0) as [[H ->]|[_ ->]]; [right; exact H|left; reflexivity].
  - destruct (Qsum_pigeonhole qs Hsum Hlen) as (q & Hq & Hbig).
    apply Qle_trans with (drop_dust q).
    + destruct (drop_dust_cases q) as [[_ ->]|[H _]]; lra.
    + apply Qsum_ge_elem; [exact Hnn'|]. apply in_map. exact Hq.
  - assert (H : Qsum (map drop_dust qs) <= Qsum qs + 0 * len qs).
    { apply Qsum_map_le. apply Forall_forall. intros q Hq.
      unfold nonneg in Hnn. rewrite Forall_forall in Hnn. specialize (Hnn q Hq).
      destruct (drop_dust_cases q) as [[_ ->]|[_ ->]]; lra. }
    lra.
Qed.

Lemma rescale_post (qs : list Q) :
  nonneg qs -> sparse qs -> 1 # 10 <= Qsum qs <= 1 ->
  nonneg (map (scale (total qs)) qs) /\ sparse (map (scale (total qs)) qs)
  /\ Qsum (map (scale (total qs)) qs) == 1.
Proof.
  intros Hnn Hsp [Hlo Hhi]. rewrite <- total_Qsum in Hlo, Hhi.
  unfold nonneg, sparse in *. rewrite Forall_forall in Hnn, Hsp.
  repeat split.
  - apply Forall_forall. intros q Hq. apply in_map_iff in Hq.
    destruct Hq as (q0 & <- & Hq0). apply scale_nonneg; [lra|]. apply Hnn. exact Hq0.
  - apply Forall_forall. intros q Hq. apply in_map_iff in Hq.
    destruct Hq as (q0 & <- & Hq0). unfold scale. rewrite Qred_correct.
    destruct (Hsp q0 Hq0) as [H0|Hbig].
    + left. rewrite H0. field. lra.
    + right. apply Qle_shift_div_l; [lra|].
      apply Qle_trans with ((1 # 50) * 1); [|lra].
      apply Qmult_le_l; lra.
  - rewrite Qsum_map_scale, <- total_Qsum. field. lra.
Qed.

Lemma snap_post (qs : list Q) :
  nonneg qs -> sparse qs -> Qsum qs == 1 -> List.length qs = 10%nat ->
  nonneg (map snap qs) /\ sparse (map snap qs)
  /\ 39 # 40 <= Qsum (map snap qs) <= 41 # 40.
Proof.
  intros Hnn Hsp Hsum Hlen.
  unfold nonneg, sparse in *. rewrite Forall_forall in Hnn, Hsp.
  repeat split.
  - apply Forall_forall. intros q Hq. apply in_map_iff in Hq.
    destruct Hq as (q0 & <- & Hq0). apply snap_nonneg, Hnn, Hq0.
  - apply Forall_forall. intros q Hq. apply in_map_iff in Hq.
    destruct Hq as (q0 & <- & Hq0).
    destruct (Hsp q0 Hq0) as [H0|Hbig];
      [left; apply snap_zero, H0 | right; apply snap_big, Hbig].
  - assert (H : Qsum qs - (1 # 400) * len qs <= Qsum (map snap qs)).
    { apply Qsum_map_ge. apply Forall_forall. intros q _. apply snap_ge. }
    rewrite (len_10 qs Hlen) in H. lra.
  - assert (H : Qsum (map snap qs) <= Qsum qs + (1 # 400) * len qs).
    { apply Qsum_map_le. apply Forall_forall. intros q _. apply snap_le. }
    rewrite (len_10 qs Hlen) in H. lra.
Qed.

(** The weights before the final normalization: no dust, a total within
    2.5% of 1. *)
Lemma snapped_post (qs : list Q) :
  nonneg qs -> List.length qs = 10%nat ->
  nonneg (snappedQ qs) /\ sparse (snappedQ qs)
  /\ 39 # 40 <= Qsum (snappedQ qs) <= 41 # 40.
Proof.
  intros Hnn Hlen. unfold snappedQ.
  destruct (spread_post qs Hnn Hlen) as (Hnn2 & Hsum2 & Hlen2).
  destruct (drop_dust_post _ Hnn2 Hsum2 Hlen2) as (Hnn3 & Hsp3 & Hsum3).
  destruct (rescale_post _ Hnn3 Hsp3 Hsum3) as (Hnn4 & Hsp4 & Hsum4).
  apply snap_post; try assumption.
  rewrite !length_map. exact Hlen2.
Qed.

(** The weights that [normalize] returns: non-negative, summing to 1, and
    none strictly between 0 and 4/205 (so none between 0 and 0.5%). *)
Lemma normalizeQ_post (qs : list Q) :
  nonneg qs -> List.length qs = 10%nat ->
  nonneg (normalizeQ qs)
  /\ Qsum (normalizeQ qs) == 1
  /\ Forall (fun q => q == 0 \/ 4 # 205 <= q) (normalizeQ qs).
Proof.
  intros Hnn Hlen. unfold normalizeQ.
  destruct (snapped_post qs Hnn Hlen) as (Hnn5 & Hsp5 & Hlo & Hhi).
  rewrite <- total_Qsum in Hlo, Hhi.
  destruct (Qle_bool (total (snappedQ qs)) 0) eqn:E.
  { apply Qle_bool_true in E. lra. }
  clear E. unfold nonneg, sparse in *. rewrite Forall_forall in Hnn5, Hsp5.
  repeat split.
  - apply Forall_forall. intros q Hq. apply in_map_iff in Hq.
    destruct Hq as (q0 & <- & Hq0). apply scale_nonneg; [lra|]. apply Hnn5, Hq0.
  - rewrite Qsum_map_scale, <- total_Qsum. field. lra.
  - apply Forall_forall. intros q Hq. apply in_map_iff in Hq.
    destruct Hq as (q0 & <- & Hq0). unfold scale. rewrite Qred_correct.
    destruct (Hsp5 q0 Hq0) as [H0|Hbig].
    + left. rewrite H0. field. lra.
    + right. apply Qle_shift_div_l; [lra|].
      apply Qle_trans with ((4 # 205) * (41 # 40)); [|lra].
      apply Qmult_le_l; lra.
Qed.

End NormalizeSteps.

(* ================================================================== *)
(** * [normalize] on exact numbers *)
(* ================================================================== *)

Section NormalizeExact.
Import Exact NormalizeQ.
Local Open Scope Q_scope.
Local Arguments Qred : simpl never.

Implicit Types (r : Allocations xnum) (qs : list Q).

(** A record with every asset class as a key, each once. *)
Definition complete r : Prop := NoDup (keys r) /\ forall k, In k (keys r).

Lemma isFinite_xnum (x : xnum) : isFinite x = true <-> exists q, x = XFin q.
Proof.
  unfold isFinite. rewrite isNaN_xnum.
  destruct x as [q|s|]; xsimpl.
  - split; [intros _; exists q; reflexivity | reflexivity].
  - destruct s; xsimpl; (split; [discriminate | intros [q H]; discriminate H]).
  - split; [discriminate | intros [q H]; discriminate H].
Qed.

Lemma Qeq_bool_false (a b : Q) : ~ a == b -> Qeq_bool a b = false.
Proof.
  intros H. destruct (Qeq_bool a b) eqn:E; [|reflexivity].
  apply Qeq_bool_eq in E. contradiction.
Qed.

(** *** The statements of [normalize] on a finite value *)

Lemma clamp_XFin (q : Q) : Math_max2 (lit 0) (XFin q) = XFin (clamp q).
Proof.
  unfold Math_max2. rewrite !isNaN_xnum. xsimpl.
  change (Qred 0) with 0. unfold clamp.
  destruct (Qle_bool q 0); reflexivity.
Qed.

Lemma div_by_XFin (t q : Q) : ~ t == 0 -> div_by (XFin t) (Some (XFin q)) = XFin (scale t q).
Proof.
  intros Ht. unfold div_by. xsimpl. unfold Qzero.
  rewrite (Qeq_bool_false _ _ Ht). reflexivity.
Qed.

Lemma drop_dust_XFin (q : Q) :
  (if less (XFin q) (lit 0.02) then lit 0 else XFin q) = XFin (drop_dust q).
Proof.
  xsimpl. change (Qred 0.02) with (1 # 50). unfold drop_dust.
  destruct (Qle_bool (1 # 50) q); reflexivity.
Qed.

Lemma snap_XFin (q : Q) :
  divide (Math_round (times (XFin q) (lit 200))) (lit 200) = XFin (snap q).
Proof.
  xsimpl. change (Qred 200) with 200. reflexivity.
Qed.

Lemma equal_weight : divide (lit 1) (of_nat (List.length ALL_ASSETS)) = XFin (1 # 10).
Proof. reflexivity. Qed.

Lemma sum_XFin qs : sum (map XFin qs) = XFin (total qs).
Proof.
  unfold sum, total. change (lit 0) with (XFin 0). generalize 0.
  induction qs as [|q qs IH]; intros a; simpl; [reflexivity|].
  rewrite <- IH. reflexivity.
Qed.

(** *** The loops *)

(** A loop over a complete record of finite values, in terms of the
    rationals. *)
Lemma loop_values (f : option xnum -> xnum) (g : Q -> Q) r qs :
  complete r -> values r = map XFin qs ->
  (forall q, f (Some (XFin q)) = XFin (g q)) ->
  complete (for_all_assets f r)
  /\ keys (for_all_assets f r) = keys r
  /\ values (for_all_assets f r) = map XFin (map g qs).
Proof.
  intros [Hnd Hall] Hv Hf. unfold complete.
  rewrite (for_all_assets_map f r Hnd Hall).
  rewrite (keys_map (fun v => f (Some v))), (values_map (fun v => f (Some v))), Hv.
  repeat split; try assumption.
  rewrite !map_map. apply map_ext. exact Hf.
Qed.

(** The first loop, over a record that may lack keys. *)
Lemma clamp_loop r :
  NoDup (keys r) -> Forall (fun v => isFinite v = true) (values r) ->
  complete (for_all_assets (fun v => Math_max2 (lit 0) (nullish v)) r)
  /\ exists qs,
       values (for_all_assets (fun v => Math_max2 (lit 0) (nullish v)) r) = map XFin qs
       /\ nonneg qs /\ List.length qs = 10%nat.
Proof.
  intros Hnd Hfin.
  set (r1 := for_all_assets (fun v => Math_max2 (lit 0) (nullish v)) r).
  assert (Hc : complete r1).
  { split; [apply for_all_assets_NoDup; exact Hnd | apply for_all_assets_complete]. }
  split; [exact Hc|].
  assert (Hvals : Forall (fun v => exists q, v = XFin q /\ 0 <= q) (values r1)).
  { apply Forall_forall. intros v Hv.
    apply in_map_iff in Hv. destruct Hv as ([k v'] & Hsnd & Hin). simpl in Hsnd. subst v'.
    apply (In_get r1 k v (proj1 Hc)) in Hin.
    unfold r1 in Hin. rewrite for_all_assets_get in Hin. inversion Hin as [Hv]. clear Hin.
    assert (Hq : exists q, nullish (lookup r k) = XFin q).
    { destruct (lookup r k) as [v0|] eqn:E.
      - apply isFinite_xnum. rewrite Forall_forall in Hfin. apply Hfin.
        apply (get_in_values r k v0 E).
      - exists 0. reflexivity. }
    destruct Hq as [q ->]. rewrite clamp_XFin. exists (clamp q). split; [reflexivity|].
    unfold clamp. destruct (Qle_bool q 0) eqn:E; [lra|].
    apply Qle_bool_false in E. lra. }
  exists (map val (values r1)). repeat split.
  - rewrite map_map. rewrite <- (map_id (values r1)) at 1.
    apply map_ext_in. intros v Hv.
    rewrite Forall_forall in Hvals. destruct (Hvals v Hv) as (q & -> & _). reflexivity.
  - apply Forall_forall. intros q Hq. apply in_map_iff in Hq.
    destruct Hq as (v & <- & Hv).
    rewrite Forall_forall in Hvals. destruct (Hvals v Hv) as (q & -> & Hq). exact Hq.
  - rewrite length_map. apply complete_length; apply Hc.
Qed.

End NormalizeExact.

Section NormalizeRefinement.
Import Exact NormalizeQ.
Local Open Scope Q_scope.
Local Arguments Qred : simpl never.

Implicit Types (r : Allocations xnum) (qs : list Q).

Lemma stage_scale r qs :
  complete r -> values r = map XFin qs -> ~ total qs == 0 ->
  complete (for_all_assets (div_by (sum (values r))) r)
  /\ keys (for_all_assets (div_by (sum (values r))) r) = keys r
  /\ values (for_all_assets (div_by (sum (values r))) r)
     = map XFin (map (scale (total qs)) qs).
Proof.
  intros Hc Hv Ht. rewrite Hv, sum_XFin.
  apply loop_values; [exact Hc | exact Hv |].
  intros q. apply div_by_XFin. exact Ht.
Qed.

Lemma stage_spread r qs :
  complete r -> values r = map XFin qs ->
  complete
    (if strict_eq (sum (values r)) (lit 0)
     then for_all_assets (fun _ => divide (lit 1) (of_nat (List.length ALL_ASSETS))) r
     else for_all_assets (div_by (sum (values r))) r)
  /\ keys
       (if strict_eq (sum (values r)) (lit 0)
        then for_all_assets (fun _ => divide (lit 1) (of_nat (List.length ALL_ASSETS))) r
        else for_all_assets (div_by (sum (values r))) r)
     = keys r
  /\ values
       (if strict_eq (sum (values r)) (lit 0)
        then for_all_assets (fun _ => divide (lit 1) (of_nat (List.length ALL_ASSETS))) r
        else for_all_assets (div_by (sum (values r))) r)
     = map XFin (spread qs).
Proof.
  intros Hc Hv. unfold spread.
  assert (Hcond : strict_eq (sum (values r)) (lit 0) = Qeq_bool (total qs) 0).
  { rewrite Hv, sum_XFin. reflexivity. }
  rewrite Hcond. destruct (Qeq_bool (total qs) 0) eqn:E.
  - apply loop_values; [exact Hc | exact Hv |].
    intros _. apply equal_weight.
  - apply stage_scale; [exact Hc | exact Hv |].
    apply Qeq_bool_neq. exact E.
Qed.

(** The record before the final normalization refines [snappedQ]. *)
Lemma snapped_values r qs :
  complete (for_all_assets (fun v => Math_max2 (lit 0) (nullish v)) r) ->
  values (for_all_assets (fun v => Math_max2 (lit 0) (nullish v)) r) = map XFin qs ->
  nonneg qs -> List.length qs = 10%nat ->
  complete (snapped r)
  /\ keys (snapped r) = keys (for_all_assets (fun v => Math_max2 (lit 0) (nullish v)) r)
  /\ values (snapped r) = map XFin (snappedQ qs).
Proof.
  intros Hc1 Hv1 Hnn Hlen.
  unfold snapped, snappedQ. cbv zeta.
  set (r1 := for_all_assets (fun v => Math_max2 (lit 0) (nullish v)) r) in *.
  destruct (stage_spread r1 qs Hc1 Hv1) as (Hc2 & Hk2 & Hv2).
  set (r2 := if strict_eq (sum (values r1)) (lit 0) then _ else _) in *.
  destruct (spread_post qs Hnn Hlen) as (Hnn2 & Hsum2 & Hlen2).
  destruct (loop_values
              (fun v => if less (nullish v) (lit 0.02) then lit 0 else nullish v)
              drop_dust r2 (spread qs) Hc2 Hv2 drop_dust_XFin) as (Hc3 & Hk3 & Hv3).
  set (r3 := for_all_assets _ r2) in *.
  destruct (drop_dust_post _ Hnn2 Hsum2 Hlen2) as (Hnn3 & Hsp3 & Hsum3).
  assert (Ht3 : ~ total (map drop_dust (spread qs)) == 0).
  { rewrite total_Qsum. lra. }
  destruct (stage_scale r3 _ Hc3 Hv3 Ht3) as (Hc4 & Hk4 & Hv4).
  set (r4 := for_all_assets _ r3) in *.
  destruct (loop_values
              (fun v => divide (Math_round (times (nullish v) (lit 200))) (lit 200))
              snap r4 _ Hc4 Hv4 snap_XFin) as (Hc5 & Hk5 & Hv5).
  split; [exact Hc5 | split].
  - rewrite Hk5, Hk4, Hk3, Hk2. reflexivity.
  - exact Hv5.
Qed.

(** [normalize] on exact numbers refines [normalizeQ]. *)
Lemma normalize_values r qs :
  complete (for_all_assets (fun v => Math_max2 (lit 0) (nullish v)) r) ->
  values (for_all_assets (fun v => Math_max2 (lit 0) (nullish v)) r) = map XFin qs ->
  nonneg qs -> List.length qs = 10%nat ->
  complete (normalize r)
  /\ keys (normalize r) = keys (for_all_assets (fun v => Math_max2 (lit 0) (nullish v)) r)
  /\ values (normalize r) = map XFin (normalizeQ qs).
Proof.
  intros Hc1 Hv1 Hnn Hlen.
  destruct (snapped_values r qs Hc1 Hv1 Hnn Hlen) as (Hc5 & Hk5 & Hv5).
  destruct (snapped_post qs Hnn Hlen) as (_ & _ & Hlo & _).
  unfold normalize, normalizeQ. cbv zeta.
  assert (Hcond : less (lit 0) (sum (values (snapped r)))
                  = negb (Qle_bool (total (snappedQ qs)) 0)).
  { rewrite Hv5, sum_XFin. reflexivity. }
  rewrite Hcond. destruct (Qle_bool (total (snappedQ qs)) 0) eqn:E.
  { apply Qle_bool_true in E. rewrite total_Qsum in E. lra. }
  cbn [negb].
  assert (Ht : ~ total (snappedQ qs) == 0) by (rewrite total_Qsum; lra).
  destruct (stage_scale (snapped r) _ Hc5 Hv5 Ht) as (Hc6 & Hk6 & Hv6).
  split; [exact Hc6 | split].
  - rewrite Hk6. exact Hk5.
  - exact Hv6.
Qed.

End NormalizeRefinement.

(** ** What [normalize] returns *)

Section NormalizeClaims.
Import Exact NormalizeQ.
Local Open Scope Q_scope.
Local Arguments Qred : simpl never.


Lemma complete_get (r : Allocations xnum) (k : AssetClass) :
  complete r -> exists w, lookup r k = Some w /\ In w (values r).
Proof.
  intros [_ Hall]. destruct (get_Some_of_key r k (Hall k)) as [w Hw].
  exists w. split; [exact Hw | apply (get_in_values r k w Hw)].
Qed.

End NormalizeClaims.




(** ** A second pass of [normalize] *)

Section NormalizeTwice.
Import Exact NormalizeQ.
Local Open Scope Q_scope.
Local Arguments Qred : simpl never.












End NormalizeTwice.




(** What rounding does to 64.5% / 2% / 7.5% / 6.5% / 6.5% / 13%: on exact
    numbers the snapped weights sum to 1 and the record is a fixed point;
    on doubles they sum to 0.9999999999999999, the final normalization
    lifts every weight by a few units in the last place, and the second
    pass drops the 2% position. *)
Lemma normalize_twice_rounds_on_doubles :
  sum (values (snapped (Sample.on_grid_2pct (num := Exact.xnum)))) = lit 1
  /\ normalize (normalize Sample.on_grid_2pct)
     = normalize (Sample.on_grid_2pct (num := Exact.xnum))
  /\ less (sum (values (snapped (Sample.on_grid_2pct (num := float))))) (lit 1) = true
  /\ get AssetClass_eqb (normalize (normalize (Sample.on_grid_2pct (num := float))))
        intlEquities = Some (lit 0).
Proof. repeat split; vm_compute; reflexivity. Qed.

(* ================================================================== *)
(** * The loop over the generations *)
(* ================================================================== *)

(** ** Lists: ordered pairs, the last element *)

Section PairFacts.
Context {X : Type} (R : X -> X -> Prop).

Lemma pairs_app_one (l : list X) (x : X) :
  ForallOrdPairs R l -> Forall (fun y => R y x) l -> ForallOrdPairs R (l ++ [x]).
Proof.
  induction 1 as [|a l Ha Hl IH]; intros Hx; simpl.
  - constructor; constructor.
  - inversion Hx as [|? ? Hax Hx']; subst.
    constructor; [|apply IH; exact Hx'].
    apply Forall_app. split; [exact Ha | constructor; [exact Hax | constructor]].
Qed.

Lemma pairs_nth (l : list X) :
  ForallOrdPairs R l ->
  forall i j a b, (i < j)%nat -> nth_error l i = Some a -> nth_error l j = Some b -> R a b.
Proof.
  induction 1 as [|x l Hx Hl IH]; intros i j a b Hij Hi Hj.
  - destruct i; discriminate.
  - destruct j as [|j]; [lia|]. simpl in Hj. destruct i as [|i]; simpl in Hi.
    + inversion Hi; subst. rewrite Forall_forall in Hx. apply Hx.
      eapply nth_error_In. exact Hj.
    + apply (IH i j); [lia | exact Hi | exact Hj].
Qed.

Lemma Forall_removelast (Q : X -> Prop) (l : list X) :
  Forall Q l -> Forall Q (removelast l).
Proof.
  induction 1 as [|x l Hx Hl IH]; simpl; [constructor|].
  destruct l; [constructor | constructor; assumption].
Qed.

Lemma pairs_removelast (l : list X) :
  ForallOrdPairs R l -> ForallOrdPairs R (removelast l).
Proof.
  induction 1 as [|x l Hx Hl IH]; simpl; [constructor|].
  destruct l as [|y l]; [constructor|].
  constructor; [apply (Forall_removelast _ (y :: l)); exact Hx | exact IH].
Qed.

Lemma sorted_removelast (l : list X) :
  StronglySorted R l -> StronglySorted R (removelast l).
Proof.
  induction 1 as [|x l Hl IH Hx]; simpl; [constructor|].
  destruct l as [|y l]; [constructor|].
  constructor; [exact IH | apply (Forall_removelast _ (y :: l)); exact Hx].
Qed.

Lemma removelast_length (l : list X) :
  List.length (removelast l) = (List.length l - 1)%nat.
Proof.
  induction l as [|x l IH]; [reflexivity|].
  simpl. destruct l as [|y l]; [reflexivity|].
  simpl in *. rewrite IH. lia.
Qed.

End PairFacts.

(** ** Sorting by a comparator that follows an order *)

Section SortBy.
Context {num : Type} {N : Number num} {X : Type}.
Variables (cmp : X -> X -> num) (R : X -> X -> Prop) (valid : X -> Prop).
Hypothesis stays : forall x y, valid x -> valid y -> less (lit 0) (cmp x y) = false -> R x y.
Hypothesis moves : forall x y, valid x -> valid y -> less (lit 0) (cmp x y) = true -> R y x.
Hypothesis R_trans : forall x y z, valid x -> valid y -> valid z -> R x y -> R y z -> R x z.

Lemma sort_insert_sorted (x : X) (l : list X) :
  valid x -> Forall valid l -> StronglySorted R l -> StronglySorted R (sort_insert cmp x l).
Proof.
  intros Hx Hl Hs. induction Hs as [|y l Hs IH Hy]; simpl.
  - constructor; constructor.
  - inversion Hl as [|? ? Hvy Hl']; subst.
    destruct (less (lit 0) (cmp x y)) eqn:E.
    + constructor; [apply IH; exact Hl'|].
      apply Forall_forall. intros z Hz.
      apply sort_insert_In in Hz. destruct Hz as [->|Hz].
      * apply moves; assumption.
      * rewrite Forall_forall in Hy. apply Hy. exact Hz.
    + constructor; [constructor; assumption|].
      constructor; [apply stays; assumption|].
      apply Forall_forall. intros z Hz.
      rewrite Forall_forall in Hy, Hl'.
      apply (R_trans x y z); auto.
Qed.

Lemma sort_sorted (l : list X) : Forall valid l -> StronglySorted R (sort cmp l).
Proof.
  induction l as [|x l IH]; intros H; simpl.
  - constructor.
  - inversion H as [|? ? Hx Hl]; subst.
    apply sort_insert_sorted; [exact Hx | | apply IH; exact Hl].
    apply (Permutation_Forall (sort_perm cmp l)). exact Hl.
Qed.

End SortBy.

Section PairSort.
Context {num : Type} {N : Number num} {X : Type} (cmp : X -> X -> num) (R : X -> X -> Prop).
Hypothesis R_sym : forall x y, R x y -> R y x.

Lemma pairs_sort_insert (x : X) (l : list X) :
  ForallOrdPairs R l -> Forall (R x) l -> ForallOrdPairs R (sort_insert cmp x l).
Proof.
  induction 1 as [|y l Hy Hl IH]; intros Hx; simpl.
  - constructor; constructor.
  - inversion Hx as [|? ? Hxy Hx']; subst.
    destruct (less (lit 0) (cmp x y)).
    + constructor; [|apply IH; exact Hx'].
      apply (Permutation_Forall (sort_insert_perm cmp x l)).
      constructor; [apply R_sym; exact Hxy | exact Hy].
    + constructor; [exact Hx | constructor; assumption].
Qed.

Lemma pairs_sort (l : list X) : ForallOrdPairs R l -> ForallOrdPairs R (sort cmp l).
Proof.
  induction 1 as [|x l Hx Hl IH]; simpl; [constructor|].
  apply pairs_sort_insert; [exact IH|].
  apply (Permutation_Forall (sort_perm cmp l)). exact Hx.
Qed.

End PairSort.

Section HallFacts.
Context {num : Type} {N : Number num} {L : OrderLaws N} (P : Platform num).
Local Open Scope js_scope.

Lemma distance_sym (a b : Portfolio num) : distance P a b = distance P b a.
Proof.
  unfold distance. f_equal.
  generalize (lit 0 : num). induction ALL_ASSETS as [|k ks IH]; intros d; simpl.
  - reflexivity.
  - rewrite (square_minus_sym (weight a k) (weight b k)). apply IH.
Qed.

Lemma apart_sym (a b : EvolvedPortfolio num) : apart P a b -> apart P b a.
Proof. unfold apart. rewrite distance_sym. trivial. Qed.

Lemma pairs_apart (l : list (EvolvedPortfolio num)) :
  ForallOrdPairs (apart P) l -> pairwise_apart P l.
Proof.
  intros H i j a b Hij Hi Hj.
  destruct (Nat.lt_ge_cases i j) as [Hlt|Hge].
  - exact (pairs_nth _ l H i j a b Hlt Hi Hj).
  - apply apart_sym. apply (pairs_nth _ l H j i b a); [lia | exact Hj | exact Hi].
Qed.

Lemma isDuplicate_false (hall : list (EvolvedPortfolio num)) (top : EvolvedPortfolio num) :
  isDuplicate P hall top = false <-> Forall (fun h => apart P h top) hall.
Proof.
  unfold isDuplicate, apart. induction hall as [|h hall IH]; simpl.
  - split; [constructor | reflexivity].
  - rewrite orb_false_iff, IH. split.
    + intros [H1 H2]. constructor; assumption.
    + intros H. inversion H; subst. split; assumption.
Qed.

(** Sorting by [b.fitness - a.fitness] puts candidates whose fitness is a
    number in descending order of fitness. *)
Lemma sort_descending (l : list (EvolvedPortfolio num)) :
  Forall (fun h => isNaN (fitness h) = false) l ->
  descending_by_fitness (sort (@by_fitness_desc num N) l).
Proof.
  unfold descending_by_fitness.
  apply (sort_sorted (@by_fitness_desc num N) _ (fun h => isNaN (fitness h) = false)).
  - intros x y _ _. unfold by_fitness_desc. rewrite less_minus. trivial.
  - intros x y _ _. unfold by_fitness_desc. rewrite less_minus. apply less_asym.
  - intros x y z Hx Hy Hz Hxy Hyz.
    apply (not_less_trans (fitness z) (fitness y) (fitness x)); assumption.
Qed.

Lemma kept_nil : hall_kept P [].
Proof.
  repeat split; simpl; [lia | constructor | constructor | left; lia].
Qed.

Lemma kept_one (h : EvolvedPortfolio num) : hall_kept P [h].
Proof.
  repeat split; simpl; [lia | | | left; lia].
  - constructor; constructor.
  - constructor; constructor.
Qed.

Lemma track_kept (hall : list (EvolvedPortfolio num)) (top : EvolvedPortfolio num) (gen : nat) :
  hall_kept P hall -> hall_kept P (track_hallOfFame P hall top gen).
Proof.
  intros (Hlen & Hsort & Hpairs & Hnum). unfold track_hallOfFame.
  destruct hall as [|h0 hall].
  - destruct (negb (isDuplicate P [] top)); [|apply kept_nil].
    cbn. apply kept_one.
  - destruct (less (fitness h0 * lit 0.95) (fitness top)) eqn:Efit;
      [|repeat split; assumption].
    destruct (isDuplicate P (h0 :: hall) top) eqn:Edup; cbn [negb];
      [repeat split; assumption|].
    apply isDuplicate_false in Edup.
    apply less_not_NaN in Efit. destruct Efit as [Hh0 Htop].
    apply times_not_NaN in Hh0. destruct Hh0 as [Hh0 _].
    set (new := with_generation gen (parentage top) top).
    assert (Hall : Forall (fun h => isNaN (fitness h) = false) ((h0 :: hall) ++ [new])).
    { apply Forall_app. split; [|constructor; [exact Htop | constructor]].
      destruct Hnum as [Hone|Hnum]; [|exact Hnum].
      destruct hall; [constructor; [exact Hh0 | constructor] | simpl in Hone; lia]. }
    set (sorted := sort (@by_fitness_desc num N) ((h0 :: hall) ++ [new])).
    assert (Hslen : List.length sorted = S (List.length (h0 :: hall))).
    { unfold sorted. rewrite sort_length, length_app. simpl. lia. }
    assert (Hssort : descending_by_fitness sorted) by (apply sort_descending; exact Hall).
    assert (Hspairs : ForallOrdPairs (apart P) sorted).
    { apply pairs_sort; [exact apart_sym|].
      apply pairs_app_one; [exact Hpairs | exact Edup]. }
    assert (Hsnum : Forall (fun h => isNaN (fitness h) = false) sorted).
    { apply (Permutation_Forall (sort_perm _ _)). exact Hall. }
    destruct (5 <? List.length sorted)%nat eqn:E5.
    + split; [rewrite removelast_length; simpl in *; lia|].
      split; [apply sorted_removelast; exact Hssort|].
      split; [apply pairs_removelast; exact Hspairs|].
      right. apply Forall_removelast. exact Hsnum.
    + apply Nat.ltb_ge in E5.
      split; [exact E5|]. split; [exact Hssort|]. split; [exact Hspairs|].
      right. exact Hsnum.
Qed.

Lemma kept_ok (hall : list (EvolvedPortfolio num)) : hall_kept P hall -> hall_ok P hall.
Proof.
  intros (Hlen & Hsort & Hpairs & _).
  split; [exact Hlen|]. split; [exact Hsort|]. apply pairs_apart. exact Hpairs.
Qed.

End HallFacts.

(** ** One pass of the loop *)

Lemma foldM_app {St X Y} (body : X -> Y -> M St X) (xs ys : list Y) (acc : X) (s : St) :
  foldM body (xs ++ ys) acc s = bind (foldM body xs acc) (fun acc' => foldM body ys acc') s.
Proof.
  revert acc s. induction xs as [|x xs IH]; intros acc s; simpl.
  - reflexivity.
  - unfold bind in *. destruct (body acc x s) as [[a s1]|e]; [apply IH | reflexivity].
Qed.

Section GenerationFacts.
Context {num : Type} {N : Number num} (P : Platform num) (A : Assumptions num).
Variable ambient : nat -> Ambient num.
Variables (seedPortfolio : Portfolio num) (config : EvolutionConfig num).

Lemma snapshot_Some (gen : nat) (pop : list (EvolvedPortfolio num)) (snap : GenerationSnapshot num) :
  snapshot P gen pop = Some snap ->
  gs_generation snap = gen
  /\ population snap = pop
  /\ at_index pop (lit 0) = Some (best snap).
Proof.
  unfold snapshot.
  destruct (at_index pop (lit 0)) as [b|]; [|discriminate].
  destruct (last (map Some pop) None) as [w|]; [|discriminate].
  destruct (at_index pop _) as [m|]; [|discriminate].
  intros H. inversion H. cbn. repeat split.
Qed.

Lemma fill_length simCfg gen pop :
  forall missing st st' rest,
    fill P A ambient config simCfg gen pop missing st = Ok (rest, st') ->
    List.length rest = missing.
Proof.
  induction missing as [|missing IH]; intros st st' rest H; simpl in H.
  - apply ret_Ok in H. destruct H as [-> _]. reflexivity.
  - bind_inv H. bind_inv H. apply ret_Ok in H. destruct H as [-> _].
    simpl. f_equal. eapply IH. eassumption.
Qed.

(** What one pass of the loop over the generations leaves. *)
Lemma generation_step_Ok (l l' : Loop) (gen : nat) (st st' : EvoState) :
  generation_step P A ambient config l gen st = Ok (l', st') ->
  exists snap rest,
    snapshot P gen (sort (@by_fitness_desc num N) (l_population l)) = Some snap
    /\ List.length rest
       = (populationSize config
          - List.length (firstn (eliteCount config)
                           (sort (@by_fitness_desc num N) (l_population l))))%nat
    /\ l_population l'
       = map (with_generation (S gen) "elite"%string)
           (firstn (eliteCount config) (sort (@by_fitness_desc num N) (l_population l)))
         ++ rest
    /\ l_hallOfFame l' = track_hallOfFame P (l_hallOfFame l) (best snap) gen
    /\ l_generations l' = l_generations l ++ [snap].
Proof.
  unfold generation_step. intros H.
  bind_inv H. apply of_option_Ok in H0. destruct H0 as [Hsnap ->].
  bind_inv H. apply ret_Ok in H. destruct H as [-> _].
  apply fill_length in H0. rewrite length_map in H0.
  exists x, x0. cbn. repeat split; assumption.
Qed.

Lemma evolve_loop_0 (st st' : EvoState) (l : Loop) :
  evolve_loop P A ambient seedPortfolio config 0 st = Ok (l, st') ->
  List.length (l_population l) = populationSize config
  /\ l_hallOfFame l = [] /\ l_generations l = [].
Proof.
  unfold evolve_loop. intros H. bind_inv H. simpl in H.
  apply ret_Ok in H. destruct H as [-> _]. cbn.
  apply forM_length in H0. repeat split. exact H0.
Qed.

(** The loop run for one more generation is the loop followed by one pass. *)
Lemma evolve_loop_S (n : nat) (st st' : EvoState) (l' : Loop) :
  evolve_loop P A ambient seedPortfolio config (S n) st = Ok (l', st') ->
  exists l st1,
    evolve_loop P A ambient seedPortfolio config n st = Ok (l, st1)
    /\ generation_step P A ambient config l n st1 = Ok (l', st').
Proof.
  unfold evolve_loop. intros H. bind_inv H.
  rewrite seq_S, foldM_app in H. cbn [Nat.add] in H.
  bind_inv H. simpl in H. bind_inv H. apply ret_Ok in H. destruct H as [-> ->].
  exists x0, s0. split; [|exact H2].
  unfold bind. rewrite H0. exact H1.
Qed.

Lemma evolvePortfolio_Ok (now : num) (r : EvolutionResult num) :
  evolvePortfolio P A ambient seedPortfolio config now = Ok r ->
  exists st l st' snap,
    evolve_loop P A ambient seedPortfolio config (generations config) st = Ok (l, st')
    /\ snapshot P (generations config) (sort (@by_fitness_desc num N) (l_population l))
       = Some snap
    /\ er_generations r = l_generations l ++ [snap]
    /\ champion r = best snap
    /\ hallOfFame r = match l_hallOfFame l with [] => [best snap] | _ => l_hallOfFame l end.
Proof.
  unfold evolvePortfolio.
  destruct (bind _ _ _) as [[r0 st0]|e] eqn:E; [|discriminate].
  intros H. inversion H; subst r0; clear H.
  bind_inv E. bind_inv E. apply of_option_Ok in E1. destruct E1 as [Hsnap ->].
  apply ret_Ok in E. destruct E as [-> _].
  eexists _, x, s, x0. split; [exact E0|]. cbn. repeat split. exact Hsnap.
Qed.

(** The loop behind a result, from the state in which the run starts. *)
Lemma evolvePortfolio_start (now : num) (r : EvolutionResult num) :
  evolvePortfolio P A ambient seedPortfolio config now = Ok r ->
  exists l st',
    evolve_loop P A ambient seedPortfolio config (generations config)
      {| evo_rng := SeededRNG_new (match evo_seed config with Some s => s | None => now end);
         sim_calls := 0 |} = Ok (l, st')
    /\ hallOfFame r
       = match l_hallOfFame l with [] => [champion r] | _ => l_hallOfFame l end.
Proof.
  unfold evolvePortfolio.
  destruct (bind _ _ _) as [[r0 st0]|e] eqn:E; [|discriminate].
  intros H. inversion H; subst r0; clear H.
  bind_inv E. bind_inv E. apply of_option_Ok in E1. destruct E1 as [Hsnap ->].
  apply ret_Ok in E. destruct E as [-> _].
  exists x, s. split; [exact E0 | reflexivity].
Qed.
End GenerationFacts.

(** ** The hall of fame along the loop *)

Section HallLoop.
Context {num : Type} {N : Number num} {L : OrderLaws N} (P : Platform num) (A : Assumptions num).
Variable ambient : nat -> Ambient num.
Variables (seedPortfolio : Portfolio num) (config : EvolutionConfig num).

Lemma evolve_loop_kept :
  forall upto st l st',
    evolve_loop P A ambient seedPortfolio config upto st = Ok (l, st') ->
    hall_kept P (l_hallOfFame l).
Proof.
  induction upto as [|n IH]; intros st l st' H.
  - apply evolve_loop_0 in H. destruct H as (_ & -> & _). apply kept_nil.
  - apply evolve_loop_S in H. destruct H as (l0 & st1 & H0 & Hstep).
    apply generation_step_Ok in Hstep.
    destruct Hstep as (snap & rest & _ & _ & _ & -> & _).
    apply track_kept. eapply IH. exact H0.
Qed.

End HallLoop.

Lemma In_removelast {X} (x : X) (l : list X) : In x (removelast l) -> In x l.
Proof.
  induction l as [|y l IH]; simpl; [trivial|].
  destruct l as [|z l]; [contradiction|].
  intros [->|H]; [left; reflexivity | right; apply IH; exact H].
Qed.

Section Admission.
Context {num : Type} {N : Number num} (P : Platform num).
Local Open Scope js_scope.

(** Whatever the hall of fame holds after a generation was there before,
    or is the best candidate of the generation, admitted because no entry
    is at a distance below 0.05 and the hall was empty or its fitness is
    above 0.95 times that of the first entry. *)
Lemma track_hallOfFame_In (hall : list (EvolvedPortfolio num)) top gen h :
  In h (track_hallOfFame P hall top gen) ->
  In h hall
  \/ (h = with_generation gen (parentage top) top
      /\ isDuplicate P hall top = false
      /\ match hall with
         | [] => True
         | h0 :: _ => less (fitness h0 * lit 0.95) (fitness top) = true
         end).
Proof.
  unfold track_hallOfFame.
  set (cond := match hall with [] => true | h0 :: _ => _ end).
  destruct cond eqn:Ec; [|left; assumption].
  destruct (isDuplicate P hall top) eqn:Ed; cbn [negb]; [left; assumption|].
  cbv zeta.
  intros H.
  assert (H' : In h (hall ++ [with_generation gen (parentage top) top])).
  { apply (Permutation_in h (Permutation_sym (sort_perm (@by_fitness_desc num N) _))).
    destruct (5 <? _)%nat; [apply In_removelast|]; exact H. }
  apply in_app_or in H'. destruct H' as [H'|[<-|[]]]; [left; exact H'|].
  right. split; [reflexivity|]. split; [reflexivity|].
  subst cond. destruct hall; [exact I | exact Ec].
Qed.

End Admission.


Section Shape.
Context {num : Type} {N : Number num} (P : Platform num) (A : Assumptions num).
Variable ambient : nat -> Ambient num.
Variables (seedPortfolio : Portfolio num) (config : EvolutionConfig num).

Lemma evolve_loop_shape :
  forall upto st l st',
    evolve_loop P A ambient seedPortfolio config upto st = Ok (l, st') ->
    List.length (l_population l) = populationSize config
    /\ map (@gs_generation num) (l_generations l) = seq 0 upto
    /\ Forall (fun g => List.length (population g) = populationSize config)
         (l_generations l).
Proof.
  induction upto as [|n IH]; intros st l st' H.
  - apply evolve_loop_0 in H. destruct H as (Hpop & _ & ->).
    split; [exact Hpop|]. split; [reflexivity | constructor].
  - apply evolve_loop_S in H. destruct H as (l0 & st1 & H0 & Hstep).
    apply IH in H0. destruct H0 as (Hpop & Hgen & Hsizes).
    apply generation_step_Ok in Hstep.
    destruct Hstep as (snap & rest & Hsnap & Hrest & -> & _ & ->).
    apply snapshot_Some in Hsnap. destruct Hsnap as (Hg & Hp & _).
    split; [|split].
    + rewrite length_app, length_map, Hrest.
      rewrite length_firstn, sort_length, Hpop. lia.
    + rewrite map_app, Hgen, seq_S. simpl. rewrite Hg. reflexivity.
    + apply Forall_app. split; [exact Hsizes|].
      constructor; [|constructor]. rewrite Hp, sort_length. exact Hpop.
Qed.

End Shape.


(** ** Neighbouring snapshots *)

Section Neighbours.
Context {X : Type} (R : X -> X -> Prop).

Lemma nth_error_last (l : list X) :
  nth_error l (List.length l - 1) = List.last (map Some l) None.
Proof.
  induction l as [|x l IH]; [reflexivity|].
  destruct l as [|y l]; [reflexivity|].
  replace (List.length (x :: y :: l) - 1)%nat with (S (List.length (y :: l) - 1))
    by (simpl; lia).
  exact IH.
Qed.

Lemma consecutive_app_one (l : list X) (x : X) :
  consecutive R l ->
  (forall a, List.last (map Some l) None = Some a -> R a x) ->
  consecutive R (l ++ [x]).
Proof.
  intros Hl Hx i a b Ha Hb.
  destruct (Nat.lt_ge_cases (S i) (List.length l)) as [Hlt|Hge].
  - rewrite nth_error_app1 in Ha, Hb by lia. exact (Hl i a b Ha Hb).
  - assert (Hi : S i = List.length l).
    { apply Nat.le_antisymm; [|exact Hge].
      assert (Hsome : nth_error (l ++ [x]) (S i) <> None) by (rewrite Hb; discriminate).
      apply nth_error_Some in Hsome. rewrite length_app in Hsome. simpl in Hsome. lia. }
    rewrite nth_error_app1 in Ha by lia.
    rewrite nth_error_app2 in Hb by lia.
    rewrite Hi, Nat.sub_diag in Hb. inversion Hb; subst b.
    apply Hx. rewrite <- nth_error_last.
    replace (List.length l - 1)%nat with i by lia. exact Ha.
Qed.

End Neighbours.

Section Elitism.
Context {num : Type} {N : Number num} (P : Platform num) (A : Assumptions num).
Variable ambient : nat -> Ambient num.
Variables (seedPortfolio : Portfolio num) (config : EvolutionConfig num).

Lemma evolve_loop_elite :
  forall upto st l st',
    evolve_loop P A ambient seedPortfolio config upto st = Ok (l, st') ->
    consecutive (elite_survives config) (l_generations l)
    /\ Forall (taken P) (l_generations l)
    /\ forall g c,
        List.last (map Some (l_generations l)) None = Some g ->
        In c (firstn (eliteCount config) (population g)) ->
        In (with_generation upto "elite"%string c) (l_population l).
Proof.
  induction upto as [|n IH]; intros st l st' H.
  - apply evolve_loop_0 in H. destruct H as (_ & _ & ->).
    split; [|split].
    + intros [|i] a b Ha; discriminate.
    + constructor.
    + intros g c Hg. discriminate.
  - apply evolve_loop_S in H. destruct H as (l0 & st1 & H0 & Hstep).
    apply IH in H0. destruct H0 as (Hcons & Htaken & Hlast).
    apply generation_step_Ok in Hstep.
    destruct Hstep as (snap & rest & Hsnap & _ & -> & _ & ->).
    pose proof (snapshot_Some _ _ _ _ Hsnap) as (Hg & Hp & _).
    split; [|split].
    + apply consecutive_app_one; [exact Hcons|].
      intros g Hlg c Hc. rewrite Hg, Hp.
      apply (Permutation_in _ (sort_perm _ _)). apply (Hlast g c Hlg Hc).
    + apply Forall_app. split; [exact Htaken|].
      constructor; [|constructor]. exists (l_population l0). rewrite Hg. exact Hsnap.
    + intros g c Hlg Hc. rewrite map_app in Hlg. cbn [map] in Hlg. rewrite last_last in Hlg.
      inversion Hlg; subst g. rewrite Hp in Hc.
      apply in_or_app. left. apply in_map. exact Hc.
Qed.

Lemma evolvePortfolio_elite (now : num) (r : EvolutionResult num) :
  evolvePortfolio P A ambient seedPortfolio config now = Ok r ->
  consecutive (elite_survives config) (er_generations r)
  /\ Forall (taken P) (er_generations r).
Proof.
  intros H. apply evolvePortfolio_Ok in H.
  destruct H as (st & l & st' & snap & Hloop & Hsnap & -> & _ & _).
  apply evolve_loop_elite in Hloop. destruct Hloop as (Hcons & Htaken & Hlast).
  pose proof (snapshot_Some _ _ _ _ Hsnap) as (Hg & Hp & _).
  split.
  - apply consecutive_app_one; [exact Hcons|].
    intros g Hlg c Hc. rewrite Hg, Hp.
    apply (Permutation_in _ (sort_perm _ _)). apply (Hlast g c Hlg Hc).
  - apply Forall_app. split; [exact Htaken|].
    constructor; [|constructor]. exists (l_population l). rewrite Hg. exact Hsnap.
Qed.

Context {L : OrderLaws N}.
Hypothesis index_0 : to_integer (lit 0 : num) = Some 0.

(** In a snapshot whose candidates all have a fitness that is a number, no
    candidate has a fitness above that of [best]. *)
Lemma best_is_highest (g : GenerationSnapshot num) :
  taken P g ->
  Forall (fun c => isNaN (fitness c) = false) (population g) ->
  nth_error (population g) 0 = Some (best g)
  /\ forall c, In c (population g) -> less (fitness (best g)) (fitness c) = false.
Proof.
  intros (pop & Hsnap) Hnum.
  apply snapshot_Some in Hsnap. destruct Hsnap as (_ & Hp & Hbest).
  unfold at_index in Hbest. rewrite index_0 in Hbest.
  assert (Hb : nth_error (sort (@by_fitness_desc num N) pop) 0 = Some (best g))
    by exact Hbest.
  clear Hbest. rewrite Hp. split; [exact Hb|].
  rewrite Hp in Hnum.
  assert (Hs : descending_by_fitness (sort (@by_fitness_desc num N) pop)).
  { apply sort_descending.
    apply (Permutation_Forall (Permutation_sym (sort_perm (@by_fitness_desc num N) pop))).
    exact Hnum. }
  destruct (sort (@by_fitness_desc num N) pop) as [|b rest]; [discriminate|].
  cbn in Hb. inversion Hb; subst b.
  intros c [<-|Hc].
  - destruct (less (fitness (best g)) (fitness (best g))) eqn:E; [|reflexivity].
    rewrite (less_asym _ _ E) in E. discriminate.
  - inversion Hs as [|? ? _ Hhd]; subst.
    rewrite Forall_forall in Hhd. apply Hhd. exact Hc.
Qed.

(** With an elite of one or more, the best fitness of a snapshot is not
    below that of the snapshot before, as long as every fitness is a
    number. *)
Lemma best_fitness_kept (now : num) (r : EvolutionResult num) :
  evolvePortfolio P A ambient seedPortfolio config now = Ok r ->
  (1 <= eliteCount config)%nat ->
  fitness_is_number r = true ->
  consecutive (fun g g' => less (fitness (best g')) (fitness (best g)) = false)
    (er_generations r).
Proof.
  intros H Helite Hnum.
  apply evolvePortfolio_elite in H. destruct H as (Hcons & Htaken).
  unfold fitness_is_number in Hnum. rewrite forallb_forall in Hnum.
  rewrite Forall_forall in Htaken.
  assert (Hnum' : forall g, In g (er_generations r) ->
                   Forall (fun c => isNaN (fitness c) = false) (population g)).
  { intros g Hg. apply Forall_forall. intros c Hc.
    specialize (Hnum g Hg). rewrite forallb_forall in Hnum.
    apply negb_true_iff. apply Hnum. exact Hc. }
  intros i g g' Hi Hi'.
  pose proof (nth_error_In _ _ Hi) as Hg.
  pose proof (nth_error_In _ _ Hi') as Hg'.
  destruct (best_is_highest g (Htaken g Hg) (Hnum' g Hg)) as (Hhead & _).
  destruct (best_is_highest g' (Htaken g' Hg') (Hnum' g' Hg')) as (_ & Hhigh).
  specialize (Hcons i g g' Hi Hi' (best g)).
  change (fitness (best g))
    with (fitness (with_generation (gs_generation g') "elite"%string (best g))).
  apply Hhigh. apply Hcons.
  destruct (population g) as [|b rest]; [discriminate|].
  cbn in Hhead. inversion Hhead; subst b.
  destruct (eliteCount config); [lia|]. left. reflexivity.
Qed.

End Elitism.

(** ** What a run keeps *)

(** A run on exact numbers with two candidates per generation, one of them
    kept as the elite: it ends with two entries in the hall of fame, every
    fitness is a number, and the best fitness rises from one snapshot to
    the next at least once. *)
Lemma sample_evolution :
  match Sample.evolveX Sample.sixty_forty (Sample.evolution_config 2 2 1 20 1) with
  | Ok r =>
      (2 <=? List.length (hallOfFame r))%nat
      && fitness_is_number r
      && existsb (fun gg => less (fitness (best (fst gg))) (fitness (best (snd gg))))
           (combine (er_generations r) (tl (er_generations r)))
  | Throw _ => false
  end = true.
Proof. vm_compute. reflexivity. Qed.




(** X1.  At every point of the loop over the generations the hall of fame
    holds at most five entries, in descending order of fitness, and no two
    of its entries are at a distance below 0.05 (the distance that
    [Math.sqrt] returns; an entry at exactly 0.05 is no duplicate). *)
Theorem hallOfFame_during_evolution :
  forall (num : Type) (N : Number num) (L : OrderLaws N)
         (P : Platform num) (A : Assumptions num) (ambient : nat -> Ambient num)
         seedPortfolio config upto st l st',
    evolve_loop P A ambient seedPortfolio config upto st = Ok (l, st') ->
    hall_ok P (l_hallOfFame l).
Proof.
  intros until st'. intros H. apply kept_ok.
  eapply evolve_loop_kept. exact H.
Qed.

Lemma hallOfFame_during_evolution_witness :
  exists l st',
    Sample.loopX Sample.sixty_forty (Sample.evolution_config 2 2 1 20 1) 1 2 = Ok (l, st')
    /\ (2 <= List.length (l_hallOfFame l))%nat
    /\ hall_ok Sample.platformX (l_hallOfFame l).
Proof.
  pose proof sample_evolution as H.
  destruct (evolvePortfolio _ _ _ _ _ _) as [r|e] eqn:E; [|discriminate].
  apply andb_prop in H. destruct H as [H _].
  apply andb_prop in H. destruct H as [H _]. apply Nat.leb_le in H.
  apply evolvePortfolio_start in E. destruct E as (l & st' & Hloop & Hhall).
  exists l, st'. split; [exact Hloop|]. split.
  - rewrite Hhall in H. destruct (l_hallOfFame l); [simpl in H; lia | exact H].
  - exact (hallOfFame_during_evolution _ _ exact_order_laws _ _ _ _ _ _ _ _ _ Hloop).
Defined.

(** X2.  The hall of fame that [evolvePortfolio] returns is never empty
    (without an entry it is the champion alone) and has the same shape:
    at most five entries, descending fitness, no two entries at a distance
    below 0.05. *)
Theorem hallOfFame_after_evolution :
  forall (num : Type) (N : Number num) (L : OrderLaws N)
         (P : Platform num) (A : Assumptions num) (ambient : nat -> Ambient num)
         seedPortfolio config now r,
    evolvePortfolio P A ambient seedPortfolio config now = Ok r ->
    hallOfFame r <> [] /\ hall_ok P (hallOfFame r).
Proof.
  intros until r. intros H.
  apply evolvePortfolio_Ok in H.
  destruct H as (st & l & st' & snap & Hloop & _ & _ & _ & ->).
  apply evolve_loop_kept in Hloop.
  destruct (l_hallOfFame l) as [|h0 hall].
  - split; [discriminate | apply kept_ok, kept_one].
  - split; [discriminate | apply kept_ok; exact Hloop].
Qed.

Lemma hallOfFame_after_evolution_witness :
  match Sample.evolveX Sample.sixty_forty (Sample.evolution_config 2 2 1 20 1) with
  | Ok r =>
      (2 <= List.length (hallOfFame r))%nat
      /\ hallOfFame r <> [] /\ hall_ok Sample.platformX (hallOfFame r)
  | Throw _ => False
  end.
Proof.
  pose proof sample_evolution as H.
  destruct (evolvePortfolio _ _ _ _ _ _) as [r|e] eqn:E; [|discriminate].
  apply andb_prop in H. destruct H as [H _].
  apply andb_prop in H. destruct H as [H _].
  split; [apply Nat.leb_le; exact H|].
  exact (hallOfFame_after_evolution _ _ exact_order_laws _ _ _ _ _ _ _ E).
Defined.

(** X3.  Whatever the hall of fame holds after generation [n] was there
    before, or is the best candidate of the snapshot of generation [n]
    (stamped with [n]), admitted because no entry was at a distance below
    0.05 of it and the hall was empty or its fitness was above 0.95 times
    the fitness of the first entry. *)
Theorem hallOfFame_admission :
  forall (num : Type) (N : Number num)
         (P : Platform num) (A : Assumptions num) (ambient : nat -> Ambient num)
         seedPortfolio config n st l' st',
    evolve_loop P A ambient seedPortfolio config (S n) st = Ok (l', st') ->
    exists l st1 snap,
      evolve_loop P A ambient seedPortfolio config n st = Ok (l, st1)
      /\ nth_error (l_generations l') n = Some snap
      /\ forall h,
          In h (l_hallOfFame l') ->
          In h (l_hallOfFame l)
          \/ (h = with_generation n (parentage (best snap)) (best snap)
              /\ isDuplicate P (l_hallOfFame l) (best snap) = false
              /\ match l_hallOfFame l with
                 | [] => True
                 | h0 :: _ =>
                     less (times (fitness h0) (lit 0.95)) (fitness (best snap)) = true
                 end).
Proof.
  intros until st'. intros H.
  apply evolve_loop_S in H. destruct H as (l & st1 & Hloop & Hstep).
  apply generation_step_Ok in Hstep.
  destruct Hstep as (snap & rest & _ & _ & _ & Hhall & Hgens).
  exists l, st1, snap. split; [exact Hloop|]. split.
  - rewrite Hgens.
    pose proof (evolve_loop_shape _ _ _ _ _ _ _ _ _ Hloop) as (_ & Hn & _).
    apply (f_equal (@List.length nat)) in Hn. rewrite length_map, length_seq in Hn.
    rewrite nth_error_app2 by lia. rewrite Hn, Nat.sub_diag. reflexivity.
  - intros h Hh. rewrite Hhall in Hh. apply track_hallOfFame_In in Hh. exact Hh.
Qed.

Lemma hallOfFame_admission_witness :
  exists l' st' l st1 snap,
    Sample.loop64 Sample.sixty_forty (Sample.evolution_config 2 2 1 20 1) 1 2 = Ok (l', st')
    /\ Sample.loop64 Sample.sixty_forty (Sample.evolution_config 2 2 1 20 1) 1 1 = Ok (l, st1)
    /\ List.length (l_hallOfFame l) = 1%nat
    /\ List.length (l_hallOfFame l') = 2%nat
    /\ nth_error (l_generations l') 1 = Some snap
    /\ forall h,
        In h (l_hallOfFame l') ->
        In h (l_hallOfFame l)
        \/ (h = with_generation 1 (parentage (best snap)) (best snap)
            /\ isDuplicate Sample.platform64 (l_hallOfFame l) (best snap) = false
            /\ match l_hallOfFame l with
               | [] => True
               | h0 :: _ =>
                   less (times (fitness h0) (lit 0.95)) (fitness (best snap)) = true
               end).
Proof.
  assert (Hok : is_Ok (Sample.loop64 Sample.sixty_forty (Sample.evolution_config 2 2 1 20 1) 1 2)
                = true) by (vm_compute; reflexivity).
  assert (H2 : match Sample.loop64 Sample.sixty_forty (Sample.evolution_config 2 2 1 20 1) 1 2 with
               | Ok (l', _) => (List.length (l_hallOfFame l') =? 2)%nat
               | Throw _ => false
               end = true) by (vm_compute; reflexivity).
  assert (H1 : match Sample.loop64 Sample.sixty_forty (Sample.evolution_config 2 2 1 20 1) 1 1 with
               | Ok (l, _) => (List.length (l_hallOfFame l) =? 1)%nat
               | Throw _ => false
               end = true) by (vm_compute; reflexivity).
  destruct (is_Ok_inv _ Hok) as [[l' st'] E].
  rewrite E in H2.
  destruct (hallOfFame_admission _ _ _ _ _ _ _ _ _ _ _ E) as (l & st1 & snap & Hl & H).
  rewrite Hl in H1.
  exists l', st', l, st1, snap.
  split; [exact E|]. split; [exact Hl|].
  split; [apply Nat.eqb_eq; exact H1|].
  split; [apply Nat.eqb_eq; exact H2|]. exact H.
Defined.

(** X4.  The snapshots of a run: one per generation and a last one,
    numbered from 0 to [generations], each with [populationSize]
    candidates; the champion is the best of the last snapshot. *)
Theorem evolvePortfolio_snapshots :
  forall (num : Type) (N : Number num)
         (P : Platform num) (A : Assumptions num) (ambient : nat -> Ambient num)
         seedPortfolio config now r,
    evolvePortfolio P A ambient seedPortfolio config now = Ok r ->
    map (@gs_generation num) (er_generations r) = seq 0 (S (generations config))
    /\ Forall (fun g => List.length (population g) = populationSize config)
         (er_generations r)
    /\ List.last (map (fun g => Some (best g)) (er_generations r)) None
       = Some (champion r).
Proof.
  intros until r. intros H.
  apply evolvePortfolio_Ok in H.
  destruct H as (st & l & st' & snap & Hloop & Hsnap & -> & -> & _).
  apply evolve_loop_shape in Hloop. destruct Hloop as (Hpop & Hgen & Hsizes).
  apply snapshot_Some in Hsnap. destruct Hsnap as (Hg & Hp & _).
  split; [|split].
  - rewrite map_app, Hgen, seq_S. simpl. rewrite Hg. reflexivity.
  - apply Forall_app. split; [exact Hsizes|].
    constructor; [|constructor]. rewrite Hp, sort_length. exact Hpop.
  - rewrite map_app. apply last_last.
Qed.

Lemma evolvePortfolio_snapshots_witness :
  exists r,
    Sample.evolveX Sample.sixty_forty (Sample.evolution_config 1 1 1 2 7) = Ok r
    /\ map (@gs_generation Exact.xnum) (er_generations r) = [0; 1]%nat
    /\ Forall (fun g => List.length (population g) = 1%nat) (er_generations r)
    /\ List.last (map (fun g => Some (best g)) (er_generations r)) None
       = Some (champion r).
Proof.
  assert (Hok : is_Ok (Sample.evolveX Sample.sixty_forty
                         (Sample.evolution_config 1 1 1 2 7)) = true)
    by (vm_compute; reflexivity).
  destruct (is_Ok_inv _ Hok) as [r E].
  exists r. split; [exact E|].
  exact (evolvePortfolio_snapshots _ _ _ _ _ _ _ _ _ E).
Defined.

(** X5.  Elitism: from one snapshot to the next, the first [eliteCount]
    candidates are carried over with their portfolio, fitness and summary,
    tagged ["elite"] and stamped with the next generation. *)
Theorem elite_survives_each_generation :
  forall (num : Type) (N : Number num)
         (P : Platform num) (A : Assumptions num) (ambient : nat -> Ambient num)
         seedPortfolio config now r,
    evolvePortfolio P A ambient seedPortfolio config now = Ok r ->
    consecutive (elite_survives config) (er_generations r).
Proof.
  intros until r. intros H.
  apply evolvePortfolio_elite in H. apply H.
Qed.

Lemma elite_survives_each_generation_witness :
  exists r,
    Sample.evolveX Sample.sixty_forty (Sample.evolution_config 1 1 1 2 7) = Ok r
    /\ consecutive (elite_survives (Sample.evolution_config 1 1 1 2 7))
         (er_generations r).
Proof.
  assert (Hok : is_Ok (Sample.evolveX Sample.sixty_forty
                         (Sample.evolution_config 1 1 1 2 7)) = true)
    by (vm_compute; reflexivity).
  destruct (is_Ok_inv _ Hok) as [r E].
  exists r. split; [exact E|].
  exact (elite_survives_each_generation _ _ _ _ _ _ _ _ _ E).
Defined.

(** X6.  With an elite of one or more, and as long as every fitness of the
    run is a number, the best fitness of a snapshot is not below the best
    fitness of the snapshot before. *)
Theorem best_fitness_non_decreasing :
  forall (num : Type) (N : Number num) (L : OrderLaws N)
         (P : Platform num) (A : Assumptions num) (ambient : nat -> Ambient num)
         seedPortfolio config now r,
    to_integer (lit 0 : num) = Some 0 ->
    evolvePortfolio P A ambient seedPortfolio config now = Ok r ->
    (1 <= eliteCount config)%nat ->
    fitness_is_number r = true ->
    consecutive (fun g g' => less (fitness (best g')) (fitness (best g)) = false)
      (er_generations r).
Proof.
  intros num N L P A ambient seedPortfolio cfg now r H0 H He Hn.
  exact (best_fitness_kept P A ambient seedPortfolio cfg H0 now r H He Hn).
Qed.

Lemma best_fitness_non_decreasing_witness :
  match Sample.evolveX Sample.sixty_forty (Sample.evolution_config 2 2 1 20 1) with
  | Ok r =>
      fitness_is_number r = true
      /\ existsb (fun gg => less (fitness (best (fst gg))) (fitness (best (snd gg))))
           (combine (er_generations r) (tl (er_generations r))) = true
      /\ consecutive (fun g g' => less (fitness (best g')) (fitness (best g)) = false)
           (er_generations r)
  | Throw _ => False
  end.
Proof.
  pose proof sample_evolution as H.
  destruct (evolvePortfolio _ _ _ _ _ _) as [r|e] eqn:E; [|discriminate].
  apply andb_prop in H. destruct H as [H Hup].
  apply andb_prop in H. destruct H as [_ Hnum].
  split; [exact Hnum|]. split; [exact Hup|].
  refine (best_fitness_non_decreasing _ _ exact_order_laws _ _ _ _ _ _ _ _ E _ Hnum).
  - reflexivity.
  - simpl. lia.
Defined.

(** X7.  The duplicate test is strict: a candidate at a distance of exactly
    0.05 from an entry is admitted.  On doubles, the run below (one
    candidate per generation, ten equal weights as the seed) ends with two
    entries in the hall of fame whose distance is 0.05. *)
Lemma hallOfFame_admits_distance_0_05 :
  match Sample.evolve64 Sample.tenths (Sample.mutation_config 0.16 2 20 1965) with
  | Ok r =>
      match hallOfFame r with
      | [a; b] =>
          strict_eq (distance Sample.platform64 (ep_portfolio a) (ep_portfolio b))
                    (lit 0.05) = true
          /\ less (lit 0.05)
                  (distance Sample.platform64 (ep_portfolio a) (ep_portfolio b)) = false
      | _ => False
      end
  | Throw _ => False
  end.
Proof. vm_compute. split; reflexivity. Qed.

(* ================================================================== *)
(** * Computations that never throw *)
(* ================================================================== *)

Section Returns.
Context {St : Type}.

Lemma returns_ret {X} (x : X) (Q : X -> Prop) : Q x -> returns (ret (St := St) x) Q.
Proof. intros H s. exists x, s. split; [reflexivity | exact H]. Qed.

Lemma returns_bind {X Y} (m : M St X) (k : X -> M St Y) (Q : X -> Prop) (R : Y -> Prop) :
  returns m Q -> (forall x, Q x -> returns (k x) R) -> returns (bind m k) R.
Proof.
  intros Hm Hk s. destruct (Hm s) as (x & s1 & E & Hx).
  destruct (Hk x Hx s1) as (y & s2 & E2 & Hy).
  exists y, s2. split; [|exact Hy]. unfold bind. rewrite E. exact E2.
Qed.

Lemma returns_weaken {X} (m : M St X) (Q R : X -> Prop) :
  returns m Q -> (forall x, Q x -> R x) -> returns m R.
Proof.
  intros Hm HQR s. destruct (Hm s) as (x & s1 & E & Hx).
  exists x, s1. split; [exact E | apply HQR; exact Hx].
Qed.

Lemma returns_foldM {X Y} (body : X -> Y -> M St X) (I : X -> Prop) (xs : list Y) :
  (forall acc y, I acc -> In y xs -> returns (body acc y) I) ->
  forall acc, I acc -> returns (foldM body xs acc) I.
Proof.
  induction xs as [|y xs IH]; intros Hbody acc Hacc; simpl.
  - apply returns_ret. exact Hacc.
  - apply (returns_bind _ _ I).
    + apply Hbody; [exact Hacc | left; reflexivity].
    + intros acc' Hacc'. apply IH; [|exact Hacc'].
      intros a y' Ha Hy'. apply Hbody; [exact Ha | right; exact Hy'].
Qed.

Lemma returns_forM {X} (body : nat -> M St X) (Q : X -> Prop) :
  (forall i, returns (body i) Q) ->
  forall n from, returns (forM body from n) (fun xs => List.length xs = n /\ Forall Q xs).
Proof.
  intros Hbody. induction n as [|n IH]; intros from; simpl.
  - apply returns_ret. split; [reflexivity | constructor].
  - apply (returns_bind _ _ Q); [apply Hbody|].
    intros x Hx.
    apply (returns_bind _ _ (fun xs => List.length xs = n /\ Forall Q xs)); [apply IH|].
    intros xs [Hlen Hxs]. apply returns_ret.
    split; [simpl; f_equal; exact Hlen | constructor; assumption].
Qed.

Lemma returns_of_option {X} (e : Error) (o : option X) (Q : X -> Prop) :
  (exists x, o = Some x /\ Q x) -> returns (of_option (St := St) e o) Q.
Proof. intros (x & -> & Hx). apply returns_ret. exact Hx. Qed.

End Returns.

(** ** The generator on exact numbers *)

Section GeneratorFacts.
Import Exact.
Local Open Scope Q_scope.

Lemma uint32_range (z : Z) : (0 <= uint32 z < two32)%Z.
Proof. unfold uint32. apply Z.mod_pos_bound. reflexivity. Qed.

Lemma int32_range (z : Z) : (- 2147483648 <= int32 z < 2147483648)%Z.
Proof.
  unfold int32. pose proof (Z.mod_pos_bound (z + 2147483648) two32 eq_refl) as H.
  unfold two32 in *. lia.
Qed.

Lemma draw_value (z : Z) :
  divide (of_Z z : xnum) (lit 4294967296) = fin (inject_Z z / 4294967296).
Proof.
  unfold of_Z. cbn [lit divide exact]. unfold fin at 1 2. cbn [xdivide].
  change (Qred 4294967296) with 4294967296.
  change (Qzero 4294967296) with false. cbv iota.
  apply fin_eq. rewrite Qred_correct. reflexivity.
Qed.

Lemma next_unit : returns (next (num := xnum)) unit_draw.
Proof.
  intros rng. unfold next. eexists _, _. split; [reflexivity|].
  rewrite draw_value. eexists. split; [reflexivity|].
  rewrite Qred_correct.
  match goal with |- context [inject_Z (uint32 ?z)] => pose proof (uint32_range z) as Hu;
    set (u := uint32 z) in * end.
  destruct Hu as [H0 H1]. unfold two32 in H1.
  rewrite Zle_Qle in H0. rewrite Zlt_Qlt in H1.
  change (inject_Z 0) with 0 in H0. change (inject_Z 4294967296) with 4294967296 in H1.
  split.
  - apply Qle_shift_div_l; [reflexivity | lra].
  - apply Qlt_shift_div_r; [reflexivity | lra].
Qed.

(** [arr[Math.floor(rng.next() * arr.length)]] is an element of a
    non-empty array. *)
Lemma xinteger_Z (z : Z) : xinteger (fin (inject_Z z)) = Some z.
Proof.
  unfold fin, xinteger.
  assert (H : Qfloor (Qred (inject_Z z)) = z).
  { rewrite (Qfloor_comp _ _ (Qred_correct _)). apply Qfloor_Z. }
  rewrite H. rewrite (proj2 (Qeq_bool_iff _ _)); [reflexivity|].
  rewrite Qred_correct. reflexivity.
Qed.

Lemma index_of_draw (u : xnum) (n : nat) :
  unit_draw u -> (0 < n)%nat ->
  exists k, to_integer (Math_floor (times u (of_nat n))) = Some (Z.of_nat k) /\ (k < n)%nat.
Proof.
  intros (q & -> & H0 & H1) Hn.
  unfold of_nat, of_Z. cbn [lit times Math_floor to_integer exact].
  unfold fin at 1. cbn [xtimes xfloor]. unfold fin at 1. cbn [xfloor]. rewrite xinteger_Z.
  set (z := Qfloor _).
  assert (Hn' : 0 < inject_Z (Z.of_nat n)).
  { change 0 with (inject_Z 0). rewrite <- Zlt_Qlt. lia. }
  assert (Hz : (0 <= z < Z.of_nat n)%Z).
  { subst z. rewrite (Qfloor_comp _ (q * inject_Z (Z.of_nat n)))
      by (rewrite !Qred_correct; reflexivity).
    split.
    - change 0%Z with (Qfloor 0). apply Qfloor_resp_le. nra.
    - rewrite Zlt_Qlt.
      apply Qle_lt_trans with (q * inject_Z (Z.of_nat n)); [apply Qfloor_le | nra]. }
  exists (Z.to_nat z). split; [f_equal; lia | lia].
Qed.

Lemma pick_returns {X} (arr : list X) :
  arr <> [] -> returns (pick (num := xnum) arr) (fun o => exists x, o = Some x /\ In x arr).
Proof.
  intros Hne. unfold pick.
  apply (returns_bind _ _ unit_draw); [apply next_unit|].
  intros u Hu. apply returns_ret.
  destruct (index_of_draw u (List.length arr) Hu) as (k & Hk & Hlt).
  { destruct arr; [contradiction | simpl; lia]. }
  unfold at_index. rewrite Hk.
  destruct (Z.of_nat k <? 0)%Z eqn:E; [apply Z.ltb_lt in E; lia|].
  rewrite Nat2Z.id.
  destruct (nth_error arr k) as [x|] eqn:Ex.
  - exists x. split; [reflexivity | eapply nth_error_In; exact Ex].
  - apply nth_error_None in Ex. lia.
Qed.

Lemma pick_asset_returns (arr : list AssetClass) :
  arr <> [] -> returns (pick_asset (num := xnum) arr) (fun a => In a arr).
Proof.
  intros Hne. unfold pick_asset.
  apply (returns_bind _ _ _ _ (pick_returns arr Hne)).
  intros o (x & -> & Hx). apply returns_ret. exact Hx.
Qed.

(** Tournament selection on a population that is not empty returns one of
    its members. *)
Lemma tournamentSelect_returns (pop : list (EvolvedPortfolio xnum)) :
  pop <> [] -> returns (tournamentSelect pop) (fun c => In c pop).
Proof.
  intros Hne. unfold tournamentSelect.
  apply (returns_bind _ _ _ _ (pick_returns pop Hne)).
  intros first Hfirst.
  apply (returns_bind _ _ (fun o => exists x, o = Some x /\ In x pop)).
  - apply returns_foldM; [|exact Hfirst].
    intros best _ (b & -> & Hb) _.
    apply (returns_bind _ _ _ _ (pick_returns pop Hne)).
    intros contender (c & -> & Hc). apply returns_ret.
    eexists. split; [reflexivity|].
    destruct (less (fitness b) (fitness c)); assumption.
  - intros best (b & -> & Hb). apply returns_ret. exact Hb.
Qed.

End GeneratorFacts.

Section EmptyPopulation.
Context {num : Type} {N : Number num}.

Lemma at_index_nil {X} (i : num) : at_index (@nil X) i = None.
Proof.
  unfold at_index. destruct (to_integer i) as [z|]; [|reflexivity].
  destruct (z <? 0)%Z; [reflexivity|]. destruct (Z.to_nat z); reflexivity.
Qed.

Lemma pick_nil {X} (rng : SeededRNG) :
  exists rng', pick (num := num) (@nil X) rng = Ok (None, rng').
Proof.
  unfold pick, bind, next, ret. rewrite at_index_nil. eexists. reflexivity.
Qed.

(** On an empty population the first contender is [undefined], and
    reading its fitness throws. *)
Lemma tournamentSelect_empty (rng : SeededRNG) :
  tournamentSelect (num := num) [] rng = Throw TypeError.
Proof.
  unfold tournamentSelect. unfold bind at 1.
  destruct (pick_nil (X := EvolvedPortfolio num) rng) as [r1 E1]. rewrite E1.
  unfold bind at 1. cbn [foldM]. unfold bind at 1. unfold bind at 1.
  destruct (pick_nil (X := EvolvedPortfolio num) r1) as [r2 E2]. rewrite E2.
  reflexivity.
Qed.

End EmptyPopulation.

(** X8.  [next] never throws; on exact numbers, where the division by
    2^32 does not round, the draw is a rational of [[0, 1)], and the state
    of the generator stays a 32-bit integer. *)
Theorem next_in_unit_interval :
  forall rng : SeededRNG,
  exists (q : Q) (rng' : SeededRNG),
    next (num := Exact.xnum) rng = Ok (Exact.XFin q, rng')
    /\ (0 <= q)%Q /\ (q < 1)%Q
    /\ - 2147483648 <= state rng' < 2147483648.
Proof.
  intros rng. destruct (next_unit rng) as (u & rng' & E & q & -> & H0 & H1).
  exists q, rng'. split; [exact E|]. split; [exact H0|]. split; [exact H1|].
  assert (Hs : state rng' = int32 (state rng + 0x6d2b79f5)).
  { unfold next in E.
    apply (f_equal (fun r => match r with
                             | Ok (_, g) => state g
                             | Throw _ => 0
                             end)) in E.
    symmetry. exact E. }
  rewrite Hs. apply int32_range.
Qed.

(** X9.  Tournament selection on a population that is not empty never
    throws and returns one of its members (on exact numbers: the index
    [Math.floor(rng.next() * pop.length)] is below [pop.length]); on an
    empty population it throws a TypeError, the first contender being
    [undefined]. *)
Theorem tournamentSelect_member :
  (forall (c : EvolvedPortfolio Exact.xnum) (rest : list (EvolvedPortfolio Exact.xnum)),
      returns (tournamentSelect (c :: rest)) (fun x => In x (c :: rest)))
  /\ (forall (num : Type) (N : Number num) (rng : SeededRNG),
        tournamentSelect (num := num) [] rng = Throw TypeError).
Proof.
  split.
  - intros c rest. apply tournamentSelect_returns. discriminate.
  - intros num N rng. apply tournamentSelect_empty.
Qed.

(** X10.  [measureDiversity] looks at the first twenty candidates only:
    the diversity of a population is that of its first twenty members,
    whatever follows them. *)
Theorem measureDiversity_first_twenty :
  forall (num : Type) (N : Number num) (P : Platform num)
         (pop : list (EvolvedPortfolio num)),
    measureDiversity P pop = measureDiversity P (firstn 20 pop).
Proof.
  intros num N P pop.
  destruct (Nat.le_gt_cases (List.length pop) 20) as [Hle | Hgt].
  - rewrite (firstn_all2 pop) by exact Hle. reflexivity.
  - unfold measureDiversity. rewrite firstn_firstn.
    rewrite length_firstn.
    replace (Nat.min 20 (List.length pop)) with 20%nat by lia.
    replace (Nat.min 20 20) with 20%nat by reflexivity.
    destruct (List.length pop <? 2)%nat eqn:E.
    + apply Nat.ltb_lt in E. lia.
    + reflexivity.
Qed.

(* ================================================================== *)
(** * When a simulation returns *)
(* ================================================================== *)

Section ScenarioFacts.
Context {num : Type} {N : Number num} (P : Platform num).

Lemma next_returns : returns (next (num := num)) (fun _ => True).
Proof. intros rng. unfold next. eexists _, _. split; [reflexivity | exact I]. Qed.

Lemma nextGaussian_returns : returns (nextGaussian P) (fun _ => True).
Proof.
  unfold nextGaussian.
  apply (returns_bind _ _ _ _ next_returns). intros u1 _.
  apply (returns_bind _ _ _ _ next_returns). intros u2 _.
  apply returns_ret. exact I.
Qed.

Variable table : Regime -> option (RegimeConfig num).

Lemma regimeEntries_Some (enabled : list Regime) :
  (forall r, In r enabled -> table r <> None) ->
  exists es, regimeEntries table enabled = Some es /\ map fst es = enabled.
Proof.
  induction enabled as [|r rest IH]; intros H; simpl.
  - exists []. split; reflexivity.
  - destruct (table r) as [c|] eqn:E; [|exfalso; apply (H r); [left; reflexivity | exact E]].
    destruct IH as (es & -> & Hes); [intros r' Hr'; apply H; right; exact Hr'|].
    exists ((r, c) :: es). split; [reflexivity | simpl; f_equal; exact Hes].
Qed.

Lemma regimeEntries_None (enabled : list Regime) (r : Regime) :
  In r enabled -> table r = None -> regimeEntries table enabled = None.
Proof.
  induction enabled as [|r' rest IH]; intros Hin Hr; simpl; [contradiction|].
  destruct Hin as [->|Hin].
  - rewrite Hr. reflexivity.
  - rewrite (IH Hin Hr). destruct (table r'); reflexivity.
Qed.

Lemma build_cdf_regimes (totalProb cum : num) (es : list (Regime * RegimeConfig num)) :
  map fst (build_cdf totalProb cum es) = map fst es.
Proof.
  revert cum. induction es as [|[r c] es IH]; intros cum; simpl; [reflexivity|].
  f_equal. apply IH.
Qed.

Lemma sample_regime_In (u : num) (cdf : list (Regime * num)) (fallback : Regime) :
  In (sample_regime u cdf fallback) (fallback :: map fst cdf).
Proof.
  induction cdf as [|[r c] cdf IH]; simpl; [left; reflexivity|].
  destruct (orb _ _); [right; left; reflexivity|].
  destruct IH as [H|H]; [left; exact H | right; right; exact H].
Qed.

Lemma last_Some {X} (l : list X) :
  l <> [] -> exists x, List.last (map Some l) None = Some x /\ In x l.
Proof.
  induction l as [|x l IH]; intros H; [contradiction|].
  destruct l as [|y l]; [exists x; split; [reflexivity | left; reflexivity]|].
  destruct IH as (z & Hz & Hin); [discriminate|].
  exists z. split; [exact Hz | right; exact Hin].
Qed.

(** One scenario: with a cumulative distribution that is not empty and
    whose regimes are all in the table, it never throws, and its regime is
    one of the distribution. *)
Lemma one_scenario_returns (cdf : list (Regime * num)) :
  cdf <> [] ->
  (forall r, In r (map fst cdf) -> table r <> None) ->
  returns (one_scenario P table cdf) (fun m => In (regime m) (map fst cdf)).
Proof.
  intros Hne Htable. unfold one_scenario.
  apply (returns_bind _ _ _ _ next_returns). intros u _.
  destruct (last_Some cdf Hne) as (e & He & Hin).
  apply (returns_bind _ _ (fun x => x = e)).
  { rewrite He. apply returns_ret. reflexivity. }
  intros ? ->.
  assert (Hr : In (sample_regime u cdf (fst e)) (map fst cdf)).
  { destruct (sample_regime_In u cdf (fst e)) as [<-|H]; [apply in_map; exact Hin | exact H]. }
  destruct (table (sample_regime u cdf (fst e))) as [conf|] eqn:Econf;
    [|exfalso; exact (Htable _ Hr Econf)].
  apply (returns_bind _ _ (fun x => x = conf)).
  { apply returns_ret. reflexivity. }
  intros ? ->.
  apply (returns_bind _ _ _ _ nextGaussian_returns). intros g1 _.
  apply (returns_bind _ _ _ _ nextGaussian_returns). intros g2 _.
  apply (returns_bind _ _ _ _ nextGaussian_returns). intros g3 _.
  apply (returns_bind _ _ _ _ nextGaussian_returns). intros g4 _.
  destruct (match sample_regime u cdf (fst e) with
            | normal => _ | stress_2022 => _ | stagflation => _ | deflation => _
            end) as [adjInflation adjRiskOff].
  apply (returns_bind _ _ _ _ next_returns). intros jump _.
  apply (returns_bind _ _ (fun _ => True)).
  { destruct (less jump (lit 0.05)); [|apply returns_ret; exact I].
    apply (returns_bind _ _ _ _ next_returns). intros s _.
    apply (returns_bind _ _ _ _ next_returns). intros a _.
    apply returns_ret. exact I. }
  intros mutatedRate _. apply returns_ret. exact Hr.
Qed.

Lemma one_scenario_throws (rng : SeededRNG) :
  one_scenario P table [] rng = Throw TypeError.
Proof. reflexivity. Qed.

End ScenarioFacts.

Section BatchReturns.
Context {num : Type} {N : Number num} (P : Platform num) (A : Assumptions num).

Lemma generateScenarios_returns (config : SimulationConfig num) :
  (forall r, In r (regimesEnabled config) -> regimes A r <> None) ->
  numScenarios config = 0%nat \/ regimesEnabled config <> [] ->
  returns (generateScenarios P config (regimes A))
    (fun scenarios =>
       List.length scenarios = numScenarios config
       /\ Forall (fun m => In (regime m) (regimesEnabled config)) scenarios).
Proof.
  intros Htable Hne. unfold generateScenarios.
  destruct (regimeEntries_Some (regimes A) _ Htable) as (es & Ees & Hes).
  rewrite Ees. cbn [of_option].
  apply (returns_bind _ _ (fun x => x = es)); [apply returns_ret; reflexivity|].
  intros ? ->.
  set (cdf := build_cdf _ _ es).
  assert (Hcdf : map fst cdf = regimesEnabled config).
  { unfold cdf. rewrite build_cdf_regimes. exact Hes. }
  destruct Hne as [H0|Hne].
  - rewrite H0. cbn [forM]. apply returns_ret. split; [reflexivity | constructor].
  - rewrite <- Hcdf.
    apply returns_forM. intros i. apply one_scenario_returns.
    + intros E. rewrite E in Hcdf. simpl in Hcdf. apply Hne. symmetry. exact Hcdf.
    + intros r Hr. apply Htable. rewrite <- Hcdf. exact Hr.
Qed.

Lemma generateScenarios_no_regime (config : SimulationConfig num) (rng : SeededRNG) :
  regimesEnabled config = [] -> (1 <= numScenarios config)%nat ->
  generateScenarios P config (regimes A) rng = Throw TypeError.
Proof.
  intros He Hn. unfold generateScenarios. rewrite He. cbn [regimeEntries of_option].
  destruct (numScenarios config) as [|n]; [lia|]. reflexivity.
Qed.

Lemma generateScenarios_missing_regime (config : SimulationConfig num) (rng : SeededRNG)
    (r : Regime) :
  In r (regimesEnabled config) -> regimes A r = None ->
  generateScenarios P config (regimes A) rng = Throw TypeError.
Proof.
  intros Hin Hr. unfold generateScenarios.
  rewrite (regimeEntries_None (regimes A) _ r Hin Hr). reflexivity.
Qed.

Variables (portfolio : Portfolio num) (monthlySteps : nat).

Lemma asset_return_returns macro assetReturns entry :
  returns (asset_return P portfolio monthlySteps macro assetReturns entry) (fun _ => True).
Proof.
  unfold asset_return. destruct entry as [asset a].
  destruct (strict_eq _ _); [apply returns_ret; exact I|].
  apply (returns_bind _ _ _ _ (nextGaussian_returns P)). intros g _.
  apply returns_ret. exact I.
Qed.

Lemma wealth_path_returns (monthlyReturn : num) :
  forall months rev_path,
    returns (wealth_path P monthlyReturn months rev_path)
      (fun path => exists rest,
           path = rev rev_path ++ rest /\ List.length rest = months).
Proof.
  induction months as [|months IH]; intros rev_path; simpl.
  - apply returns_ret. exists []. split; [symmetry; apply app_nil_r | reflexivity].
  - apply (returns_bind _ _ _ _ (nextGaussian_returns P)). intros g _.
    eapply returns_weaken; [apply IH|].
    intros path (rest & -> & Hlen). simpl.
    eexists (_ :: rest). split; [rewrite <- app_assoc; reflexivity | simpl; f_equal; exact Hlen].
Qed.

Lemma scenario_result_returns (i : nat) (macro0 : MacroShock num) :
  returns (scenario_result P A portfolio monthlySteps i macro0)
    (fun r => scenarioId r = i /\ macro r = macro0 /\ well_formed monthlySteps r).
Proof.
  unfold scenario_result.
  apply (returns_bind _ _ (fun _ => True)).
  { apply returns_foldM; [|exact I]. intros acc y _ _. apply asset_return_returns. }
  intros assetReturns _.
  eapply returns_bind; [apply wealth_path_returns|].
  intros path (rest & -> & Hlen). apply returns_ret. cbn.
  split; [reflexivity|]. split; [reflexivity|].
  split; [exists rest; split; [reflexivity | exact Hlen] | reflexivity].
Qed.

Lemma scenario_results_returns (scenarios : list (MacroShock num)) :
  forall from,
    returns (scenario_results P A portfolio monthlySteps from scenarios)
      (fun results =>
         map (@macro num) results = scenarios
         /\ Forall (well_formed monthlySteps) results).
Proof.
  induction scenarios as [|m rest IH]; intros from; simpl.
  - apply returns_ret. split; [reflexivity | constructor].
  - eapply returns_bind; [apply scenario_result_returns|].
    intros r (_ & Hm & Hwf).
    eapply returns_bind; [apply IH|].
    intros rs (Hms & Hwfs). apply returns_ret.
    split; [simpl; f_equal; assumption | constructor; assumption].
Qed.

End BatchReturns.

Section RunFacts.
Context {num : Type} {N : Number num} (P : Platform num) (A : Assumptions num).
Variables (amb : Ambient num) (portfolio : Portfolio num) (config : SimulationConfig num)
          (seed : option num).

(** The batch of a run whose enabled regimes are all in the table, and
    that has a regime to draw when it has a scenario to generate. *)
Lemma runMonteCarlo_results :
  (forall r, In r (regimesEnabled config) -> regimes A r <> None) ->
  numScenarios config = 0%nat \/ regimesEnabled config <> [] ->
  exists s results,
    runMonteCarlo P A amb portfolio config seed = Ok s
    /\ List.length results = numScenarios config
    /\ Forall (fun r => In (regime (macro r)) (regimesEnabled config)) results
    /\ Forall (well_formed (horizonMonths config)) results
    /\ metrics s = compute_metrics P config results
    /\ worstScenarios s = slice (sort (@by_return num N) results) 0 3
    /\ bestScenarios s = rev (slice_from (sort (@by_return num N) results) (-3))
    /\ medianScenario s
       = at_index (sort (@by_return num N) results)
           (Math_floor (divide (of_nat (List.length (sort (@by_return num N) results)))
                               (lit 2)))
    /\ returnDistribution s
       = histogram_of (sort (fun a b => minus a b) (map (@portfolioReturn num) results)).
Proof.
  intros Htable Hne. unfold runMonteCarlo.
  set (rng := SeededRNG_new _).
  assert (H : returns
                (bind (generateScenarios P config (regimes A))
                      (fun scenarios =>
                         scenario_results P A portfolio (horizonMonths config) 0 scenarios))
                (fun results =>
                   List.length results = numScenarios config
                   /\ Forall (fun r => In (regime (macro r)) (regimesEnabled config)) results
                   /\ Forall (well_formed (horizonMonths config)) results)).
  { eapply returns_bind; [apply (generateScenarios_returns P A config Htable Hne)|].
    intros scenarios (Hlen & Hreg).
    eapply returns_weaken; [apply scenario_results_returns|].
    intros results (Hm & Hwf). subst scenarios.
    split; [rewrite length_map in Hlen; exact Hlen|].
    split; [|exact Hwf].
    rewrite Forall_map in Hreg. exact Hreg. }
  destruct (H rng) as (results & rng' & E & Hlen & Hreg & Hwf).
  rewrite E. eexists _, results. split; [reflexivity|].
  cbn. repeat split; assumption.
Qed.

Lemma runMonteCarlo_no_regime :
  regimesEnabled config = [] -> (1 <= numScenarios config)%nat ->
  runMonteCarlo P A amb portfolio config seed = Throw TypeError.
Proof.
  intros He Hn. unfold runMonteCarlo, bind.
  rewrite (generateScenarios_no_regime P A config _ He Hn). reflexivity.
Qed.

Lemma runMonteCarlo_missing_regime (r : Regime) :
  In r (regimesEnabled config) -> regimes A r = None ->
  runMonteCarlo P A amb portfolio config seed = Throw TypeError.
Proof.
  intros Hin Hr. unfold runMonteCarlo, bind.
  rewrite (generateScenarios_missing_regime P A config _ r Hin Hr). reflexivity.
Qed.

(** What a run that returned was given. *)
Lemma runMonteCarlo_Ok_given (s : SimulationSummary num) :
  runMonteCarlo P A amb portfolio config seed = Ok s ->
  (forall r, In r (regimesEnabled config) -> regimes A r <> None)
  /\ (numScenarios config = 0%nat \/ regimesEnabled config <> []).
Proof.
  intros H. split.
  - intros r Hin Hr. rewrite (runMonteCarlo_missing_regime r Hin Hr) in H. discriminate.
  - destruct (numScenarios config) as [|n] eqn:En; [left; reflexivity|].
    right. intros He. rewrite (runMonteCarlo_no_regime He) in H; [discriminate|].
    rewrite En. lia.
Qed.

End RunFacts.

(** ** The scenarios of a summary *)

Section SliceFacts.
Context {num : Type} {N : Number num} {X : Type}.

Lemma In_firstn (x : X) (n : nat) (l : list X) : In x (firstn n l) -> In x l.
Proof. intros H. rewrite <- (firstn_skipn n l). apply in_or_app. left. exact H. Qed.

Lemma In_skipn (x : X) (n : nat) (l : list X) : In x (skipn n l) -> In x l.
Proof. intros H. rewrite <- (firstn_skipn n l). apply in_or_app. right. exact H. Qed.

Lemma In_slice (x : X) (l : list X) (a b : Z) : In x (slice l a b) -> In x l.
Proof. unfold slice. intros H. apply In_firstn in H. apply In_skipn in H. exact H. Qed.

Lemma In_slice_from (x : X) (l : list X) (a : Z) : In x (slice_from l a) -> In x l.
Proof. unfold slice_from. apply In_skipn. Qed.

Lemma at_index_In (x : X) (l : list X) (i : num) : at_index l i = Some x -> In x l.
Proof.
  unfold at_index. destruct (to_integer i) as [z|]; [|discriminate].
  destruct (z <? 0)%Z; [discriminate|]. apply nth_error_In.
Qed.

End SliceFacts.

Section Reported.
Context {num : Type} {N : Number num} (P : Platform num) (A : Assumptions num).

Lemma reported_well_formed amb portfolio config seed s :
  runMonteCarlo P A amb portfolio config seed = Ok s ->
  forall r, reported s r ->
    In (regime (macro r)) (regimesEnabled config)
    /\ well_formed (horizonMonths config) r.
Proof.
  intros H.
  destruct (runMonteCarlo_Ok_given P A amb portfolio config seed s H) as (Htable & Hne).
  destruct (runMonteCarlo_results P A amb portfolio config seed Htable Hne)
    as (s' & results & E & _ & Hreg & Hwf & _ & Hworst & Hbest & Hmed & _).
  rewrite H in E. inversion E; subst s'; clear E.
  assert (Hin : forall r, reported s r -> In r results).
  { intros r [Hr|[Hr|Hr]].
    - rewrite Hworst in Hr. apply In_slice in Hr.
      apply (Permutation_in _ (Permutation_sym (sort_perm _ _)) Hr).
    - rewrite Hbest in Hr. apply in_rev in Hr. apply In_slice_from in Hr.
      apply (Permutation_in _ (Permutation_sym (sort_perm _ _)) Hr).
    - rewrite Hmed in Hr. apply at_index_In in Hr.
      apply (Permutation_in _ (Permutation_sym (sort_perm _ _)) Hr). }
  intros r Hr. apply Hin in Hr.
  rewrite Forall_forall in Hreg, Hwf. split; [apply Hreg | apply Hwf]; exact Hr.
Qed.

End Reported.

(** ** Drawdowns *)

Section DrawdownFacts.
Context {num : Type} {N : Number num} {L : OrderLaws N}.
Hypothesis zero_is_number : isNaN (lit 0 : num) = false.

Lemma drawdown_step_keeps (acc : num * num) (val : num) :
  not_negative (snd acc) -> not_negative (snd (drawdown_step acc val)).
Proof.
  destruct acc as [peak maxDD]. unfold drawdown_step. cbn [snd].
  intros [Hn H0].
  set (peak' := if less peak val then val else peak).
  set (dd := divide (minus peak' val) peak').
  destruct (less maxDD dd) eqn:E; [|split; assumption].
  destruct (less_not_NaN _ _ E) as [_ Hdd].
  split; [exact Hdd|].
  apply (not_less_trans (lit 0) maxDD dd); try assumption.
  apply less_asym. exact E.
Qed.

Lemma drawdown_fold_keeps (path : list num) :
  forall acc, not_negative (snd acc) ->
    not_negative (snd (fold_left drawdown_step path acc)).
Proof.
  induction path as [|v path IH]; intros acc H; simpl; [exact H|].
  apply IH. apply drawdown_step_keeps. exact H.
Qed.

Lemma well_formed_drawdown (months : nat) (r : ScenarioResult num) :
  well_formed months r -> not_negative (drawdown r).
Proof.
  intros [_ ->]. apply drawdown_fold_keeps. cbn [snd].
  split; [exact zero_is_number|].
  destruct (less (lit 0 : num) (lit 0)) eqn:E; [|reflexivity].
  rewrite (less_asym _ _ E) in E. discriminate.
Qed.

End DrawdownFacts.

Section MaxFacts.
Import Exact.

Lemma not_negative_xnum (x : xnum) :
  not_negative x <-> (exists q, x = XFin q /\ (0 <= q)%Q) \/ x = XInf false.
Proof.
  unfold not_negative. rewrite isNaN_xnum. split.
  - intros [Hn H0]. destruct x as [q|s|]; [| destruct s |]; try discriminate.
    + left. exists q. split; [reflexivity|].
      change (lit 0) with (XFin 0) in H0. apply xless_fin_false in H0. exact H0.
    + right. reflexivity.
  - intros [(q & -> & Hq) | ->].
    + split; [reflexivity|]. change (lit 0) with (XFin 0). apply xless_fin_false. exact Hq.
    + split; reflexivity.
Qed.

Lemma Math_max2_keeps (a b : xnum) :
  not_negative a -> not_negative b -> not_negative (Math_max2 a b).
Proof.
  intros Ha Hb. unfold Math_max2.
  destruct Ha as [Hna Ha], Hb as [Hnb Hb]. rewrite Hna, Hnb. cbn [orb].
  destruct (less a b); split; assumption.
Qed.

Lemma Math_max2_first (b : xnum) :
  not_negative b -> Math_max2 (neg Infinity) b = b.
Proof.
  intros H. apply not_negative_xnum in H.
  unfold Math_max2. rewrite !isNaN_xnum.
  change (neg Infinity : xnum) with (XInf true).
  destruct H as [(q & -> & Hq)| ->]; reflexivity.
Qed.

Lemma Math_max_keeps (xs : list xnum) :
  xs <> [] -> Forall not_negative xs -> not_negative (Math_max xs).
Proof.
  intros Hne Hall. unfold Math_max.
  destruct xs as [|x xs]; [contradiction|].
  inversion Hall as [|? ? Hx Hxs]; subst.
  cbn [fold_left]. rewrite (Math_max2_first x Hx).
  clear Hne Hall. revert x Hx. induction Hxs as [|y xs Hy Hxs IH]; intros x Hx; simpl.
  - exact Hx.
  - apply IH. apply Math_max2_keeps; assumption.
Qed.

End MaxFacts.

(** X11.  [runMonteCarlo] returns a summary exactly when every enabled
    regime has an entry in the regime table and, unless no scenario is
    asked for, a regime is enabled. *)
Theorem runMonteCarlo_returns_iff :
  forall (num : Type) (N : Number num) (P : Platform num) (A : Assumptions num)
         (amb : Ambient num) portfolio config seed,
    (exists s, runMonteCarlo P A amb portfolio config seed = Ok s)
    <-> ((forall r, In r (regimesEnabled config) -> regimes A r <> None)
         /\ (numScenarios config = 0%nat \/ regimesEnabled config <> [])).
Proof.
  intros num N P A amb portfolio cfg seed. split.
  - intros [s H]. exact (runMonteCarlo_Ok_given P A amb portfolio cfg seed s H).
  - intros [Htable Hne].
    destruct (runMonteCarlo_results P A amb portfolio cfg seed Htable Hne)
      as (s & results & E & _).
    exists s. exact E.
Qed.

Lemma runMonteCarlo_returns_iff_witness :
  exists s, Sample.run64 Sample.balanced 10 12 42 = Ok s.
Proof.
  apply (proj2 (runMonteCarlo_returns_iff _ _ _ _ _ _ _ _)).
  split.
  - intros r _. destruct r; discriminate.
  - right. discriminate.
Defined.

(** X12.  With a scenario to generate and no regime enabled, or with an
    enabled regime that the table lacks, [runMonteCarlo] throws a
    TypeError. *)
Theorem runMonteCarlo_throws_TypeError :
  forall (num : Type) (N : Number num) (P : Platform num) (A : Assumptions num)
         (amb : Ambient num) portfolio config seed,
    (regimesEnabled config = [] /\ (1 <= numScenarios config)%nat)
    \/ (exists r, In r (regimesEnabled config) /\ regimes A r = None) ->
    runMonteCarlo P A amb portfolio config seed = Throw TypeError.
Proof.
  intros num N P A amb portfolio cfg seed [[He Hn]|(r & Hin & Hr)].
  - exact (runMonteCarlo_no_regime P A amb portfolio cfg seed He Hn).
  - exact (runMonteCarlo_missing_regime P A amb portfolio cfg seed r Hin Hr).
Qed.

Lemma runMonteCarlo_throws_TypeError_witness :
  runMonteCarlo Sample.platform64 Sample.assumptions Sample.ambient64 Sample.balanced
    {| numScenarios := 1; horizonMonths := 12; seed := None; regimesEnabled := [] |}
    (Some (lit 42))
  = Throw TypeError.
Proof.
  apply runMonteCarlo_throws_TypeError. left. split; [reflexivity | simpl; lia].
Defined.

(** X13.  Every scenario that a summary shows (worst, best, median) has a
    regime that is enabled, and a wealth path that starts at 1 and has
    [horizonMonths] values after it; its drawdown is that of this path. *)
Theorem reported_scenarios_well_formed :
  forall (num : Type) (N : Number num) (P : Platform num) (A : Assumptions num)
         (amb : Ambient num) portfolio config seed s,
    runMonteCarlo P A amb portfolio config seed = Ok s ->
    forall r, reported s r ->
      In (regime (macro r)) (regimesEnabled config)
      /\ well_formed (horizonMonths config) r.
Proof.
  intros num N P A amb portfolio cfg seed s H.
  exact (reported_well_formed P A amb portfolio cfg seed s H).
Qed.

Lemma reported_scenarios_well_formed_witness :
  exists s,
    Sample.run64 Sample.balanced 10 12 42 = Ok s
    /\ forall r, reported s r ->
         In (regime (macro r)) Sample.all_regimes /\ well_formed 12 r.
Proof.
  assert (Hok : is_Ok (Sample.run64 Sample.balanced 10 12 42) = true)
    by (vm_compute; reflexivity).
  destruct (is_Ok_inv _ Hok) as [s E].
  exists s. split; [exact E|].
  exact (reported_scenarios_well_formed _ _ _ _ _ _ _ _ _ E).
Defined.

(** X14.  The drawdown of a scenario is a number and is never negative,
    whatever the path (shown for number types that satisfy the order laws
    and on which 0 is a number). *)
Theorem drawdown_never_negative :
  forall (num : Type) (N : Number num) (L : OrderLaws N)
         (P : Platform num) (A : Assumptions num)
         (amb : Ambient num) portfolio config seed s,
    isNaN (lit 0 : num) = false ->
    runMonteCarlo P A amb portfolio config seed = Ok s ->
    forall r, reported s r -> not_negative (drawdown r).
Proof.
  intros num N L P A amb portfolio cfg seed s Hzero H r Hr.
  destruct (reported_well_formed P A amb portfolio cfg seed s H r Hr) as [_ Hwf].
  exact (well_formed_drawdown Hzero _ r Hwf).
Qed.

Lemma drawdown_never_negative_witness :
  exists s,
    Sample.runX Sample.sixty_forty 6 1 42 = Ok s
    /\ forall r, reported s r -> not_negative (drawdown r).
Proof.
  assert (Hok : is_Ok (Sample.runX Sample.sixty_forty 6 1 42) = true)
    by (vm_compute; reflexivity).
  destruct (is_Ok_inv _ Hok) as [s E].
  exists s. split; [exact E|].
  refine (drawdown_never_negative _ _ exact_order_laws _ _ _ _ _ _ _ _ E).
  reflexivity.
Defined.

(** X15.  On exact numbers, with one scenario or more, [metrics.maxDrawdown]
    is a number and is not negative. *)
Theorem maxDrawdown_not_negative :
  forall (P : Platform Exact.xnum) (A : Assumptions Exact.xnum)
         (amb : Ambient Exact.xnum) portfolio config seed s,
    (1 <= numScenarios config)%nat ->
    runMonteCarlo P A amb portfolio config seed = Ok s ->
    not_negative (maxDrawdown (metrics s)).
Proof.
  intros P A amb portfolio cfg seed s Hn H.
  destruct (runMonteCarlo_Ok_given P A amb portfolio cfg seed s H) as (Htable & Hne).
  destruct (runMonteCarlo_results P A amb portfolio cfg seed Htable Hne)
    as (s' & results & E & Hlen & _ & Hwf & Hm & _).
  rewrite H in E. inversion E; subst s'; clear E.
  rewrite Hm. unfold compute_metrics. cbn [maxDrawdown].
  apply Math_max_keeps.
  - destruct results; [simpl in Hlen; lia | discriminate].
  - apply Forall_map. apply (Forall_impl _ (P := well_formed (horizonMonths cfg))); [|exact Hwf].
    intros r Hr.
    exact (well_formed_drawdown (L := exact_order_laws) eq_refl _ r Hr).
Qed.

Lemma maxDrawdown_not_negative_witness :
  exists s,
    Sample.runX Sample.sixty_forty 6 1 42 = Ok s
    /\ not_negative (maxDrawdown (metrics s)).
Proof.
  assert (Hok : is_Ok (Sample.runX Sample.sixty_forty 6 1 42) = true)
    by (vm_compute; reflexivity).
  destruct (is_Ok_inv _ Hok) as [s E].
  exists s. split; [exact E|].
  refine (maxDrawdown_not_negative _ _ _ _ _ _ _ _ E).
  simpl. lia.
Defined.

(** X16.  Asked for no scenario, [runMonteCarlo] does not throw: on exact
    numbers it returns a summary without worst, best or median scenario,
    an empty histogram, NaN for the percentiles, the mean, [cvar95] and
    [probLoss], and minus infinity for [maxDrawdown]. *)
Theorem runMonteCarlo_without_scenarios :
  forall (P : Platform Exact.xnum) (A : Assumptions Exact.xnum)
         (amb : Ambient Exact.xnum) portfolio config seed,
    numScenarios config = 0%nat ->
    (forall r, In r (regimesEnabled config) -> regimes A r <> None) ->
    exists s,
      runMonteCarlo P A amb portfolio config seed = Ok s
      /\ worstScenarios s = [] /\ bestScenarios s = [] /\ medianScenario s = None
      /\ returnDistribution s = repeat 0%nat 20
      /\ Forall (fun x => x = NaN)
           [ p5Return (metrics s); p25Return (metrics s); p50Return (metrics s);
             p75Return (metrics s); p95Return (metrics s); meanReturn (metrics s);
             cvar95 (metrics s); probLoss (metrics s) ]
      /\ maxDrawdown (metrics s) = neg Infinity.
Proof.
  intros P A amb portfolio cfg seed Hn Htable.
  destruct (runMonteCarlo_results P A amb portfolio cfg seed Htable (or_introl Hn))
    as (s & results & E & Hlen & _ & _ & Hm & Hworst & Hbest & Hmed & Hhist).
  rewrite Hn in Hlen. destruct results; [|discriminate].
  exists s. split; [exact E|].
  split; [rewrite Hworst; reflexivity|].
  split; [rewrite Hbest; reflexivity|].
  split; [rewrite Hmed; apply at_index_nil|].
  split; [rewrite Hhist; reflexivity|].
  rewrite Hm. split; [|reflexivity].
  repeat (constructor; [reflexivity|]). constructor.
Qed.

Lemma runMonteCarlo_without_scenarios_witness :
  exists s,
    runMonteCarlo Sample.platformX Sample.assumptions Sample.ambientX Sample.balanced
      (Sample.sim_config 0 12) None = Ok s
    /\ worstScenarios s = [] /\ bestScenarios s = [] /\ medianScenario s = None
    /\ returnDistribution s = repeat 0%nat 20
    /\ Forall (fun x => x = NaN)
         [ p5Return (metrics s); p25Return (metrics s); p50Return (metrics s);
           p75Return (metrics s); p95Return (metrics s); meanReturn (metrics s);
           cvar95 (metrics s); probLoss (metrics s) ]
    /\ maxDrawdown (metrics s) = neg Infinity.
Proof.
  apply runMonteCarlo_without_scenarios; [reflexivity|].
  intros r _. destruct r; discriminate.
Defined.

(** ** The histogram of the returns *)

Lemma increment_length (h : list nat) : forall b, List.length (increment h b) = List.length h.
Proof.
  induction h as [|c h IH]; intros b; [reflexivity|].
  destruct b as [|b]; simpl; [reflexivity | f_equal; apply IH].
Qed.

Lemma increment_sum (h : list nat) :
  forall b, (b < List.length h)%nat -> list_sum (increment h b) = S (list_sum h).
Proof.
  induction h as [|c h IH]; intros b Hb; [simpl in Hb; lia|].
  destruct b as [|b]; simpl; [reflexivity|].
  rewrite IH by (simpl in Hb; lia). lia.
Qed.

Lemma increment_sum_le (h : list nat) :
  forall b, (list_sum (increment h b) <= S (list_sum h))%nat.
Proof.
  induction h as [|c h IH]; intros b; [simpl; lia|].
  destruct b as [|b]; simpl; [lia|]. specialize (IH b). lia.
Qed.

Section HistogramFacts.
Context {num : Type} {N : Number num}.

(** The histogram keeps its twenty counters, and counts each return at
    most once. *)
Lemma histogram_of_shape (returns : list num) :
  List.length (histogram_of returns) = 20%nat
  /\ (list_sum (histogram_of returns) <= List.length returns)%nat.
Proof.
  unfold histogram_of.
  set (step := fun (histogram : list nat) (r : num) => _).
  assert (H : forall rs h,
             List.length (fold_left step rs h) = List.length h
             /\ (list_sum (fold_left step rs h) <= list_sum h + List.length rs)%nat).
  { induction rs as [|r rs IH]; intros h; simpl; [split; lia|].
    destruct (IH (step h r)) as [Hl Hs].
    assert (Hstep : List.length (step h r) = List.length h
                    /\ (list_sum (step h r) <= S (list_sum h))%nat).
    { unfold step. destruct (to_integer _) as [z|]; [|split; lia].
      destruct (z <? 0)%Z; [split; lia|].
      split; [apply increment_length | apply increment_sum_le]. }
    destruct Hstep as [Hl' Hs']. split; [rewrite Hl; exact Hl' | lia]. }
  destruct (H returns (repeat 0%nat 20)) as [Hl Hs].
  split; [rewrite Hl; reflexivity | exact Hs].
Qed.

End HistogramFacts.

Section HistogramExact.
Import Exact.
Local Open Scope Q_scope.
Local Arguments Qred : simpl never.

Lemma minus_fin (a b : Q) : minus (XFin a) (XFin b) = fin (a - b).
Proof.
  cbn [minus exact]. unfold xminus. cbn [xopp]. unfold fin at 1. cbn [xplus].
  apply fin_eq. rewrite Qred_correct. reflexivity.
Qed.

Lemma divide_fin (a b : Q) : ~ b == 0 -> divide (XFin a) (XFin b) = fin (a / b).
Proof.
  intros Hb. cbn [divide exact xdivide]. unfold Qzero.
  rewrite (Qeq_bool_false b 0 Hb). reflexivity.
Qed.

Lemma bucketSize_positive (q0 qmax : Q) :
  q0 <= qmax ->
  exists b, or_else (divide (minus (XFin qmax) (XFin q0)) (lit 20)) (lit 0.01) = XFin b
            /\ 0 < b.
Proof.
  intros Hle. rewrite minus_fin.
  change (lit 20) with (XFin 20). unfold fin at 1.
  rewrite divide_fin by discriminate.
  set (d := Qred (qmax - q0) / 20).
  assert (Hd : d == (qmax - q0) / 20).
  { unfold d. rewrite !Qred_correct. reflexivity. }
  unfold or_else, truthy. rewrite isNaN_xnum. unfold fin at 1 2.
  change (lit 0) with (XFin 0). cbn [strict_eq exact xeq]. rewrite orb_false_r.
  destruct (Qeq_bool (Qred d) 0) eqn:E; cbn [negb].
  - exists (Qred 0.01). split; [reflexivity|]. rewrite Qred_correct. reflexivity.
  - exists (Qred d). split; [reflexivity|].
    apply Qeq_bool_neq in E. rewrite Qred_correct in *.
    rewrite Hd in *.
    assert (H0 : 0 <= (qmax - q0) / 20) by (apply Qle_shift_div_l; lra).
    apply Qnot_le_lt. intros Hneg. apply E. apply Qle_antisym; assumption.
Qed.

Lemma bucket_index (q0 b q : Q) :
  0 < b -> q0 <= q ->
  exists z : Z,
    to_integer (Math_min2 (lit 19)
                  (Math_floor (divide (minus (XFin q) (XFin q0)) (XFin b)))) = Some z
    /\ (0 <= z < 20)%Z.
Proof.
  intros Hb Hle. rewrite minus_fin. unfold fin at 1.
  rewrite divide_fin by lra.
  unfold fin at 1. cbn [Math_floor exact xfloor].
  set (t := Qred (Qred (q - q0) / b)).
  assert (Ht : 0 <= t).
  { unfold t. rewrite !Qred_correct. apply Qle_shift_div_l; lra. }
  assert (Hf : (0 <= Qfloor t)%Z).
  { change 0%Z with (Qfloor 0). apply Qfloor_resp_le. exact Ht. }
  unfold Math_min2. rewrite !isNaN_xnum. change (lit 19) with (XFin 19).
  unfold fin at 1 2. cbn [orb].
  change (less (XFin (Qred (inject_Z (Qfloor t)))) (XFin 19))
    with (xless (XFin (Qred (inject_Z (Qfloor t)))) (XFin 19)).
  destruct (xless _ _) eqn:E.
  - apply xless_fin in E. rewrite !Qred_correct in E.
    change 19 with (inject_Z 19) in E. rewrite <- Zlt_Qlt in E.
    exists (Qfloor t). split; [apply xinteger_Z | lia].
  - exists 19%Z. split; [reflexivity | lia].
Qed.

End HistogramExact.

Section HistogramTotal.
Import Exact.
Local Open Scope Q_scope.

Lemma last_In {X} (x : X) (l : list X) (d : X) : In (List.last (x :: l) d) (x :: l).
Proof.
  revert x. induction l as [|y l IH]; intros x; [left; reflexivity|].
  right. apply (IH y).
Qed.

(** On exact numbers, every return that is a real number is counted in one
    of the twenty buckets. *)
Lemma histogram_of_total (rs : list xnum) :
  Forall (fun v => isFinite v = true) rs ->
  list_sum (histogram_of (sort (fun a b => minus a b) rs)) = List.length rs.
Proof.
  intros Hfin.
  assert (Hnum : Forall (fun v : xnum => isNaN ((fun x => x) v) = false) rs).
  { apply (Forall_impl _ (P := fun v => isFinite v = true)); [|exact Hfin].
    intros v Hv. apply isFinite_xnum in Hv. destruct Hv as [q ->]. apply isNaN_xnum. }
  pose proof (sort_ordered (L := exact_order_laws) (fun x : xnum => x) rs Hnum) as Hsorted.
  pose proof (Permutation_Forall (sort_perm (fun a b : xnum => minus a b) rs) Hfin) as Hfin'.
  rewrite <- (sort_length (fun a b : xnum => minus a b) rs).
  change (sort (fun a b : xnum => minus ((fun x => x) a) ((fun x => x) b)) rs)
    with (sort (fun a b : xnum => minus a b) rs) in Hsorted.
  set (returns := sort (fun a b : xnum => minus a b) rs) in *.
  clearbody returns. clear Hfin Hnum rs.
  destruct returns as [|r0 rest]; [reflexivity|].
  assert (H0 : exists q0, r0 = XFin q0).
  { inversion Hfin'; subst. apply isFinite_xnum. assumption. }
  destruct H0 as [q0 ->].
  assert (Hall : Forall (fun x => exists q, x = XFin q /\ q0 <= q) (XFin q0 :: rest)).
  { constructor; [exists q0; split; [reflexivity | apply Qle_refl]|].
    inversion Hsorted as [|? ? _ Hhd]; subst.
    inversion Hfin' as [|? ? _ Hrest]; subst.
    rewrite Forall_forall in *. intros x Hx.
    destruct (proj1 (isFinite_xnum x) (Hrest x Hx)) as [q ->].
    exists q. split; [reflexivity|].
    apply xless_fin_false. apply (Hhd _ Hx). }
  unfold histogram_of.
  assert (Hmin : index_num (XFin q0 :: rest) (lit 0) = XFin q0) by reflexivity.
  rewrite Hmin.
  assert (Hmax : exists qmax, List.last (XFin q0 :: rest) NaN = XFin qmax /\ q0 <= qmax).
  { pose proof (last_In (XFin q0) rest NaN) as Hin.
    rewrite Forall_forall in Hall. exact (Hall _ Hin). }
  destruct Hmax as (qmax & -> & Hle).
  destruct (bucketSize_positive q0 qmax Hle) as (b & -> & Hb).
  set (step := fun (histogram : list nat) (r : xnum) => _).
  assert (H : forall xs h,
             List.length h = 20%nat ->
             Forall (fun x => exists q, x = XFin q /\ q0 <= q) xs ->
             List.length (fold_left step xs h) = 20%nat
             /\ list_sum (fold_left step xs h) = (list_sum h + List.length xs)%nat).
  { induction xs as [|x xs IH]; intros h Hh Hxs; simpl; [split; [exact Hh | lia]|].
    inversion Hxs as [|? ? (q & -> & Hq) Hxs']; subst.
    destruct (bucket_index q0 b q Hb Hq) as (z & Hz & Hrange).
    assert (Hstep : step h (XFin q) = increment h (Z.to_nat z)).
    { unfold step. rewrite Hz.
      destruct (z <? 0)%Z eqn:E; [apply Z.ltb_lt in E; lia | reflexivity]. }
    rewrite Hstep.
    destruct (IH (increment h (Z.to_nat z))) as [Hl Hs];
      [rewrite increment_length; exact Hh | exact Hxs'|].
    split; [exact Hl|].
    rewrite Hs, increment_sum by (rewrite Hh; lia). lia. }
  destruct (H (XFin q0 :: rest) (repeat 0%nat 20) eq_refl Hall) as [_ Hs].
  rewrite Hs. reflexivity.
Qed.

End HistogramTotal.

(** X17.  The histogram of a summary always has twenty buckets, and its
    counts never sum to more than [numScenarios]: a return that is NaN is
    counted in no bucket. *)
Theorem returnDistribution_shape :
  forall (num : Type) (N : Number num) (P : Platform num) (A : Assumptions num)
         (amb : Ambient num) portfolio config seed s,
    runMonteCarlo P A amb portfolio config seed = Ok s ->
    List.length (returnDistribution s) = 20%nat
    /\ (list_sum (returnDistribution s) <= numScenarios config)%nat.
Proof.
  intros num N P A amb portfolio cfg seed s H.
  destruct (runMonteCarlo_Ok_given P A amb portfolio cfg seed s H) as (Htable & Hne).
  destruct (runMonteCarlo_results P A amb portfolio cfg seed Htable Hne)
    as (s' & results & E & Hlen & _ & _ & _ & _ & _ & _ & Hhist).
  rewrite H in E. inversion E; subst s'; clear E.
  rewrite Hhist.
  destruct (histogram_of_shape
              (sort (fun a b => minus a b) (map (@portfolioReturn num) results)))
    as [Hl Hs].
  split; [exact Hl|].
  rewrite sort_length, length_map, Hlen in Hs. exact Hs.
Qed.

Lemma returnDistribution_shape_witness :
  exists s,
    Sample.run64 Sample.balanced 10 12 42 = Ok s
    /\ List.length (returnDistribution s) = 20%nat
    /\ (list_sum (returnDistribution s) <= 10)%nat.
Proof.
  assert (Hok : is_Ok (Sample.run64 Sample.balanced 10 12 42) = true)
    by (vm_compute; reflexivity).
  destruct (is_Ok_inv _ Hok) as [s E].
  exists s. split; [exact E|].
  exact (returnDistribution_shape _ _ _ _ _ _ _ _ _ E).
Defined.

(** X18.  On exact numbers, when every return is a real number, each one
    is counted in one of the twenty buckets: the counts of the histogram
    of the sorted returns sum to the number of returns. *)
Theorem histogram_counts_every_return :
  forall rs : list Exact.xnum,
    Forall (fun v => isFinite v = true) rs ->
    list_sum (histogram_of (sort (fun a b => minus a b) rs)) = List.length rs.
Proof.
  intros rs H. exact (histogram_of_total rs H).
Qed.

Lemma histogram_counts_every_return_witness :
  list_sum (histogram_of (sort (fun a b => minus a b)
                            [Exact.fin 0.1; Exact.fin (-0.25); Exact.fin 0.1; Exact.fin 0.03]))
  = 4%nat.
Proof.
  apply (histogram_counts_every_return
           [Exact.fin 0.1; Exact.fin (-0.25); Exact.fin 0.1; Exact.fin 0.03]).
  repeat constructor.
Defined.

(** X19.  On doubles, on every platform and with every reference table, a
    run of fewer than twenty scenarios has an empty 5% tail: [cvar95], its
    mean, is NaN. *)
Theorem cvar95_is_NaN_below_twenty_scenarios :
  forall (P : Platform float) (A : Assumptions float) (amb : Ambient float)
         portfolio config seed s,
    (numScenarios config < 20)%nat ->
    runMonteCarlo P A amb portfolio config seed = Ok s ->
    isNaN (cvar95 (metrics s)) = true.
Proof.
  intros P A amb portfolio cfg seed s Hn H.
  rewrite (cvar95_NaN_below_twenty P A amb portfolio cfg seed s Hn H). reflexivity.
Qed.

Lemma cvar95_is_NaN_below_twenty_scenarios_witness :
  exists s,
    Sample.run64 Sample.balanced 19 12 42 = Ok s
    /\ isNaN (cvar95 (metrics s)) = true.
Proof.
  assert (Hok : is_Ok (Sample.run64 Sample.balanced 19 12 42) = true)
    by (vm_compute; reflexivity).
  destruct (is_Ok_inv _ Hok) as [s E].
  exists s. split; [exact E|].
  refine (cvar95_is_NaN_below_twenty_scenarios _ _ _ _ _ _ _ _ E).
  simpl. lia.
Defined.

Lemma Qred_inject_Z (z : Z) : Qred (inject_Z z) = inject_Z z.
Proof.
  unfold Qred, inject_Z.
  pose proof (Z.ggcd_gcd z 1) as Hg.
  pose proof (Z.ggcd_correct_divisors z 1) as Hd.
  destruct (Z.ggcd z 1) as [g [q r]]. cbn [fst snd] in *.
  rewrite Z.gcd_1_r in Hg. subst g. destruct Hd as [Hq Hr].
  replace q with z by lia. replace r with 1 by lia. reflexivity.
Qed.

Lemma ToInt32_of_Z (z : Z) : ToInt32 (of_Z z : Exact.xnum) = int32 z.
Proof.
  unfold of_Z. cbn [lit ToInt32 Exact.exact]. unfold Exact.fin, Exact.xint32.
  rewrite Qred_inject_Z. cbn [inject_Z Qnum Qden]. rewrite Z.quot_1_r. reflexivity.
Qed.

Lemma int32_period (z k : Z) : int32 (z + k * two32) = int32 z.
Proof.
  unfold int32. f_equal.
  replace (z + k * two32 + 2147483648) with (z + 2147483648 + k * two32) by ring.
  apply Z.mod_add. discriminate.
Qed.

(** X20.  The generator keeps [seed | 0] of its seed: two calls whose seeds
    have the same 32-bit integer part throw alike or return summaries that
    agree on every field other than [runId] (which is read from the clock
    and [Math.random]), whatever the two calls read from outside; in
    particular two integer seeds that differ by a multiple of 2^32 do. *)
Theorem runMonteCarlo_seed_int32 :
  (forall (num : Type) (N : Number num) (P : Platform num) (A : Assumptions num)
          (amb1 amb2 : Ambient num) portfolio config (seed1 seed2 : num),
      ToInt32 seed1 = ToInt32 seed2 ->
      Result_map (@without_runId num)
        (runMonteCarlo P A amb1 portfolio config (Some seed1))
      = Result_map (@without_runId num)
          (runMonteCarlo P A amb2 portfolio config (Some seed2)))
  /\ (forall (P : Platform Exact.xnum) (A : Assumptions Exact.xnum)
             (amb1 amb2 : Ambient Exact.xnum) portfolio config (z k : Z),
         Result_map (@without_runId Exact.xnum)
           (runMonteCarlo P A amb1 portfolio config (Some (of_Z (z + k * two32))))
         = Result_map (@without_runId Exact.xnum)
             (runMonteCarlo P A amb2 portfolio config (Some (of_Z z)))).
Proof.
  assert (H : forall (num : Type) (N : Number num) (P : Platform num) (A : Assumptions num)
                     (amb1 amb2 : Ambient num) portfolio cfg (seed1 seed2 : num),
             ToInt32 seed1 = ToInt32 seed2 ->
             Result_map (@without_runId num)
               (runMonteCarlo P A amb1 portfolio cfg (Some seed1))
             = Result_map (@without_runId num)
                 (runMonteCarlo P A amb2 portfolio cfg (Some seed2))).
  { intros num N P A amb1 amb2 portfolio cfg seed1 seed2 H.
    unfold runMonteCarlo, SeededRNG_new. rewrite H.
    destruct (bind _ _ _) as [[results rng']|e]; reflexivity. }
  split; [exact H|].
  intros P A amb1 amb2 portfolio cfg z k. apply H.
  rewrite !ToInt32_of_Z. apply int32_period.
Qed.

Lemma runMonteCarlo_seed_int32_witness :
  Result_map (@without_runId float)
    (runMonteCarlo Sample.platform64 Sample.assumptions
       (Sample.frozen 1700000000000 0.5) Sample.balanced (Sample.sim_config 10 12)
       (Some (B64.literal 42.7)))
  = Result_map (@without_runId float)
      (runMonteCarlo Sample.platform64 Sample.assumptions
         (Sample.frozen 1700000000999 0.25) Sample.balanced (Sample.sim_config 10 12)
         (Some (B64.literal 4294967338))).
Proof.
  apply (proj1 runMonteCarlo_seed_int32). vm_compute. reflexivity.
Defined.

(* ================================================================== *)
(** * The portfolios that the engine builds *)
(* ================================================================== *)

Section ValidWeights.
Import Exact NormalizeQ.
Local Open Scope Q_scope.

Lemma normalize_valid (allocs : Allocations xnum) :
  NoDup (keys allocs) ->
  Forall (fun v => isFinite v = true) (values allocs) ->
  valid_weights (normalize allocs).
Proof.
  intros Hnd Hfin.
  destruct (clamp_loop allocs Hnd Hfin) as (Hc1 & qs & Hv1 & Hnn & Hlen).
  destruct (normalize_values allocs qs Hc1 Hv1 Hnn Hlen) as (Hc & _ & Hv).
  destruct (normalizeQ_post qs Hnn Hlen) as (Hnn6 & Hsum6 & Hdust6).
  split.
  - intros k. destruct (complete_get _ k Hc) as (w & Hw & Hin).
    exists w. split; [exact Hw|].
    rewrite Hv in Hin. apply in_map_iff in Hin. destruct Hin as (q & <- & Hq).
    unfold nonneg in Hnn6. rewrite Forall_forall in Hnn6, Hdust6.
    specialize (Hnn6 q Hq). specialize (Hdust6 q Hq).
    split; [apply isFinite_xnum; exists q; reflexivity|].
    split.
    + apply xless_fin_false. change (Qred 0) with 0%Q. exact Hnn6.
    + destruct Hdust6 as [H0|Hbig].
      * apply andb_false_iff. left. apply xless_fin_false.
        change (Qred 0) with 0%Q. rewrite H0. apply Qle_refl.
      * apply andb_false_iff. right. apply xless_fin_false.
        change (Qred 0.005) with (1 # 200)%Q.
        apply Qle_trans with (4 # 205)%Q; [discriminate|exact Hbig].
  - rewrite Hv, sum_XFin. change (lit 1) with (XFin 1). f_equal.
    apply canon_eq; [apply total_canon | reflexivity |].
    rewrite total_Qsum. exact Hsum6.
Qed.

(** Finite numbers are closed under the arithmetic that builds a child. *)
Lemma finite_plus (x y : xnum) :
  isFinite x = true -> isFinite y = true -> isFinite (plus x y) = true.
Proof.
  rewrite !isFinite_xnum. intros [a ->] [b ->]. eexists. reflexivity.
Qed.

Lemma finite_minus (x y : xnum) :
  isFinite x = true -> isFinite y = true -> isFinite (minus x y) = true.
Proof.
  rewrite !isFinite_xnum. intros [a ->] [b ->]. eexists. reflexivity.
Qed.

Lemma finite_times (x y : xnum) :
  isFinite x = true -> isFinite y = true -> isFinite (times x y) = true.
Proof.
  rewrite !isFinite_xnum. intros [a ->] [b ->]. eexists. reflexivity.
Qed.

Lemma finite_lit (q : Q) : isFinite (lit q : xnum) = true.
Proof. apply isFinite_xnum. eexists. reflexivity. Qed.

Lemma finite_draw (u : xnum) : unit_draw u -> isFinite u = true.
Proof. intros (q & -> & _). apply isFinite_xnum. exists q. reflexivity. Qed.

Lemma finite_nullish (r : Allocations xnum) (k : AssetClass) :
  Forall (fun v => isFinite v = true) (values r) ->
  isFinite (nullish (lookup r k)) = true.
Proof.
  intros H. destruct (lookup r k) as [v|] eqn:E; cbn [nullish].
  - rewrite Forall_forall in H. apply H. apply (get_in_values r k v E).
  - apply finite_lit.
Qed.

Lemma values_assign (r : Allocations xnum) (k : AssetClass) (v : xnum) (Q : xnum -> Prop) :
  Forall Q (values r) -> Q v -> Forall Q (values (assign r k v)).
Proof.
  intros Hr Hv. induction r as [|[k' v'] r IH]; simpl.
  - constructor; [exact Hv | constructor].
  - inversion Hr as [|? ? Hv' Hr']; subst.
    destruct (AssetClass_eqb k k'); simpl.
    + constructor; assumption.
    + constructor; [exact Hv' | apply IH; exact Hr'].
Qed.

Lemma tidy_assign (r : Allocations xnum) (k : AssetClass) (v : xnum) :
  tidy r -> isFinite v = true -> tidy (assign r k v).
Proof.
  intros [Hnd Hfin] Hv. split; [apply NoDup_keys_set; exact Hnd|].
  apply values_assign; assumption.
Qed.

Lemma tidy_nil : tidy [].
Proof. split; constructor. Qed.

End ValidWeights.

Section Children.
Import Exact NormalizeQ.
Local Open Scope Q_scope.

Lemma randomPortfolio_returns : returns (randomPortfolio (num := xnum)) valid_weights.
Proof.
  unfold randomPortfolio.
  apply (returns_bind _ _ tidy).
  - apply returns_foldM; [|exact tidy_nil].
    intros result k Hr _.
    apply (returns_bind _ _ _ _ next_unit). intros u Hu.
    apply returns_ret. apply tidy_assign; [exact Hr | apply finite_draw; exact Hu].
  - intros result [Hnd Hfin]. apply returns_ret. apply normalize_valid; assumption.
Qed.

Lemma fold_assign_tidy (f : Allocations xnum -> AssetClass -> xnum) (ks : list AssetClass) :
  (forall r k, tidy r -> isFinite (f r k) = true) ->
  forall r, tidy r -> tidy (fold_left (fun result k => assign result k (f result k)) ks r).
Proof.
  intros Hf. induction ks as [|k ks IH]; intros r Hr; simpl; [exact Hr|].
  apply IH. apply tidy_assign; [exact Hr | apply Hf; exact Hr].
Qed.

Lemma crossover_returns (a b : Allocations xnum) :
  Forall (fun v => isFinite v = true) (values a) ->
  Forall (fun v => isFinite v = true) (values b) ->
  returns (crossover a b) valid_weights.
Proof.
  intros Ha Hb. unfold crossover.
  apply (returns_bind _ _ _ _ next_unit). intros crossType _.
  apply (returns_bind _ _ tidy).
  - destruct (less crossType (lit 0.5)).
    + apply returns_foldM; [|exact tidy_nil].
      intros result k Hr _.
      apply (returns_bind _ _ _ _ next_unit). intros u Hu.
      apply returns_ret. apply tidy_assign; [exact Hr|].
      destruct (less u (lit 0.5)); apply finite_nullish; assumption.
    + apply (returns_bind _ _ _ _ next_unit). intros u Hu.
      apply returns_ret.
      apply (fold_assign_tidy
               (fun _ k => plus (times (plus (lit 0.2) (times u (lit 0.6))) (nullish (lookup a k)))
                                (times (minus (lit 1) (plus (lit 0.2) (times u (lit 0.6))))
                                       (nullish (lookup b k)))));
        [|exact tidy_nil].
      intros r k _.
      assert (Halpha : isFinite (plus (lit 0.2) (times u (lit 0.6))) = true).
      { apply finite_plus; [apply finite_lit|].
        apply finite_times; [apply finite_draw; exact Hu | apply finite_lit]. }
      apply finite_plus; apply finite_times;
        try (apply finite_nullish; assumption); try exact Halpha.
      apply finite_minus; [apply finite_lit | exact Halpha].
  - intros result [Hnd Hfin]. apply returns_ret. apply normalize_valid; assumption.
Qed.

End Children.

(** X21.  [randomPortfolio] never throws and, on exact numbers, always
    returns weights that [normalize] promises: one per asset class, real,
    not negative, none strictly between 0 and 0.005, summing to 1. *)
Theorem randomPortfolio_valid :
  returns (randomPortfolio (num := Exact.xnum)) valid_weights.
Proof. exact randomPortfolio_returns. Qed.

(** X22.  [crossover] of two parents whose weights are real numbers never
    throws and, on exact numbers, returns weights that [normalize]
    promises, whichever of the two crossovers is drawn. *)
Theorem crossover_valid :
  forall a b : Allocations Exact.xnum,
    Forall (fun v => isFinite v = true) (values a) ->
    Forall (fun v => isFinite v = true) (values b) ->
    returns (crossover a b) valid_weights.
Proof. exact crossover_returns. Qed.

Lemma crossover_valid_witness :
  returns (crossover (allocations (Sample.balanced (num := Exact.xnum)))
                     (allocations Sample.sixty_forty))
          valid_weights.
Proof.
  apply crossover_valid; repeat constructor.
Defined.

(** ** The fallback to equal weights *)

Section EqualWeights.
Context {num : Type} {N : Number num}.

Lemma constant_loop (f : option num -> num) (r : Allocations num) (c : num) :
  NoDup (keys r) -> (forall k, In k (keys r)) -> values r = repeat c 10 ->
  NoDup (keys (for_all_assets f r))
  /\ (forall k, In k (keys (for_all_assets f r)))
  /\ values (for_all_assets f r) = repeat (f (Some c)) 10.
Proof.
  intros Hnd Hall Hv.
  split; [apply for_all_assets_NoDup; exact Hnd|].
  split; [intros k; apply for_all_assets_complete|].
  rewrite (for_all_assets_map f r Hnd Hall).
  rewrite (values_map (fun v => f (Some v))), Hv. apply map_repeat.
Qed.

Lemma constant_clamp (allocs : Allocations num) :
  NoDup (keys allocs) ->
  Forall (fun v => Math_max2 (lit 0) v = lit 0) (values allocs) ->
  Math_max2 (lit 0) (lit 0 : num) = lit 0 ->
  NoDup (keys (for_all_assets (fun v => Math_max2 (lit 0) (nullish v)) allocs))
  /\ (forall k, In k (keys (for_all_assets (fun v => Math_max2 (lit 0) (nullish v)) allocs)))
  /\ values (for_all_assets (fun v => Math_max2 (lit 0) (nullish v)) allocs)
     = repeat (lit 0) 10.
Proof.
  intros Hnd Hall H0.
  set (r1 := for_all_assets _ allocs).
  assert (Hnd1 : NoDup (keys r1)) by (apply for_all_assets_NoDup; exact Hnd).
  assert (Hall1 : forall k, In k (keys r1)) by (intros k; apply for_all_assets_complete).
  split; [exact Hnd1|]. split; [exact Hall1|].
  rewrite <- (complete_length r1 Hnd1 Hall1).
  apply Forall_eq_repeat. apply Forall_forall. intros v Hv.
  unfold values in Hv. apply in_map_iff in Hv. destruct Hv as ([k w] & <- & Hin). cbn [snd].
  apply In_get in Hin; [|exact Hnd1].
  unfold r1 in Hin. rewrite for_all_assets_get in Hin. inversion Hin as [Hw]. clear Hin.
  destruct (get AssetClass_eqb allocs k) as [x|] eqn:E; cbn [nullish].
  - apply get_in_values in E. rewrite Forall_forall in Hall. symmetry. apply Hall. exact E.
  - symmetry. exact H0.
Qed.

Lemma values_if (b : bool) (x y : Allocations num) (v w : num) :
  values x = repeat v 10 -> values y = repeat w 10 ->
  values (if b then x else y) = repeat (if b then v else w) 10.
Proof. destruct b; intros; assumption. Qed.

(** The weight that [normalize] gives every asset class when the clamped
    weights are all 0: the statements of the function, on one weight. *)
Let total : num := sum (repeat (lit 0) 10).
Let shared : num :=
  if strict_eq total (lit 0)
  then divide (lit 1) (of_nat (List.length ALL_ASSETS))
  else div_by total (Some (lit 0)).
Let kept : num := if less shared (lit 0.02) then lit 0 else shared.
Let total2 : num := sum (repeat kept 10).
Let rounded : num :=
  divide (Math_round (times (div_by total2 (Some kept)) (lit 200))) (lit 200).
Let total3 : num := sum (repeat rounded 10).
Let share : num :=
  if less (lit 0) total3 then div_by total3 (Some rounded) else rounded.

(** With nothing to share out, what [normalize] returns does not depend
    on the record: the same weight for every asset class. *)
Lemma normalize_of_nothing (allocs : Allocations num) :
  NoDup (keys allocs) ->
  Forall (fun v => Math_max2 (lit 0) v = lit 0) (values allocs) ->
  Math_max2 (lit 0) (lit 0 : num) = lit 0 ->
  forall k, get AssetClass_eqb (normalize allocs) k = Some share.
Proof.
  intros Hnd Hall H0 k.
  destruct (constant_clamp allocs Hnd Hall H0) as (Hnd1 & Hall1 & Hv1).
  assert (H : NoDup (keys (normalize allocs))
              /\ (forall k, In k (keys (normalize allocs)))
              /\ values (normalize allocs) = repeat share 10).
  { unfold normalize, snapped. cbv zeta.
    rewrite Hv1. fold total.
    set (r1 := for_all_assets (fun v => Math_max2 (lit 0) (nullish v)) allocs) in *.
    set (r2 := if strict_eq total (lit 0) then _ else _).
    assert (H2 : NoDup (keys r2) /\ (forall k, In k (keys r2))
                 /\ values r2 = repeat shared 10).
    { unfold r2, shared. destruct (strict_eq total (lit 0)).
      - apply (constant_loop
                 (fun _ => divide (lit 1) (of_nat (List.length ALL_ASSETS))) r1 (lit 0));
          assumption.
      - apply (constant_loop (div_by total) r1 (lit 0)); assumption. }
    destruct H2 as (Hnd2 & Hall2 & Hv2).
    destruct (constant_loop
                (fun v => if less (nullish v) (lit 0.02) then lit 0 else nullish v)
                r2 shared Hnd2 Hall2 Hv2) as (Hnd3 & Hall3 & Hv3).
    cbn [nullish] in Hv3. fold kept in Hv3.
    set (r3 := for_all_assets _ r2) in *.
    rewrite Hv3. fold total2.
    destruct (constant_loop (div_by total2) r3 kept Hnd3 Hall3 Hv3)
      as (Hnd4 & Hall4 & Hv4).
    set (r4 := for_all_assets _ r3) in *.
    destruct (constant_loop
                (fun v => divide (Math_round (times (nullish v) (lit 200))) (lit 200))
                r4 _ Hnd4 Hall4 Hv4) as (Hnd5 & Hall5 & Hv5).
    cbn [nullish] in Hv5. fold rounded in Hv5.
    set (r5 := for_all_assets _ r4) in *.
    rewrite Hv5. fold total3.
    destruct (constant_loop (div_by total3) r5 rounded Hnd5 Hall5 Hv5)
      as (Hnd6 & Hall6 & Hv6).
    unfold share. destruct (less (lit 0) total3).
    - split; [exact Hnd6|]. split; [exact Hall6 | exact Hv6].
    - split; [exact Hnd5|]. split; [exact Hall5 | exact Hv5]. }
  destruct H as (Hnd' & Hall' & Hv').
  destruct (get_Some_of_key _ k (Hall' k)) as [w Hw].
  rewrite Hw. f_equal.
  apply get_in_values in Hw. rewrite Hv' in Hw. apply repeat_spec in Hw. exact Hw.
Qed.

End EqualWeights.

Lemma clamp_nothing {num} {N : Number num} (v : num) :
  isNaN (lit 0 : num) = false -> isNaN v = false -> less (lit 0) v = false ->
  Math_max2 (lit 0) v = lit 0.
Proof. intros H0 Hv Hl. unfold Math_max2. rewrite H0, Hv, Hl. reflexivity. Qed.

(** X23.  When no weight is above 0 (negative weights, zeros and missing
    keys; no NaN), [normalize] falls back to ten equal weights, whatever
    the record: 0.1 each on exact numbers, and on doubles
    0.10000000000000002 each, one unit in the last place above the double
    0.1 (ten times 0.1 sum to 0.9999999999999999, by which the last two
    normalizations divide). *)
Theorem normalize_falls_back_to_equal_weights :
  (forall allocs : Allocations Exact.xnum,
      NoDup (keys allocs) ->
      Forall (fun v => isNaN v = false /\ less (lit 0) v = false) (values allocs) ->
      forall k, get AssetClass_eqb (normalize allocs) k = Some (lit 0.1))
  /\ (forall allocs : Allocations float,
        NoDup (keys allocs) ->
        Forall (fun v => isNaN v = false /\ less (lit 0) v = false) (values allocs) ->
        forall k,
          get AssetClass_eqb (normalize allocs) k = Some 0x1.999999999999bp-4%float).
Proof.
  split; intros allocs Hnd Hall k.
  - rewrite (normalize_of_nothing allocs Hnd); [vm_compute; reflexivity | | reflexivity].
    apply (Forall_impl _ (P := fun v => isNaN v = false /\ less (lit 0) v = false));
      [|exact Hall].
    intros v [Hv Hl]. apply clamp_nothing; [reflexivity | exact Hv | exact Hl].
  - rewrite (normalize_of_nothing allocs Hnd); [vm_compute; reflexivity | | reflexivity].
    apply (Forall_impl _ (P := fun v => isNaN v = false /\ less (lit 0) v = false));
      [|exact Hall].
    intros v [Hv Hl]. apply clamp_nothing; [reflexivity | exact Hv | exact Hl].
Qed.

Lemma normalize_falls_back_to_equal_weights_witness :
  get AssetClass_eqb
    (normalize [ (usEquities, B64.literal (-0.3)); (gold, B64.literal 0) ]) usEquities
  = Some 0x1.999999999999bp-4%float
  /\ get AssetClass_eqb
       (normalize [ (usEquities, B64.literal (-0.3)); (gold, B64.literal 0) ]) cash
     = Some 0x1.999999999999bp-4%float
  /\ get AssetClass_eqb
       (normalize [ (usEquities, Exact.fin (-0.3)); (gold, Exact.fin 0) ]) cash
     = Some (lit 0.1).
Proof.
  split; [|split].
  - apply (proj2 normalize_falls_back_to_equal_weights).
    + repeat (constructor; [simpl; intuition discriminate|]). constructor.
    + repeat constructor.
  - apply (proj2 normalize_falls_back_to_equal_weights).
    + repeat (constructor; [simpl; intuition discriminate|]). constructor.
    + repeat constructor.
  - apply (proj1 normalize_falls_back_to_equal_weights).
    + repeat (constructor; [simpl; intuition discriminate|]). constructor.
    + repeat constructor.
Defined.

(* ================================================================== *)
(** * The matrices and vectors of [stats.ts] and [rng.ts] *)
(* ================================================================== *)

Section MatrixFacts.
Context {num : Type} {N : Number num}.

Lemma set_nth_length {X} (xs : list X) : forall i x, List.length (set_nth xs i x) = List.length xs.
Proof.
  induction xs as [|y xs IH]; intros i x; [reflexivity|].
  destruct i; simpl; [reflexivity | f_equal; apply IH].
Qed.

Lemma nth_error_set_nth {X} (xs : list X) :
  forall i j x,
    nth_error (set_nth xs i x) j
    = if andb (i =? j)%nat (i <? List.length xs)%nat then Some x else nth_error xs j.
Proof.
  induction xs as [|y xs IH]; intros i j x.
  - simpl. rewrite andb_false_r. reflexivity.
  - destruct i as [|i], j as [|j]; simpl; try reflexivity.
    rewrite IH. reflexivity.
Qed.

Lemma square_set_entry (n : nat) (m : list (list num)) (i j : nat) (x : num) :
  square n m -> square n (set_entry m i j x).
Proof.
  intros [Hl Hrows]. unfold set_entry.
  destruct (nth_error m i) as [row|] eqn:E; [|split; assumption].
  split; [rewrite set_nth_length; exact Hl|].
  apply Forall_forall. intros r Hr.
  apply In_nth_error in Hr. destruct Hr as [k Hk].
  rewrite nth_error_set_nth in Hk.
  rewrite Forall_forall in Hrows.
  destruct (andb _ _).
  - inversion Hk; subst r. rewrite set_nth_length.
    apply Hrows. eapply nth_error_In. exact E.
  - apply Hrows. eapply nth_error_In. exact Hk.
Qed.

Lemma entry_set_entry_other (m : list (list num)) (i j i' j' : nat) (x : num) :
  i <> i' \/ j <> j' -> entry (set_entry m i j x) i' j' = entry m i' j'.
Proof.
  intros Hne. unfold set_entry, entry.
  destruct (nth_error m i) as [row|] eqn:E; [|reflexivity].
  rewrite nth_error_set_nth.
  destruct (Nat.eqb_spec i i') as [<-|Hi]; cbn [andb]; [|reflexivity].
  destruct (i <? List.length m)%nat eqn:El.
  - rewrite E, nth_error_set_nth.
    destruct (Nat.eqb_spec j j') as [<-|Hj]; cbn [andb]; [|reflexivity].
    destruct Hne; contradiction.
  - reflexivity.
Qed.

Lemma square_repeat (n : nat) (x : num) : square n (repeat (repeat x n) n).
Proof.
  split; [apply repeat_length|].
  apply Forall_forall. intros row Hrow. apply repeat_spec in Hrow. subst row.
  apply repeat_length.
Qed.

Lemma entry_repeat (n : nat) (x : num) (i j : nat) :
  (i < n)%nat -> (j < n)%nat -> entry (repeat (repeat x n) n) i j = x.
Proof.
  intros Hi Hj. unfold entry.
  rewrite (nth_error_repeat _ Hi), (nth_error_repeat _ Hj). reflexivity.
Qed.

End MatrixFacts.

Lemma fold_left_keeps {X Y} (I : X -> Prop) (Q : Y -> Prop) (step : X -> Y -> X) :
  (forall a b, Q b -> I a -> I (step a b)) ->
  forall bs a, Forall Q bs -> I a -> I (fold_left step bs a).
Proof.
  intros Hstep. induction bs as [|b bs IH]; intros a Hbs Ha; simpl; [exact Ha|].
  inversion Hbs; subst. apply IH; [assumption|]. apply Hstep; assumption.
Qed.

Section CholeskyFacts.
Context {num : Type} {N : Number num} (P : Platform num).

Lemma lower_set_entry (n : nat) (L : list (list num)) (i j : nat) (x : num) :
  (j <= i)%nat -> lower_triangular n L -> lower_triangular n (set_entry L i j x).
Proof.
  intros Hj [Hsq Hzero]. split; [apply square_set_entry; exact Hsq|].
  intros i' j' Hlt Hn. rewrite entry_set_entry_other; [apply Hzero; assumption|].
  destruct (Nat.eq_dec i i') as [<-|Hi]; [right; lia | left; exact Hi].
Qed.

Lemma cholesky_lower (matrix : list (list num)) :
  lower_triangular (List.length matrix) (cholesky P matrix).
Proof.
  unfold cholesky. cbv zeta.
  apply (fold_left_keeps (lower_triangular (List.length matrix)) (fun _ => True)).
  - intros L i _ HL.
    apply (fold_left_keeps (lower_triangular (List.length matrix)) (fun j => (j <= i)%nat));
      [| |exact HL].
    + intros L' j Hj HL'. destruct (i =? j)%nat; apply lower_set_entry; assumption.
    + apply Forall_forall. intros j Hj. apply in_seq in Hj. lia.
  - apply Forall_forall. intros i _. exact I.
  - split; [apply square_repeat|].
    intros i j Hlt Hn. apply entry_repeat; lia.
Qed.

Lemma mvnSample_length (L : list (list num)) (z : list num) :
  List.length (mvnSample L z) = List.length L.
Proof. unfold mvnSample. rewrite length_map, length_seq. reflexivity. Qed.

End CholeskyFacts.

Section CholeskyExact.
Import Exact.
Local Open Scope Q_scope.
Variable P : Platform xnum.
Hypothesis sqrt_ok : sqrt_positive P.

Lemma entry_set_entry_same (m : list (list xnum)) (n i j : nat) (x : xnum) :
  square n m -> (i < n)%nat -> (j < n)%nat -> entry (set_entry m i j x) i j = x.
Proof.
  intros [Hl Hrows] Hi Hj. unfold set_entry, entry.
  destruct (nth_error m i) as [row|] eqn:E.
  - rewrite nth_error_set_nth, Nat.eqb_refl.
    rewrite (proj2 (Nat.ltb_lt _ _)) by lia. cbn [andb].
    rewrite nth_error_set_nth, Nat.eqb_refl.
    rewrite Forall_forall in Hrows.
    rewrite (Hrows row (nth_error_In _ _ E)).
    rewrite (proj2 (Nat.ltb_lt _ _) Hj). reflexivity.
  - apply nth_error_None in E. lia.
Qed.

Lemma real_set_entry (n : nat) (m : list (list xnum)) (i j : nat) (x : xnum) :
  (i < n)%nat -> (j < n)%nat -> isFinite x = true ->
  real_matrix n m -> real_matrix n (set_entry m i j x).
Proof.
  intros Hi Hj Hx [Hsq Hreal]. split; [apply square_set_entry; exact Hsq|].
  intros i' j' Hi' Hj'.
  destruct (Nat.eq_dec i i') as [<-|Hne].
  - destruct (Nat.eq_dec j j') as [<-|Hne'].
    + rewrite (entry_set_entry_same m n i j x Hsq Hi Hj). exact Hx.
    + rewrite entry_set_entry_other by (right; exact Hne'). apply Hreal; assumption.
  - rewrite entry_set_entry_other by (left; exact Hne). apply Hreal; assumption.
Qed.

(** The sum of products over the first [j] columns. *)
Lemma partial_sum_real (n : nat) (L : list (list xnum)) (i j : nat) :
  real_matrix n L -> (i < n)%nat -> (j < n)%nat ->
  forall ks acc,
    Forall (fun k => (k < n)%nat) ks -> isFinite acc = true ->
    isFinite (fold_left (fun sum k => plus sum (times (entry L i k) (entry L j k))) ks acc)
    = true.
Proof.
  intros [_ Hreal] Hi Hj. induction ks as [|k ks IH]; intros acc Hks Hacc; simpl; [exact Hacc|].
  inversion Hks; subst. apply IH; [assumption|].
  apply finite_plus; [exact Hacc|]. apply finite_times; apply Hreal; assumption.
Qed.

Lemma clamped_root (x : xnum) :
  isFinite x = true ->
  exists r, Math_sqrt P (Math_max2 x (lit 1e-10)) = XFin r /\ 0 < r.
Proof.
  intros Hx. apply isFinite_xnum in Hx. destruct Hx as [q ->].
  unfold Math_max2. rewrite !isNaN_xnum. cbn [orb].
  change (lit 1e-10) with (XFin 1e-10).
  destruct (less (XFin q) (XFin 1e-10)) eqn:E.
  - apply sqrt_ok. apply Qle_refl.
  - apply sqrt_ok. apply xless_fin_false in E. exact E.
Qed.

End CholeskyExact.

Lemma fold_seq_keeps {X} (I : nat -> X -> Prop) (step : X -> nat -> X) (n : nat) :
  (forall i a, (i < n)%nat -> I i a -> I (S i) (step a i)) ->
  forall a, I 0%nat a -> I n (fold_left step (seq 0 n) a).
Proof.
  intros Hstep a Ha.
  assert (H : forall k, (k <= n)%nat -> I k (fold_left step (seq 0 k) a)).
  { induction k as [|k IH]; intros Hk; [exact Ha|].
    rewrite seq_S, fold_left_app. simpl. apply Hstep; [lia | apply IH; lia]. }
  apply H. lia.
Qed.

Section CholeskyReal.
Import Exact.
Local Open Scope Q_scope.
Variable P : Platform xnum.
Hypothesis sqrt_ok : sqrt_positive P.
Variables (n : nat) (matrix : list (list xnum)).
Hypothesis matrix_real : real_matrix n matrix.

Lemma off_diagonal_step (i j : nat) (L : list (list xnum)) :
  (i < n)%nat -> (j < i)%nat -> rows_done n i L ->
  rows_done n i
    (set_entry L i j
       (divide (minus (entry matrix i j)
                  (fold_left (fun sum k => plus sum (times (entry L i k) (entry L j k)))
                     (seq 0 j) (lit 0)))
               (entry L j j))).
Proof.
  intros Hi Hj [Hreal Hdiag].
  destruct (Hdiag j Hj) as (r & Hr & Hpos).
  assert (Hsum : isFinite (fold_left (fun sum k => plus sum (times (entry L i k) (entry L j k)))
                             (seq 0 j) (lit 0)) = true).
  { apply (partial_sum_real n L i j Hreal Hi); [lia | | apply finite_lit].
    apply Forall_forall. intros k Hk. apply in_seq in Hk. lia. }
  assert (Hm : isFinite (entry matrix i j) = true) by (apply matrix_real; lia).
  split.
  - apply real_set_entry; [exact Hi | lia | | exact Hreal].
    pose proof (finite_minus _ _ Hm Hsum) as Hnum.
    apply isFinite_xnum in Hnum. destruct Hnum as [a ->].
    rewrite Hr, divide_fin by lra. apply isFinite_xnum. eexists. reflexivity.
  - intros j' Hj'. rewrite entry_set_entry_other by (left; lia). apply Hdiag. exact Hj'.
Qed.

Lemma diagonal_step (i : nat) (L : list (list xnum)) :
  (i < n)%nat -> rows_done n i L ->
  rows_done n (S i)
    (set_entry L i i
       (Math_sqrt P
          (Math_max2
             (minus (entry matrix i i)
                (fold_left (fun sum k => plus sum (times (entry L i k) (entry L i k)))
                   (seq 0 i) (lit 0)))
             (lit 1e-10)))).
Proof.
  intros Hi [Hreal Hdiag].
  assert (Hsum : isFinite (fold_left (fun sum k => plus sum (times (entry L i k) (entry L i k)))
                             (seq 0 i) (lit 0)) = true).
  { apply (partial_sum_real n L i i Hreal Hi Hi); [| apply finite_lit].
    apply Forall_forall. intros k Hk. apply in_seq in Hk. lia. }
  assert (Hm : isFinite (entry matrix i i) = true) by (apply matrix_real; lia).
  destruct (clamped_root P sqrt_ok _ (finite_minus _ _ Hm Hsum)) as (r & Hr & Hpos).
  rewrite Hr. split.
  - apply real_set_entry; [exact Hi | exact Hi | | exact Hreal].
    apply isFinite_xnum. eexists. reflexivity.
  - intros j Hj. destruct (Nat.eq_dec j i) as [->|Hne].
    + rewrite (entry_set_entry_same L n i i _ (proj1 Hreal) Hi Hi). exists r. split; [reflexivity | exact Hpos].
    + rewrite entry_set_entry_other by (left; lia). apply Hdiag. lia.
Qed.

Lemma cholesky_rows_done :
  List.length matrix = n -> rows_done n n (cholesky P matrix).
Proof.
  intros Hn. unfold cholesky. cbv zeta. rewrite Hn.
  apply (fold_seq_keeps (rows_done n)).
  - intros i L Hi HL.
    rewrite seq_S, fold_left_app. cbn [Nat.add fold_left]. rewrite Nat.eqb_refl.
    apply diagonal_step; [exact Hi|].
    apply (fold_left_keeps (rows_done n i) (fun j => (j < i)%nat)); [| |exact HL].
    + intros L' j Hj HL'.
      destruct (Nat.eqb_spec i j) as [->|Hne]; [lia|].
      apply off_diagonal_step; assumption.
    + apply Forall_forall. intros j Hj. apply in_seq in Hj. lia.
  - split; [|intros j Hj; lia].
    split; [apply square_repeat|].
    intros i j Hi Hj. rewrite entry_repeat by assumption. apply finite_lit.
Qed.

End CholeskyReal.

Lemma platformX_sqrt_positive : sqrt_positive Sample.platformX.
Proof.
  intros q Hq. cbn [Math_sqrt Sample.platformX Sample.xsqrt].
  assert (Hneg : Exact.Qneg q = false).
  { unfold Exact.Qneg. apply negb_false_iff. apply Qle_bool_iff.
    apply Qle_trans with (1e-10)%Q; [discriminate | exact Hq]. }
  rewrite Hneg. eexists. split; [reflexivity|].
  rewrite Qred_correct. unfold FixedPoint.sqrt. rewrite Qred_correct.
  unfold Qlt. cbn [Qnum Qden]. rewrite Z.mul_1_r, Z.mul_0_l.
  apply Z.sqrt_pos.
  assert (H : (Qfloor 1 <= Qfloor (q * inject_Z (FixedPoint.places * FixedPoint.places)))%Z).
  { apply Qfloor_resp_le.
    change (inject_Z (FixedPoint.places * FixedPoint.places))
      with (1000000000000000000000000%Q).
    apply Qle_trans with (1e-10 * 1000000000000000000000000)%Q; [discriminate|].
    apply Qmult_le_compat_r; [exact Hq | discriminate]. }
  change (Qfloor 1) with 1%Z in H. lia.
Qed.

Section SampleFacts.
Import Exact.

Lemma fold_NaN {Y} (g : Y -> xnum) (js : list Y) :
  fold_left (fun acc j => plus acc (g j)) js XNaN = XNaN.
Proof. induction js as [|j js IH]; simpl; [reflexivity | exact IH]. Qed.

(** A component of [mvnSample] whose row reaches past the end of [z] is
    NaN. *)
Lemma mvnSample_short (L : list (list xnum)) (z : list xnum) (i : nat) :
  (i < List.length L)%nat -> (List.length z <= i)%nat ->
  nth_error (mvnSample L z) i = Some NaN.
Proof.
  intros Hi Hz. unfold mvnSample.
  rewrite nth_error_map, nth_error_seq.
  rewrite (proj2 (Nat.ltb_lt _ _) Hi). cbn [option_map Nat.add]. f_equal.
  replace (S i) with (List.length z + S (i - List.length z))%nat by lia.
  rewrite seq_app, fold_left_app. cbn [Nat.add seq fold_left].
  rewrite (proj2 (nth_error_None z (List.length z)) (Nat.le_refl _)).
  set (acc := fold_left _ (seq 0 (List.length z)) _).
  set (x := entry L i (List.length z)).
  assert (H : plus acc (times x NaN) = XNaN).
  { change (NaN : xnum) with XNaN. destruct acc, x; reflexivity. }
  rewrite H. apply fold_NaN.
Qed.

End SampleFacts.

Section VectorFacts.
Context {num : Type} {N : Number num} (P : Platform num).

Lemma next_advances (rng : SeededRNG) : exists u : num, next rng = Ok (u, advance rng).
Proof. unfold next, advance. eexists. reflexivity. Qed.

Lemma nextGaussian_advances (rng : SeededRNG) :
  exists g, nextGaussian P rng = Ok (g, advance (advance rng)).
Proof.
  unfold nextGaussian, bind.
  destruct (next_advances rng) as [u1 ->].
  destruct (next_advances (advance rng)) as [u2 ->].
  eexists. reflexivity.
Qed.

Lemma forM_nextGaussian (n : nat) :
  forall from rng,
  exists v,
    forM (fun _ => nextGaussian P) from n rng = Ok (v, Nat.iter (2 * n) advance rng)
    /\ List.length v = n.
Proof.
  induction n as [|n IH]; intros from rng.
  - exists []. split; reflexivity.
  - cbn [forM]. unfold bind at 1.
    destruct (nextGaussian_advances rng) as [g ->].
    unfold bind at 1.
    destruct (IH (S from) (advance (advance rng))) as (v & -> & Hlen).
    exists (g :: v). split; [|simpl; f_equal; exact Hlen].
    unfold ret. do 2 f_equal.
    replace (2 * S n)%nat with (2 * n + 2)%nat by lia.
    rewrite Nat.iter_add. reflexivity.
Qed.

End VectorFacts.

(** X24.  [cholesky] returns a matrix with as many rows and columns as its
    argument has rows, whose entries above the diagonal are 0, whatever the
    argument holds (rows too short, NaN, a matrix that is not positive
    definite). *)
Theorem cholesky_lower_triangular :
  forall (num : Type) (N : Number num) (P : Platform num) (matrix : list (list num)),
    lower_triangular (List.length matrix) (cholesky P matrix).
Proof.
  intros num N P matrix. apply cholesky_lower.
Qed.

(** X25.  On exact numbers and with a square root that is positive from
    1e-10 on, [cholesky] of a square matrix of real numbers holds real
    numbers only, and its diagonal is positive: the clamp at 1e-10 keeps
    the square root and the division defined, positive definite or not. *)
Theorem cholesky_real_positive_diagonal :
  forall (P : Platform Exact.xnum) (matrix : list (list Exact.xnum)),
    sqrt_positive P ->
    real_matrix (List.length matrix) matrix ->
    real_matrix (List.length matrix) (cholesky P matrix)
    /\ forall j, (j < List.length matrix)%nat ->
         exists r, entry (cholesky P matrix) j j = Exact.XFin r /\ (0 < r)%Q.
Proof.
  intros P matrix Hsqrt Hreal.
  exact (cholesky_rows_done P Hsqrt (List.length matrix) matrix Hreal eq_refl).
Qed.

Lemma cholesky_real_positive_diagonal_witness :
  real_matrix 2 (cholesky Sample.platformX
                   [[Exact.fin 4; Exact.fin 2]; [Exact.fin 2; Exact.fin (-3)]])
  /\ forall j, (j < 2)%nat ->
       exists r,
         entry (cholesky Sample.platformX
                  [[Exact.fin 4; Exact.fin 2]; [Exact.fin 2; Exact.fin (-3)]]) j j
         = Exact.XFin r /\ (0 < r)%Q.
Proof.
  apply (cholesky_real_positive_diagonal Sample.platformX
           [[Exact.fin 4; Exact.fin 2]; [Exact.fin 2; Exact.fin (-3)]]).
  - exact platformX_sqrt_positive.
  - split; [split; [reflexivity | repeat constructor]|].
    intros i j Hi Hj. cbn [List.length] in Hi, Hj.
    destruct i as [|[|i]]; [| |lia]; (destruct j as [|[|j]]; [| |lia]); reflexivity.
Defined.

(** X26.  [mvnSample] returns one component per row of [L]; on exact
    numbers, a component whose row reaches past the end of [z] is NaN (no
    exception is thrown for a vector that is too short). *)
Theorem mvnSample_components :
  forall (L : list (list Exact.xnum)) (z : list Exact.xnum),
    List.length (mvnSample L z) = List.length L
    /\ forall i, (i < List.length L)%nat -> (List.length z <= i)%nat ->
         nth_error (mvnSample L z) i = Some NaN.
Proof.
  intros L z. split; [apply mvnSample_length|].
  intros i Hi Hz. exact (mvnSample_short L z i Hi Hz).
Qed.

(** X27.  [nextGaussianVector(n)] never throws, returns [n] values and
    advances the generator by exactly [2 n] draws, on every platform and
    whatever the values drawn. *)
Theorem nextGaussianVector_draws :
  forall (num : Type) (N : Number num) (P : Platform num) (n : nat) (rng : SeededRNG),
  exists v,
    nextGaussianVector P n rng = Ok (v, Nat.iter (2 * n) advance rng)
    /\ List.length v = n.
Proof.
  intros num N P n rng. apply forM_nextGaussian.
Qed.

(* ================================================================== *)
(** * When an evolution returns *)
(* ================================================================== *)

Section EvolveReturns.
Import Exact.
Local Open Scope Q_scope.
Variables (P : Platform xnum) (A : Assumptions xnum) (ambient : nat -> Ambient xnum).
Hypothesis table_total : forall r, regimes A r <> None.

Lemma with_rng_returns {X} (m : M SeededRNG X) (Q : X -> Prop) :
  returns m Q -> returns (with_rng m) Q.
Proof.
  intros H st. destruct (H (evo_rng st)) as (x & rng' & E & Hx).
  unfold with_rng. rewrite E. eexists _, _. split; [reflexivity | exact Hx].
Qed.

Lemma simulate_returns portfolio cfg seed :
  runnable A cfg -> returns (simulate P A ambient portfolio cfg seed) (fun _ => True).
Proof.
  intros [Htable Hne] st. unfold simulate.
  destruct (runMonteCarlo_results P A (ambient (sim_calls st)) portfolio cfg (Some seed)
              Htable Hne) as (s & results & E & _).
  rewrite E. eexists _, _. split; [reflexivity | exact I].
Qed.

Lemma evaluate_returns config cfg allocs gen tag :
  runnable A cfg ->
  returns (evaluate P A ambient config cfg allocs gen tag) (fun _ => True).
Proof.
  intros Hcfg. unfold evaluate.
  apply (returns_bind _ _ (fun _ => True)).
  { apply with_rng_returns. apply (returns_weaken _ _ _ next_unit). trivial. }
  intros u _.
  apply (returns_bind _ _ _ _ (simulate_returns _ cfg _ Hcfg)). intros s _.
  apply returns_ret. exact I.
Qed.

Lemma ALL_ASSETS_not_nil : ALL_ASSETS <> [].
Proof. discriminate. Qed.

Lemma next_xnum_returns : returns (next (num := xnum)) (fun _ => True).
Proof. apply (returns_weaken _ _ _ next_unit). trivial. Qed.

Lemma mutate_returns (allocs : Allocations xnum) (rate : xnum) :
  returns (mutate P allocs rate) (fun _ => True).
Proof.
  unfold mutate.
  apply (returns_bind _ _ _ _ next_xnum_returns). intros mutationType _.
  apply (returns_bind _ _ (fun _ => True)); [|intros; apply returns_ret; exact I].
  destruct (less mutationType (lit 0.3)).
  { apply (returns_bind _ _ _ _ (pick_asset_returns _ ALL_ASSETS_not_nil)). intros from _.
    apply (returns_bind _ _ _ _ (pick_asset_returns _ ALL_ASSETS_not_nil)). intros to _.
    apply (returns_bind _ _ _ _ next_xnum_returns). intros u _.
    apply returns_ret. exact I. }
  destruct (less mutationType (lit 0.55)).
  { apply returns_foldM; [|exact I]. intros result k _ _.
    apply (returns_bind _ _ _ _ (nextGaussian_returns P)). intros g _.
    apply returns_ret. exact I. }
  destruct (less mutationType (lit 0.7)).
  { apply (returns_bind _ _ _ _ (pick_asset_returns _ ALL_ASSETS_not_nil)). intros a _.
    apply (returns_bind _ _ _ _ (pick_asset_returns _ ALL_ASSETS_not_nil)). intros b _.
    apply returns_ret. exact I. }
  destruct (less mutationType (lit 0.85)).
  { apply (returns_bind _ _ _ _ (pick_asset_returns _ ALL_ASSETS_not_nil)). intros kill _.
    cbv zeta.
    destruct (filter _ ALL_ASSETS) as [|t ts] eqn:E; [apply returns_ret; exact I|].
    apply (returns_bind _ _ (fun _ => True)).
    - assert (Hne : t :: ts <> []) by discriminate.
      apply (returns_weaken _ _ _ (pick_asset_returns (t :: ts) Hne)). trivial.
    - intros target _. apply returns_ret. exact I. }
  cbv zeta.
  assert (Hh : [tips; commodities; gold; shortTermBonds] <> []) by discriminate.
  assert (Hr : [usEquities; intlEquities; emergingEquities; longTermBonds] <> [])
    by discriminate.
  apply (returns_bind _ _ _ _ (pick_asset_returns _ Hh)). intros hedge _.
  apply (returns_bind _ _ _ _ (pick_asset_returns _ Hr)). intros risk _.
  apply (returns_bind _ _ _ _ next_xnum_returns). intros u _.
  apply returns_ret. exact I.
Qed.

Lemma crossover_total (a b : Allocations xnum) : returns (crossover a b) (fun _ => True).
Proof.
  unfold crossover.
  apply (returns_bind _ _ _ _ next_xnum_returns). intros crossType _.
  apply (returns_bind _ _ (fun _ => True)); [|intros; apply returns_ret; exact I].
  destruct (less crossType (lit 0.5)).
  - apply returns_foldM; [|exact I]. intros result k _ _.
    apply (returns_bind _ _ _ _ next_xnum_returns). intros u _. apply returns_ret. exact I.
  - apply (returns_bind _ _ _ _ next_xnum_returns). intros u _. apply returns_ret. exact I.
Qed.

End EvolveReturns.

Section EvolveReturns2.
Import Exact.
Local Open Scope Q_scope.
Variables (P : Platform xnum) (A : Assumptions xnum) (ambient : nat -> Ambient xnum).
Hypothesis table_total : forall r, regimes A r <> None.
Variables (seedPortfolio : Portfolio xnum) (config : EvolutionConfig xnum).

Lemma initial_candidate_returns cfg i :
  runnable A cfg ->
  returns (initial_candidate P A ambient seedPortfolio config cfg i) (fun _ => True).
Proof.
  intros Hcfg. unfold initial_candidate.
  apply (returns_bind _ _ (fun _ => True)); [|intros allocs _; apply evaluate_returns; exact Hcfg].
  destruct (i =? 0)%nat; [apply returns_ret; exact I|].
  destruct (less _ _); apply with_rng_returns.
  - apply mutate_returns.
  - apply (returns_weaken _ _ _ randomPortfolio_returns). trivial.
Qed.

Lemma offspring_returns cfg gen (population : list (EvolvedPortfolio xnum)) :
  runnable A cfg -> population <> [] ->
  returns (offspring P A ambient config cfg gen population) (fun _ => True).
Proof.
  intros Hcfg Hpop. unfold offspring.
  assert (Hselect : returns (with_rng (tournamentSelect population)) (fun _ => True)).
  { apply with_rng_returns.
    apply (returns_weaken _ _ _ (tournamentSelect_returns population Hpop)). trivial. }
  assert (Hnext : returns (with_rng (next (num := xnum))) (fun _ => True)).
  { apply with_rng_returns. apply next_xnum_returns. }
  apply (returns_bind _ _ _ _ Hnext). intros roll _.
  destruct (andb _ _).
  { apply (returns_bind _ _ _ _ Hselect). intros parentA _.
    apply (returns_bind _ _ _ _ Hselect). intros parentB _.
    apply (returns_bind _ _ (fun _ => True)).
    { apply with_rng_returns. apply crossover_total. }
    intros childAllocs _.
    apply (returns_bind _ _ _ _ Hnext). intros u _.
    apply (returns_bind _ _ (fun _ => True)).
    { destruct (less u _); [apply with_rng_returns, mutate_returns | apply returns_ret; exact I]. }
    intros childAllocs' _. apply evaluate_returns. exact Hcfg. }
  destruct (less roll _).
  { apply (returns_bind _ _ _ _ Hselect). intros parent _.
    apply (returns_bind _ _ (fun _ => True)).
    { apply with_rng_returns, mutate_returns. }
    intros childAllocs _. apply evaluate_returns. exact Hcfg. }
  apply (returns_bind _ _ (fun _ => True)).
  { apply with_rng_returns. apply (returns_weaken _ _ _ randomPortfolio_returns). trivial. }
  intros allocs _. apply evaluate_returns. exact Hcfg.
Qed.

Lemma fill_returns cfg gen (population : list (EvolvedPortfolio xnum)) :
  runnable A cfg -> population <> [] ->
  forall missing,
    returns (fill P A ambient config cfg gen population missing)
      (fun rest => List.length rest = missing).
Proof.
  intros Hcfg Hpop. induction missing as [|missing IH]; simpl.
  - apply returns_ret. reflexivity.
  - apply (returns_bind _ _ _ _ (offspring_returns cfg gen population Hcfg Hpop)).
    intros child _.
    apply (returns_bind _ _ _ _ IH). intros rest Hrest.
    apply returns_ret. simpl. f_equal. exact Hrest.
Qed.

(** The middle of a list that is not empty is one of its indices. *)
Lemma median_index (n : nat) :
  (0 < n)%nat ->
  exists k, to_integer (Math_floor (divide (of_nat n : xnum) (lit 2))) = Some (Z.of_nat k)
            /\ (k < n)%nat.
Proof.
  intros Hn. unfold of_nat, of_Z. change (lit 2) with (XFin 2).
  cbn [lit exact]. unfold fin at 1. rewrite divide_fin by discriminate.
  unfold fin at 1. cbn [Math_floor exact xfloor to_integer]. rewrite xinteger_Z.
  set (z := Qfloor _).
  assert (Hn' : 0 < inject_Z (Z.of_nat n)).
  { change 0 with (inject_Z 0). rewrite <- Zlt_Qlt. lia. }
  assert (Hz : (0 <= z < Z.of_nat n)%Z).
  { subst z. rewrite (Qfloor_comp _ (inject_Z (Z.of_nat n) / 2))
      by (rewrite !Qred_correct; reflexivity).
    split.
    - change 0%Z with (Qfloor 0). apply Qfloor_resp_le. apply Qle_shift_div_l; lra.
    - rewrite Zlt_Qlt.
      apply Qle_lt_trans with (inject_Z (Z.of_nat n) / 2); [apply Qfloor_le|].
      apply Qlt_shift_div_r; lra. }
  exists (Z.to_nat z). split; [f_equal; lia | lia].
Qed.

Lemma snapshot_Some_of (gen : nat) (pop : list (EvolvedPortfolio xnum)) :
  pop <> [] -> exists snap, snapshot P gen pop = Some snap.
Proof.
  intros Hpop. unfold snapshot.
  destruct pop as [|c pop']; [contradiction|].
  assert (H0 : at_index (c :: pop') (lit 0) = Some c) by reflexivity.
  rewrite H0.
  destruct (last_Some (c :: pop') Hpop) as (w & -> & _).
  destruct (median_index (List.length (c :: pop'))) as (k & Hk & Hlt); [simpl; lia|].
  unfold at_index at 1. rewrite Hk.
  destruct (Z.of_nat k <? 0)%Z eqn:E; [apply Z.ltb_lt in E; lia|].
  rewrite Nat2Z.id.
  destruct (nth_error (c :: pop') k) as [m|] eqn:Em; [eexists; reflexivity|].
  apply nth_error_None in Em. lia.
Qed.

End EvolveReturns2.

Section EvolveReturns3.
Import Exact.
Local Open Scope Q_scope.
Variables (P : Platform xnum) (A : Assumptions xnum) (ambient : nat -> Ambient xnum).
Hypothesis table_total : forall r, regimes A r <> None.
Variables (seedPortfolio : Portfolio xnum) (config : EvolutionConfig xnum).
Hypothesis population_not_empty : (1 <= populationSize config)%nat.
Hypothesis regime_to_draw :
  numScenarios (simConfig config) = 0%nat \/ regimesEnabled (simConfig config) <> [].

Lemma initial_simConfig_runnable : runnable A (initial_simConfig config).
Proof.
  split; [intros r _; apply table_total|].
  unfold initial_simConfig. cbn [numScenarios regimesEnabled].
  destruct (less _ _); [right; discriminate | exact regime_to_draw].
Qed.

Lemma adapt_runnable cfg gen : runnable A cfg -> runnable A (adapt config cfg gen).
Proof.
  intros [_ Hne]. split; [intros r _; apply table_total|].
  unfold adapt. destruct (less _ _); [|exact Hne].
  destruct (andb _ _); [|exact Hne].
  cbn [numScenarios regimesEnabled]. right.
  destruct (regimesEnabled cfg); discriminate.
Qed.

Lemma generation_step_returns (l : Loop) (gen : nat) :
  loop_kept A config l -> returns (generation_step P A ambient config l gen) (loop_kept A config).
Proof.
  intros [Hpop Hcfg]. unfold generation_step. cbv zeta.
  set (sorted := sort (@by_fitness_desc xnum exact) (l_population l)).
  assert (Hsorted : sorted <> []).
  { intros E. apply (f_equal (@List.length _)) in E.
    unfold sorted in E. rewrite sort_length, Hpop in E. simpl in E. lia. }
  destruct (snapshot_Some_of P gen sorted Hsorted) as [snap Hsnap].
  rewrite Hsnap. cbn [of_option].
  apply (returns_bind _ _ (fun x => x = snap)); [apply returns_ret; reflexivity|].
  intros ? ->.
  apply (returns_bind _ _ _ _ (fill_returns P A ambient config _ gen sorted Hcfg Hsorted _)).
  intros rest Hrest. apply returns_ret.
  split; cbn [l_population l_simConfig].
  - rewrite length_app, length_map in *. rewrite Hrest.
    rewrite length_firstn. unfold sorted. rewrite sort_length, Hpop. lia.
  - apply adapt_runnable. exact Hcfg.
Qed.

Lemma evolve_loop_returns (upto : nat) :
  returns (evolve_loop P A ambient seedPortfolio config upto) (loop_kept A config).
Proof.
  unfold evolve_loop.
  apply (returns_bind _ _ (fun pop : list (EvolvedPortfolio xnum) =>
                             List.length pop = populationSize config)).
  - eapply returns_weaken.
    + apply (returns_forM _ (fun _ => True)). intros i.
      apply initial_candidate_returns. apply initial_simConfig_runnable.
    + intros pop [Hlen _]. exact Hlen.
  - intros pop Hpop.
    apply returns_foldM.
    + intros l gen Hl _. apply generation_step_returns. exact Hl.
    + split; [exact Hpop | apply initial_simConfig_runnable].
Qed.

Lemma evolvePortfolio_returns (now : xnum) :
  exists r, evolvePortfolio P A ambient seedPortfolio config now = Ok r.
Proof.
  unfold evolvePortfolio.
  set (st := {| evo_rng := _; sim_calls := 0 |}).
  assert (H : returns
                (bind (evolve_loop P A ambient seedPortfolio config (generations config))
                   (fun l =>
                      bind (of_option OutOfModel
                              (snapshot P (generations config)
                                 (sort (@by_fitness_desc xnum exact) (l_population l))))
                        (fun snap =>
                           ret {| er_generations := l_generations l ++ [snap];
                                  champion := best snap;
                                  hallOfFame :=
                                    match l_hallOfFame l with
                                    | [] => [best snap]
                                    | _ :: _ => l_hallOfFame l
                                    end;
                                  adversarialFindings :=
                                    detectAdversarial P
                                      (sort (@by_fitness_desc xnum exact)
                                         (l_population l)) |})))
                (fun _ => True)).
  { apply (returns_bind _ _ _ _ (evolve_loop_returns _)). intros l [Hpop _].
    set (sorted := sort (@by_fitness_desc xnum exact) (l_population l)).
    assert (Hsorted : sorted <> []).
    { intros E. apply (f_equal (@List.length _)) in E.
      unfold sorted in E. rewrite sort_length, Hpop in E. simpl in E. lia. }
    destruct (snapshot_Some_of P (generations config) sorted Hsorted) as [snap ->].
    cbn [of_option].
    apply (returns_bind _ _ (fun _ => True)); [apply returns_ret; exact I|].
    intros; apply returns_ret; exact I. }
  destruct (H st) as (r & st' & E & _).
  rewrite E. exists r. reflexivity.
Qed.

End EvolveReturns3.

(** X28.  On exact numbers and on every platform, [evolvePortfolio] (the
    loop over the generations, the final snapshot and [detectAdversarial])
    never throws when the regime table has its four regimes, the
    population has one candidate or more, and the simulation has a regime
    to draw (or no scenario to generate): every index that the engine
    computes from a draw falls inside its array. *)
Theorem evolvePortfolio_never_throws :
  forall (P : Platform Exact.xnum) (A : Assumptions Exact.xnum)
         (ambient : nat -> Ambient Exact.xnum) seedPortfolio config now,
    (forall r, regimes A r <> None) ->
    (1 <= populationSize config)%nat ->
    numScenarios (simConfig config) = 0%nat \/ regimesEnabled (simConfig config) <> [] ->
    exists r, evolvePortfolio P A ambient seedPortfolio config now = Ok r.
Proof.
  intros P A ambient seedPortfolio cfg now Htable Hpop Hne.
  exact (evolvePortfolio_returns P A ambient Htable seedPortfolio cfg Hpop Hne now).
Qed.

Lemma evolvePortfolio_never_throws_witness :
  exists r, Sample.evolveX Sample.balanced (Sample.evolution_config 4 2 1 10 7) = Ok r.
Proof.
  apply evolvePortfolio_never_throws.
  - intros r. destruct r; discriminate.
  - simpl. lia.
  - right. discriminate.
Defined.

(* ================================================================== *)
(** * The percentiles and the probability of a loss *)
(* ================================================================== *)

Section ExactArith.
Import Exact.
Local Open Scope Q_scope.

Lemma plus_fin (a b : Q) : plus (XFin a) (XFin b) = fin (a + b).
Proof. reflexivity. Qed.

Lemma times_fin (a b : Q) : times (XFin a) (XFin b) = fin (a * b).
Proof. reflexivity. Qed.

Lemma floor_fin (a : Q) : Math_floor (XFin a) = fin (inject_Z (Qfloor a)).
Proof. reflexivity. Qed.

Lemma neg_fin (a : Q) : neg (XFin a) = fin (- a).
Proof.
  unfold neg. change (lit (-1)) with (XFin (-1)). rewrite times_fin.
  apply fin_eq. ring.
Qed.

Lemma ceil_fin (a : Q) : Math_ceil (XFin a) = fin (inject_Z (Qceiling a)).
Proof.
  unfold Math_ceil. rewrite neg_fin. unfold fin at 1. rewrite floor_fin.
  unfold fin at 1. rewrite neg_fin. apply fin_eq.
  rewrite Qred_correct.
  rewrite (Qfloor_comp _ (- a)) by (apply Qred_correct).
  unfold Qceiling. rewrite inject_Z_opp. reflexivity.
Qed.

Lemma strict_eq_fin (a b : Q) : strict_eq (fin a) (fin b) = Qeq_bool a b.
Proof.
  cbn [strict_eq exact]. unfold fin, xeq.
  destruct (Qeq_bool a b) eqn:E.
  - apply Qeq_bool_iff. rewrite !Qred_correct. apply Qeq_bool_iff. exact E.
  - apply Qeq_bool_false. rewrite !Qred_correct. apply Qeq_bool_neq. exact E.
Qed.

Lemma index_num_fin (qs : list Q) (z : Z) :
  (0 <= z < Z.of_nat (List.length qs))%Z ->
  index_num (map XFin qs) (fin (inject_Z z)) = XFin (nth (Z.to_nat z) qs 0).
Proof.
  intros Hz. unfold index_num, at_index. cbn [to_integer exact]. rewrite xinteger_Z.
  destruct (z <? 0)%Z eqn:E; [apply Z.ltb_lt in E; lia|].
  rewrite nth_error_map.
  rewrite (nth_error_nth' qs 0) by lia. reflexivity.
Qed.

Lemma ceiling_of_fraction (x : Q) :
  ~ inject_Z (Qfloor x) == x -> Qceiling x = (Qfloor x + 1)%Z.
Proof.
  intros Hx.
  pose proof (Qfloor_le x) as H1. pose proof (Qlt_floor x) as H2.
  pose proof (Qle_ceiling x) as H3. pose proof (Qceiling_lt x) as H4.
  assert (Ha : (Qfloor x < Qceiling x)%Z).
  { apply Z.le_neq. split.
    - rewrite Zle_Qle. apply Qle_trans with x; assumption.
    - intros E. apply Hx. apply Qle_antisym; [exact H1 | rewrite E; exact H3]. }
  assert (Hb : (Qceiling x - 1 < Qfloor x + 1)%Z).
  { rewrite Zlt_Qlt. apply Qlt_trans with x; assumption. }
  lia.
Qed.

End ExactArith.

Section PercentileValue.
Import Exact.
Local Open Scope Q_scope.

Lemma floor_in_range (x : Q) (n : nat) :
  0 <= x -> x <= inject_Z (Z.of_nat n) - 1 ->
  (0 <= Qfloor x < Z.of_nat n)%Z.
Proof.
  intros H0 H1. split.
  - change 0%Z with (Qfloor 0). apply Qfloor_resp_le. exact H0.
  - rewrite Zlt_Qlt. apply Qle_lt_trans with x; [apply Qfloor_le | lra].
Qed.

Lemma fraction_below_last (x : Q) (n : nat) :
  x <= inject_Z (Z.of_nat n) - 1 -> ~ inject_Z (Qfloor x) == x ->
  (Qfloor x + 1 < Z.of_nat n)%Z.
Proof.
  intros H1 Hx.
  assert (Hle : (Qfloor x <= Z.of_nat n - 1)%Z).
  { change (Z.of_nat n - 1)%Z with (Z.of_nat n + - 1)%Z.
    rewrite <- (Qfloor_Z (Z.of_nat n + -1)). apply Qfloor_resp_le.
    rewrite inject_Z_plus. exact H1. }
  assert (Hne : Qfloor x <> (Z.of_nat n - 1)%Z).
  { intros E. apply Hx. apply Qle_antisym; [apply Qfloor_le|].
    rewrite E. unfold Z.sub. rewrite inject_Z_plus. exact H1. }
  lia.
Qed.

(** [percentile] on exact numbers: the interpolation at the position
    [(p / 100) * (n - 1)]. *)
Lemma percentile_value (qs : list Q) (p : Q) :
  qs <> [] -> 0 <= p -> p <= 100 ->
  exists x v,
    x == p / 100 * (inject_Z (Z.of_nat (List.length qs)) - 1)
    /\ percentile (map XFin qs) (lit p) = XFin v
    /\ v == interpolate qs x.
Proof.
  intros Hne Hp0 Hp1.
  assert (Hn : 1 <= inject_Z (Z.of_nat (List.length qs))).
  { change 1 with (inject_Z 1). rewrite <- Zle_Qle.
    destruct qs; [contradiction | simpl; lia]. }
  unfold percentile. cbv zeta. rewrite length_map.
  set (idx := times (divide (lit p) (lit 100))
                (minus (of_nat (List.length qs)) (lit 1))).
  set (x := Qred (Qred (Qred p / 100)
                  * Qred (Qred (inject_Z (Z.of_nat (List.length qs))) - 1))).
  assert (Hidx : idx = XFin x).
  { unfold idx, x.
    change (lit 100) with (XFin 100). change (lit 1) with (XFin 1).
    unfold of_nat, of_Z. cbn [lit exact]. unfold fin at 1 2.
    rewrite divide_fin by discriminate. rewrite minus_fin.
    unfold fin at 1 2. rewrite times_fin. reflexivity. }
  clearbody idx. subst idx.
  assert (Hx : x == p / 100 * (inject_Z (Z.of_nat (List.length qs)) - 1)).
  { unfold x. rewrite !Qred_correct. reflexivity. }
  assert (Hx0 : 0 <= x).
  { rewrite Hx. apply Qmult_le_0_compat; [apply Qle_shift_div_l; lra | lra]. }
  assert (Hx1 : x <= inject_Z (Z.of_nat (List.length qs)) - 1).
  { rewrite Hx.
    assert (H : p / 100 <= 1) by (apply Qle_shift_div_r; lra).
    assert (H' : 0 <= p / 100) by (apply Qle_shift_div_l; lra).
    nra. }
  pose proof (floor_in_range x _ Hx0 Hx1) as Hfl.
  rewrite floor_fin, ceil_fin, strict_eq_fin.
  exists x. unfold interpolate.
  destruct (Qeq_bool (inject_Z (Qfloor x)) x) eqn:Eint.
  - apply Qeq_bool_iff in Eint.
    assert (Hce : Qceiling x = Qfloor x).
    { unfold Qceiling.
      assert (H : - x == inject_Z (- Qfloor x)).
      { rewrite inject_Z_opp. apply Qopp_comp. symmetry. exact Eint. }
      rewrite (Qfloor_comp _ _ H), Qfloor_Z. lia. }
    rewrite Hce, Qeq_bool_refl, index_num_fin by exact Hfl.
    eexists. split; [exact Hx|]. split; reflexivity.
  - apply Qeq_bool_neq in Eint.
    pose proof (ceiling_of_fraction x Eint) as Hce.
    pose proof (fraction_below_last x _ Hx1 Eint) as Hlast.
    rewrite Hce.
    rewrite Qeq_bool_false
      by (rewrite inject_Z_injective; lia).
    rewrite !index_num_fin by lia.
    unfold fin at 1. rewrite !minus_fin. unfold fin at 1 2. rewrite times_fin.
    unfold fin at 1. rewrite plus_fin. unfold fin.
    eexists. split; [exact Hx|]. split; [reflexivity|].
    rewrite !Qred_correct.
    replace (Z.to_nat (Qfloor x + 1)) with (S (Z.to_nat (Qfloor x))) by lia.
    reflexivity.
Qed.

End PercentileValue.

Section InterpolateFacts.
Local Open Scope Q_scope.

Lemma nth_sorted (qs : list Q) :
  StronglySorted Qle qs ->
  forall i j, (i <= j)%nat -> (j < List.length qs)%nat -> nth i qs 0 <= nth j qs 0.
Proof.
  induction 1 as [|q qs Hs IH Hq]; intros i j Hij Hj; [simpl in Hj; lia|].
  destruct j as [|j]; [replace i with 0%nat by lia; apply Qle_refl|].
  destruct i as [|i]; simpl.
  - rewrite Forall_forall in Hq. apply Hq. apply nth_In. simpl in Hj. lia.
  - apply IH; simpl in Hj; lia.
Qed.

Variable qs : list Q.
Hypothesis sorted : StronglySorted Qle qs.

Lemma interpolate_at_least (x : Q) :
  0 <= x -> x <= inject_Z (Z.of_nat (List.length qs)) - 1 ->
  nth (Z.to_nat (Qfloor x)) qs 0 <= interpolate qs x.
Proof.
  intros H0 H1. unfold interpolate.
  destruct (Qeq_bool (inject_Z (Qfloor x)) x) eqn:E; [apply Qle_refl|].
  apply Qeq_bool_neq in E.
  pose proof (floor_in_range x _ H0 H1) as Hfl.
  pose proof (fraction_below_last x _ H1 E) as Hlast.
  assert (Hd : nth (Z.to_nat (Qfloor x)) qs 0 <= nth (S (Z.to_nat (Qfloor x))) qs 0)
    by (apply nth_sorted; [exact sorted | lia | lia]).
  pose proof (Qfloor_le x) as Hf.
  set (a := nth (Z.to_nat (Qfloor x)) qs 0) in *.
  set (b := nth (S (Z.to_nat (Qfloor x))) qs 0) in *.
  set (f := inject_Z (Qfloor x)) in *.
  assert (0 <= (b - a) * (x - f)) by (apply Qmult_le_0_compat; lra).
  lra.
Qed.

Lemma interpolate_at_most (x : Q) :
  0 <= x -> x <= inject_Z (Z.of_nat (List.length qs)) - 1 ->
  ~ inject_Z (Qfloor x) == x ->
  interpolate qs x <= nth (S (Z.to_nat (Qfloor x))) qs 0.
Proof.
  intros H0 H1 E. unfold interpolate.
  rewrite (Qeq_bool_false _ _ E).
  pose proof (floor_in_range x _ H0 H1) as Hfl.
  pose proof (fraction_below_last x _ H1 E) as Hlast.
  assert (Hd : nth (Z.to_nat (Qfloor x)) qs 0 <= nth (S (Z.to_nat (Qfloor x))) qs 0)
    by (apply nth_sorted; [exact sorted | lia | lia]).
  pose proof (Qlt_floor x) as Hf. rewrite inject_Z_plus in Hf.
  change (inject_Z 1) with 1 in Hf.
  pose proof (Qfloor_le x) as Hf'.
  set (a := nth (Z.to_nat (Qfloor x)) qs 0) in *.
  set (b := nth (S (Z.to_nat (Qfloor x))) qs 0) in *.
  set (f := inject_Z (Qfloor x)) in *.
  assert (0 <= (b - a) * (1 - (x - f))) by (apply Qmult_le_0_compat; lra).
  lra.
Qed.

Lemma interpolate_mono (x y : Q) :
  0 <= x -> x <= y -> y <= inject_Z (Z.of_nat (List.length qs)) - 1 ->
  interpolate qs x <= interpolate qs y.
Proof.
  intros H0 Hxy H1.
  assert (Hx1 : x <= inject_Z (Z.of_nat (List.length qs)) - 1) by lra.
  assert (Hy0 : 0 <= y) by lra.
  pose proof (floor_in_range x _ H0 Hx1) as Hflx.
  pose proof (floor_in_range y _ Hy0 H1) as Hfly.
  pose proof (Qfloor_resp_le x y Hxy) as Hfl.
  destruct (Z.eq_dec (Qfloor x) (Qfloor y)) as [Heq|Hne].
  - destruct (Qeq_bool (inject_Z (Qfloor x)) x) eqn:Ex.
    + apply Qle_trans with (nth (Z.to_nat (Qfloor y)) qs 0);
        [|apply interpolate_at_least; assumption].
      unfold interpolate. rewrite Ex, Heq. apply Qle_refl.
    + apply Qeq_bool_neq in Ex.
      assert (Ey : ~ inject_Z (Qfloor y) == y).
      { intros E. apply Ex. apply Qle_antisym; [apply Qfloor_le|].
        rewrite Heq, E. exact Hxy. }
      unfold interpolate. rewrite (Qeq_bool_false _ _ Ex), (Qeq_bool_false _ _ Ey).
      rewrite <- Heq.
      pose proof (fraction_below_last x _ Hx1 Ex) as Hlast.
      assert (Hd : nth (Z.to_nat (Qfloor x)) qs 0 <= nth (S (Z.to_nat (Qfloor x))) qs 0)
        by (apply nth_sorted; [exact sorted | lia | lia]).
      set (a := nth (Z.to_nat (Qfloor x)) qs 0) in *.
      set (b := nth (S (Z.to_nat (Qfloor x))) qs 0) in *.
      set (f := inject_Z (Qfloor x)) in *.
      assert (0 <= (b - a) * (y - x)) by (apply Qmult_le_0_compat; lra).
      lra.
  - assert (Hlt : (Qfloor x < Qfloor y)%Z) by lia.
    apply Qle_trans with (nth (Z.to_nat (Qfloor y)) qs 0);
      [|apply interpolate_at_least; assumption].
    destruct (Qeq_bool (inject_Z (Qfloor x)) x) eqn:Ex.
    + unfold interpolate. rewrite Ex. apply nth_sorted; [exact sorted | lia | lia].
    + apply Qeq_bool_neq in Ex.
      apply Qle_trans with (nth (S (Z.to_nat (Qfloor x))) qs 0);
        [apply interpolate_at_most; assumption|].
      apply nth_sorted; [exact sorted | lia | lia].
Qed.

End InterpolateFacts.

Section PercentileOrder.
Import Exact.
Local Open Scope Q_scope.

(** A sum that is a real number has only real numbers as its terms. *)
Lemma sum_finite (xs : list xnum) :
  isFinite (sum xs) = true -> Forall (fun v => isFinite v = true) xs.
Proof.
  unfold sum.
  assert (H : forall xs acc,
             isFinite (fold_left plus xs acc) = true ->
             isFinite acc = true /\ Forall (fun v => isFinite v = true) xs).
  { induction xs0 as [|x xs0 IH]; intros acc Hacc; simpl in Hacc.
    - split; [exact Hacc | constructor].
    - destruct (IH _ Hacc) as [Hax Hxs].
      apply isFinite_xnum in Hax. destruct Hax as [q Hq].
      destruct acc as [a|s|], x as [b|t|]; try discriminate Hq;
        try (destruct s, t; discriminate Hq).
      split; [apply isFinite_xnum; eexists; reflexivity|].
      constructor; [apply isFinite_xnum; eexists; reflexivity | exact Hxs]. }
  intros Hs. apply (H xs (lit 0)). exact Hs.
Qed.

Lemma mean_finite (xs : list xnum) :
  isFinite (mean xs) = true -> xs <> [] /\ Forall (fun v => isFinite v = true) xs.
Proof.
  unfold mean. intros H.
  apply isFinite_xnum in H. destruct H as [q Hq].
  destruct (sum xs) as [a|s|] eqn:Es.
  - split.
    + intros ->. inversion Es; subst a. vm_compute in Hq. discriminate Hq.
    + apply sum_finite. rewrite Es. apply isFinite_xnum. eexists. reflexivity.
  - exfalso. unfold of_nat, of_Z in Hq. cbn [lit exact] in Hq. unfold fin in Hq.
    cbn [divide exact xdivide] in Hq. discriminate Hq.
  - discriminate Hq.
Qed.

(** A sorted list of real numbers, as the list of its rationals. *)
Lemma sorted_rationals (xs : list xnum) :
  Forall (fun v => isFinite v = true) xs ->
  StronglySorted (fun a b => less b a = false) xs ->
  exists qs, xs = map XFin qs /\ StronglySorted Qle qs.
Proof.
  intros Hfin Hs. induction Hs as [|x xs Hs IH Hx].
  - exists []. split; constructor.
  - inversion Hfin as [|? ? Hfx Hfxs]; subst.
    destruct (IH Hfxs) as (qs & -> & Hqs).
    apply isFinite_xnum in Hfx. destruct Hfx as [q ->].
    exists (q :: qs). split; [reflexivity|].
    constructor; [exact Hqs|].
    rewrite Forall_forall in *. intros q' Hq'.
    apply xless_fin_false. apply Hx. apply in_map. exact Hq'.
Qed.

Lemma percentile_ordered (qs : list Q) (p p' : Q) :
  qs <> [] -> StronglySorted Qle qs ->
  0 <= p -> p <= p' -> p' <= 100 ->
  less (percentile (map XFin qs) (lit p')) (percentile (map XFin qs) (lit p)) = false.
Proof.
  intros Hne Hs H0 Hpp H1.
  destruct (percentile_value qs p Hne H0) as (x & v & Hx & -> & Hv); [lra|].
  destruct (percentile_value qs p' Hne) as (x' & v' & Hx' & -> & Hv'); [lra | exact H1|].
  apply xless_fin_false. rewrite Hv, Hv'.
  assert (Hn : 1 <= inject_Z (Z.of_nat (List.length qs))).
  { change 1 with (inject_Z 1). rewrite <- Zle_Qle.
    destruct qs; [contradiction | simpl; lia]. }
  set (n := inject_Z (Z.of_nat (List.length qs))) in *.
  assert (Ha : 0 <= p / 100) by (apply Qle_shift_div_l; lra).
  assert (Hb : p / 100 <= p' / 100).
  { unfold Qdiv. apply Qmult_le_compat_r; [exact Hpp | discriminate]. }
  assert (Hc : p' / 100 <= 1) by (apply Qle_shift_div_r; lra).
  apply interpolate_mono; [exact Hs | | |].
  - rewrite Hx. apply Qmult_le_0_compat; lra.
  - rewrite Hx, Hx'.
    assert (0 <= (p' / 100 - p / 100) * (n - 1)) by (apply Qmult_le_0_compat; lra).
    lra.
  - rewrite Hx'.
    apply Qle_trans with (1 * (n - 1)); [apply Qmult_le_compat_r; lra|].
    rewrite Qmult_1_l. apply Qle_refl.
Qed.

End PercentileOrder.

Section MetricsOrder.
Import Exact.
Local Open Scope Q_scope.

Lemma metrics_percentiles_ordered (P : Platform xnum) (config : SimulationConfig xnum)
    (results : list (ScenarioResult xnum)) :
  isFinite (meanReturn (compute_metrics P config results)) = true ->
  less (p25Return (compute_metrics P config results))
       (p5Return (compute_metrics P config results)) = false
  /\ less (p50Return (compute_metrics P config results))
          (p25Return (compute_metrics P config results)) = false
  /\ less (p75Return (compute_metrics P config results))
          (p50Return (compute_metrics P config results)) = false
  /\ less (p95Return (compute_metrics P config results))
          (p75Return (compute_metrics P config results)) = false.
Proof.
  unfold compute_metrics. cbv zeta.
  cbn [meanReturn p5Return p25Return p50Return p75Return p95Return].
  set (rs := map (@portfolioReturn xnum) results).
  intros Hmean. apply mean_finite in Hmean. destruct Hmean as [Hne Hfin].
  assert (Hnum : Forall (fun v : xnum => isNaN ((fun x => x) v) = false) rs).
  { apply (Permutation_Forall (Permutation_sym (sort_perm (fun a b : xnum => minus a b) rs))).
    apply (Forall_impl _ (P := fun v => isFinite v = true)); [|exact Hfin].
    intros v Hv. apply isFinite_xnum in Hv. destruct Hv as [q ->]. apply isNaN_xnum. }
  pose proof (sort_ordered (L := exact_order_laws) (fun x : xnum => x) rs Hnum) as Hsorted.
  change (sort (fun a b : xnum => minus ((fun x => x) a) ((fun x => x) b)) rs)
    with (sort (fun a b : xnum => minus a b) rs) in Hsorted.
  destruct (sorted_rationals _ Hfin Hsorted) as (qs & Hqs & Hs).
  rewrite Hqs in *.
  assert (Hne' : qs <> []) by (intros ->; apply Hne; reflexivity).
  repeat split; apply percentile_ordered; try assumption; discriminate.
Qed.

End MetricsOrder.

(** X29.  On exact numbers, the percentiles of a summary are in order,
    p5 <= p25 <= p50 <= p75 <= p95, whenever [meanReturn] is a real number
    (which it is exactly when there is a scenario and every return is a
    real number). *)
Theorem percentiles_ordered :
  forall (P : Platform Exact.xnum) (A : Assumptions Exact.xnum)
         (amb : Ambient Exact.xnum) portfolio config seed s,
    runMonteCarlo P A amb portfolio config seed = Ok s ->
    isFinite (meanReturn (metrics s)) = true ->
    less (p25Return (metrics s)) (p5Return (metrics s)) = false
    /\ less (p50Return (metrics s)) (p25Return (metrics s)) = false
    /\ less (p75Return (metrics s)) (p50Return (metrics s)) = false
    /\ less (p95Return (metrics s)) (p75Return (metrics s)) = false.
Proof.
  intros P A amb portfolio cfg seed s H Hmean.
  destruct (runMonteCarlo_Ok_given P A amb portfolio cfg seed s H) as (Htable & Hne).
  destruct (runMonteCarlo_results P A amb portfolio cfg seed Htable Hne)
    as (s' & results & E & _ & _ & _ & Hm & _).
  rewrite H in E. inversion E; subst s'; clear E.
  rewrite Hm in *. apply metrics_percentiles_ordered. exact Hmean.
Qed.

Lemma percentiles_ordered_witness :
  match Sample.runX Sample.sixty_forty 6 1 42 with
  | Ok s =>
      isFinite (meanReturn (metrics s)) = true
      /\ less (p25Return (metrics s)) (p5Return (metrics s)) = false
      /\ less (p50Return (metrics s)) (p25Return (metrics s)) = false
      /\ less (p75Return (metrics s)) (p50Return (metrics s)) = false
      /\ less (p95Return (metrics s)) (p75Return (metrics s)) = false
  | Throw _ => False
  end.
Proof.
  assert (Hmean : match Sample.runX Sample.sixty_forty 6 1 42 with
                  | Ok s => isFinite (meanReturn (metrics s))
                  | Throw _ => false
                  end = true)
    by (vm_compute; reflexivity).
  destruct (runMonteCarlo _ _ _ _ _ _) as [s|e] eqn:E; [|discriminate].
  split; [exact Hmean|].
  exact (percentiles_ordered _ _ _ _ _ _ _ E Hmean).
Defined.

Section ProbLoss.
Import Exact.
Local Open Scope Q_scope.

Lemma ratio_of_counts (c n : nat) :
  (c <= n)%nat -> (1 <= n)%nat ->
  exists q, divide (of_nat c : xnum) (of_nat n) = XFin q /\ 0 <= q /\ q <= 1.
Proof.
  intros Hc Hn. unfold of_nat, of_Z. cbn [lit exact]. unfold fin at 1 2.
  assert (Hn' : 0 < inject_Z (Z.of_nat n)).
  { change 0 with (inject_Z 0). rewrite <- Zlt_Qlt. lia. }
  assert (Hc0 : 0 <= inject_Z (Z.of_nat c)).
  { change 0 with (inject_Z 0). rewrite <- Zle_Qle. lia. }
  assert (Hcn : inject_Z (Z.of_nat c) <= inject_Z (Z.of_nat n)).
  { rewrite <- Zle_Qle. lia. }
  rewrite divide_fin by (rewrite Qred_correct; lra).
  eexists. split; [reflexivity|]. rewrite !Qred_correct.
  split; [apply Qle_shift_div_l; lra | apply Qle_shift_div_r; lra].
Qed.

End ProbLoss.

(** X30.  On exact numbers, with one scenario or more, [probLoss] is a
    rational between 0 and 1. *)
Theorem probLoss_is_a_probability :
  forall (P : Platform Exact.xnum) (A : Assumptions Exact.xnum)
         (amb : Ambient Exact.xnum) portfolio config seed s,
    (1 <= numScenarios config)%nat ->
    runMonteCarlo P A amb portfolio config seed = Ok s ->
    exists q : Q, probLoss (metrics s) = Exact.XFin q /\ (0 <= q)%Q /\ (q <= 1)%Q.
Proof.
  intros P A amb portfolio cfg seed s Hn H.
  destruct (runMonteCarlo_Ok_given P A amb portfolio cfg seed s H) as (Htable & Hne).
  destruct (runMonteCarlo_results P A amb portfolio cfg seed Htable Hne)
    as (s' & results & E & Hlen & _ & _ & Hm & _).
  rewrite H in E. inversion E; subst s'; clear E.
  rewrite Hm. unfold compute_metrics. cbn [probLoss].
  apply ratio_of_counts.
  - apply filter_length_le.
  - rewrite sort_length, length_map, Hlen. exact Hn.
Qed.

Lemma probLoss_is_a_probability_witness :
  exists s,
    Sample.runX Sample.sixty_forty 6 1 42 = Ok s
    /\ exists q : Q, probLoss (metrics s) = Exact.XFin q /\ (0 <= q)%Q /\ (q <= 1)%Q.
Proof.
  assert (Hok : is_Ok (Sample.runX Sample.sixty_forty 6 1 42) = true)
    by (vm_compute; reflexivity).
  destruct (is_Ok_inv _ Hok) as [s E].
  exists s. split; [exact E|].
  refine (probLoss_is_a_probability _ _ _ _ _ _ _ _ E).
  simpl. lia.
Defined.
